(** * cjdk: version matching, catalog lookup and Java-home discovery

    A shallow embedding of [src/cjdk/_index.py] and [src/cjdk/_jdk.py],
    followed by the properties of the natural-language specification that
    are stated about them.

    Conventions of the embedding.
    - A Python [str] is the [string] of its code points, each below 256;
      text with a code point from 256 on is outside the embedding.  The
      catalog text is checked to be 7-bit clean ([_fetch_index]).
      [int(str)], [str.lower] and the comparison of strings act on these
      code points as the interpreter does.
    - A Python [int] is a [Z].  The interpreter's limit on the conversion
      between [int] and [str] is at its default, [max_str_digits] = 4300
      digits (CPython 3.11 and later), in [int(str)] and in [repr].
    - A function that may raise returns a [result]; the exception classes
      that occur are the constructors of [exn].
    - A [dict] is an association list in insertion order with distinct keys,
      because insertion order is observable ([items], [keys]). *)

From Stdlib Require Import ZArith List String Ascii Bool Arith Lia.
From Stdlib Require Import Permutation Sorted DecimalString.
From Stdlib Require DecimalZ.
Import ListNotations.

Open Scope string_scope.
Open Scope Z_scope.
Open Scope list_scope.

Set Warnings "-register-all".

(** ** Exceptions and results *)

Inductive exn : Type :=
| ValueError (msg : string)
| TypeError
| AssertionError
| LookupError (msg : string)
| KeyError (msg : string)
| RuntimeError (msg : string)
| OSError (path : list string)
| HTTPError
| JSONDecodeError.

(** [isinstance(e, LookupError)]: [KeyError] derives from [LookupError]. *)
Definition isinstance_LookupError (e : exn) : bool :=
  match e with
  | LookupError _ | KeyError _ => true
  | _ => false
  end.

Inductive result (A : Type) : Type :=
| Ok (a : A)
| Raise (e : exn).

Arguments Ok {A} a.
Arguments Raise {A} e.

Definition bind {A B : Type} (r : result A) (k : A -> result B) : result B :=
  match r with
  | Ok a => k a
  | Raise e => Raise e
  end.

Notation "x <- r ;; k" := (bind r (fun x => k))
  (at level 61, r at next level, right associativity).

(** ** Strings *)

Definition str_nonempty (s : string) : bool :=
  match s with
  | EmptyString => false
  | String _ _ => true
  end.

(** [s.endswith(c)] for a one-character suffix. *)
Fixpoint endswith_char (s : string) (c : ascii) : bool :=
  match s with
  | EmptyString => false
  | String a EmptyString => Ascii.eqb a c
  | String _ s' => endswith_char s' c
  end.

(** [s[:-1]]. *)
Fixpoint str_init (s : string) : string :=
  match s with
  | EmptyString => EmptyString
  | String _ EmptyString => EmptyString
  | String a s' => String a (str_init s')
  end.

(** [c.lower()] on a code point below 256: the letters [A-Z], and the
    accented capitals from 192 to 222 without the multiplication sign at
    215, move up by 32. *)
Definition lower_char (c : ascii) : ascii :=
  let n := nat_of_ascii c in
  if (((65 <=? n) && (n <=? 90))
      || ((192 <=? n) && (n <=? 222) && negb (n =? 215)))%nat
  then ascii_of_nat (n + 32) else c.

Fixpoint lower (s : string) : string :=
  match s with
  | EmptyString => EmptyString
  | String c s' => String (lower_char c) (lower s')
  end.

(** [sub in s] for strings. *)
Fixpoint str_contains (sub s : string) : bool :=
  if String.prefix sub s then true
  else match s with
       | EmptyString => false
       | String _ s' => str_contains sub s'
       end.

(** [s.removeprefix(p)]. *)
Fixpoint drop_chars (n : nat) (s : string) : string :=
  match n, s with
  | S n', String _ s' => drop_chars n' s'
  | _, _ => s
  end.

Definition removeprefix (p s : string) : string :=
  if String.prefix p s then drop_chars (String.length p) s else s.

(** ** [int(str)] in base 10

    Optional blanks, an optional sign, digits in which single underscores
    may separate digits, optional blanks; at most [max_str_digits] digits.
    Blanks are the six characters of C's [isspace] and, among the code
    points from 128 to 255, the two that are Unicode white space: 133 (next
    line) and 160 (no-break space).  No code point from 128 to 255 is a
    decimal digit. *)

Definition max_str_digits : Z := 4300.

Definition is_space (c : ascii) : bool :=
  let n := nat_of_ascii c in
  (((9 <=? n) && (n <=? 13)) || (n =? 32) || (n =? 133) || (n =? 160))%nat.

Definition is_digit (c : ascii) : bool :=
  let n := nat_of_ascii c in
  ((48 <=? n) && (n <=? 57))%nat.

Definition digit_value (c : ascii) : Z := Z.of_nat (nat_of_ascii c) - 48.

Fixpoint skip_space (s : string) : string :=
  match s with
  | String c s' => if is_space c then skip_space s' else s
  | EmptyString => EmptyString
  end.

(** The digit loop: [prev_us] tells that the previous character was an
    underscore.  Returns the value read and the unread rest. *)
Fixpoint long_digits (s : string) (prev_us : bool) (acc : Z)
  : option (Z * string) :=
  match s with
  | String c s' =>
      if is_digit c then long_digits s' false (10 * acc + digit_value c)
      else if Ascii.eqb c "_" then
             if prev_us then None else long_digits s' true acc
      else if prev_us then None else Some (acc, s)
  | EmptyString => if prev_us then None else Some (acc, EmptyString)
  end.

(** The number of digits in the run of digits and underscores that the
    digit loop reads. *)
Fixpoint digit_count (s : string) : Z :=
  match s with
  | String c s' =>
      if is_digit c then 1 + digit_count s'
      else if Ascii.eqb c "_" then digit_count s'
      else 0
  | EmptyString => 0
  end.

(** What stands behind the blanks and the sign: a first digit, the digit
    loop, the limit on the digits read, and nothing but blanks behind
    them.  [None] stands for the [ValueError] of [int]. *)
Definition long_value (neg : bool) (s : string) : option Z :=
  match s with
  | String c _ =>
      if is_digit c then
        match long_digits s false 0 with
        | Some (v, rest) =>
            if max_str_digits <? digit_count s then None
            else if str_nonempty (skip_space rest) then None
            else Some (if neg then - v else v)
        | None => None
        end
      else None
  | EmptyString => None
  end.

Definition py_int (s : string) : option Z :=
  match skip_space s with
  | String "+" r => long_value false r
  | String "-" r => long_value true r
  | s1 => long_value false s1
  end.

(** ** [re.split(r"[.-]", s)] *)

Definition is_sep (c : ascii) : bool :=
  Ascii.eqb c "." || Ascii.eqb c "-".

Fixpoint re_split (s : string) : list string :=
  match s with
  | EmptyString => [EmptyString]
  | String c s' =>
      if is_sep c then EmptyString :: re_split s'
      else match re_split s' with
           | h :: t => String c h :: t
           | [] => [String c EmptyString]
           end
  end.

(** ** Version keys

    [_normalize_version] returns a tuple whose items are ints, with the
    string ["+"] appended for an open-ended version. *)

Inductive elem : Type :=
| EInt (z : Z)
| EPlus.

Definition key : Type := list elem.

(** [x == y] on tuple items; an int never equals a string. *)
Definition elem_eqb (x y : elem) : bool :=
  match x, y with
  | EInt a, EInt b => a =? b
  | EPlus, EPlus => true
  | _, _ => false
  end.

(** [x < y] on tuple items: ordering an int against a string raises. *)
Definition elem_lt (x y : elem) : result bool :=
  match x, y with
  | EInt a, EInt b => Ok (a <? b)
  | EPlus, EPlus => Ok false
  | _, _ => Raise TypeError
  end.

Definition elem_gt (x y : elem) : result bool := elem_lt y x.

Definition elem_ge (x y : elem) : result bool :=
  match x, y with
  | EInt a, EInt b => Ok (a >=? b)
  | EPlus, EPlus => Ok true
  | _, _ => Raise TypeError
  end.

(** Tuple equality. *)
Fixpoint tuple_eqb (a b : key) : bool :=
  match a, b with
  | [], [] => true
  | x :: a', y :: b' => elem_eqb x y && tuple_eqb a' b'
  | _, _ => false
  end.

(** Tuple ordering: the items at the first index where the tuples differ
    decide; when one tuple is a prefix of the other the lengths decide. *)
Fixpoint tuple_lt (a b : key) : result bool :=
  match a, b with
  | x :: a', y :: b' => if elem_eqb x y then tuple_lt a' b' else elem_lt x y
  | [], _ :: _ => Ok true
  | _, [] => Ok false
  end.

Definition tuple_gt (a b : key) : result bool := tuple_lt b a.

(** ** [sorted]

    [list.sort] is a stable comparison sort that only calls [<].  When
    every comparison between two items of the list is defined it returns
    the stable arrangement ([reverse=True] reverses, sorts and reverses
    again).  When some two items cannot be ordered, no run of a comparison
    sort can finish without comparing such a pair (the answers it got would
    be the same under two total orders that disagree on that pair), so the
    [TypeError] of that comparison is what [sorted] raises. *)

Section Sorted.
Context {A : Type}.
Variable lt : A -> A -> result bool.

Definition is_lt (x y : A) : bool :=
  match lt x y with
  | Ok b => b
  | Raise _ => false
  end.

Definition comparable (x y : A) : bool :=
  match lt x y, lt y x with
  | Ok _, Ok _ => true
  | _, _ => false
  end.

Fixpoint all_comparable (l : list A) : bool :=
  match l with
  | [] => true
  | x :: l' => forallb (comparable x) l' && all_comparable l'
  end.

(** Insert [x] behind every item that is not greater than it. *)
Fixpoint insert (x : A) (l : list A) : list A :=
  match l with
  | [] => [x]
  | y :: l' => if is_lt x y then x :: l else y :: insert x l'
  end.

Definition stable_sort (l : list A) : list A :=
  fold_left (fun acc x => insert x acc) l [].

Definition py_sorted (reverse : bool) (l : list A) : result (list A) :=
  if all_comparable l then
    Ok (if reverse then rev (stable_sort (rev l)) else stable_sort l)
  else Raise TypeError.
End Sorted.

(** ** Dictionaries *)

Section Dict.
Context {K V : Type}.
Variable eqb : K -> K -> bool.

Fixpoint dict_get (k : K) (d : list (K * V)) : option V :=
  match d with
  | [] => None
  | (k', v) :: d' => if eqb k k' then Some v else dict_get k d'
  end.

(** [d[k] = v]: an existing key keeps its place, a new one goes last. *)
Fixpoint dict_set (k : K) (v : V) (d : list (K * V)) : list (K * V) :=
  match d with
  | [] => [(k, v)]
  | (k', v') :: d' =>
      if eqb k k' then (k', v) :: d' else (k', v') :: dict_set k v d'
  end.

Definition dict_keys (d : list (K * V)) : list K := map fst d.
End Dict.

(** ** [cjdk._index]: version normalization and matching *)

(** [tuple(int(e) for e in norm)]: the first item that [int] rejects ends
    the conversion. *)
Fixpoint ints_of (parts : list string) : option key :=
  match parts with
  | [] => Some []
  | p :: parts' =>
      match py_int p with
      | Some z =>
          match ints_of parts' with
          | Some k => Some (EInt z :: k)
          | None => None
          end
      | None => None
      end
  end.

Definition _normalize_version (ver : string) (remove_prefix_1 : bool)
  : result key :=
  let is_plus := endswith_char ver "+" in
  let ver := if is_plus then str_init ver else ver in
  norm <- (if str_nonempty ver then
             match ints_of (re_split ver) with
             | Some norm => Ok norm
             | None => Raise (ValueError ("Invalid version string: " ++ ver)%string)
             end
           else Ok []) ;;
  let plus := if is_plus then [EPlus] else [] in
  match norm with
  | n0 :: norm1 =>
      if remove_prefix_1 && elem_eqb n0 (EInt 1) then Ok (norm1 ++ plus)
      else Ok (norm ++ plus)
  | [] => Ok (norm ++ plus)
  end.

(** [spec[-1]] and [version[i]]; the callers below only use them in range,
    the default stands for an [IndexError] that cannot happen. *)
Definition _is_version_compatible_with_spec (version spec : key)
  : result bool :=
  if existsb (elem_eqb EPlus) version then Raise AssertionError
  else
    let is_plus :=
      match spec with
      | [] => false
      | _ => elem_eqb (last spec (EInt 0)) EPlus
      end in
    if is_plus then
      let spec := removelast spec in
      match spec with
      | [] => Ok true
      | _ =>
          let n := List.length spec in
          if (n <=? List.length version)%nat then
            if tuple_eqb (firstn (n - 1) version) (removelast spec) then
              elem_ge (nth (n - 1) version (EInt 0)) (last spec (EInt 0))
            else Ok false
          else Ok false
      end
    else
      Ok ((List.length spec <=? List.length version)%nat
          && tuple_eqb (firstn (List.length spec) version) spec).

Definition is_graal (vendor : string) : bool :=
  str_contains "graalvm" (lower vendor).

Definition skipped_msg (candidate : string) : string :=
  ("Invalid version '" ++ candidate ++ "' in index; skipped")%string.

(** The first loop of [_match_version]: the dictionary from key to
    candidate, and the messages passed to [warnings.warn] for the
    candidates skipped. *)
Fixpoint collect_normcands (remove_prefix_1 : bool) (candidates : list string)
  (normcands : list (key * string)) (warned : list string)
  : list (key * string) * list string :=
  match candidates with
  | [] => (normcands, warned)
  | candidate :: rest =>
      match _normalize_version candidate remove_prefix_1 with
      | Ok normcand =>
          collect_normcands remove_prefix_1 rest
            (dict_set tuple_eqb normcand candidate normcands) warned
      | Raise _ =>
          collect_normcands remove_prefix_1 rest normcands
            (warned ++ [skipped_msg candidate])
      end
  end.

Definition no_match_msg (vendor requested : string) : string :=
  ("No matching version for '" ++ vendor ++ ":" ++ requested ++ "'")%string.

(** The second loop: [return] on the first compatible key, [continue]
    while the key is above the request, [break] otherwise. *)
Fixpoint scan_normcands (normcands : list (key * string)) (normreq : key)
  (msg : string) (keys : list key) : result string :=
  match keys with
  | [] => Raise (LookupError msg)
  | normcand :: rest =>
      ok <- _is_version_compatible_with_spec normcand normreq ;;
      if ok then
        match dict_get tuple_eqb normcand normcands with
        | Some candidate => Ok candidate
        | None => Raise (KeyError "")
        end
      else
        above <- tuple_gt normcand normreq ;;
        if above then scan_normcands normcands normreq msg rest
        else Raise (LookupError msg)
  end.

Definition _match_version (vendor : string) (candidates : list string)
  (requested : string) : result string :=
  let is_graal := is_graal vendor in
  normreq <- _normalize_version requested (negb is_graal) ;;
  let normcands := fst (collect_normcands (negb is_graal) candidates [] []) in
  keys <- py_sorted tuple_lt true (dict_keys normcands) ;;
  scan_normcands normcands normreq (no_match_msg vendor requested) keys.

(** The calls of [warnings.warn] in a run of [_match_version], in order.
    The request is normalized before the first loop: when that raises, no
    candidate has been looked at and nothing has been warned of. *)
Definition _match_version_warnings (vendor : string)
  (candidates : list string) (requested : string) : list string :=
  let is_graal := is_graal vendor in
  match _normalize_version requested (negb is_graal) with
  | Ok _ => snd (collect_normcands (negb is_graal) candidates [] [])
  | Raise _ => []
  end.

(** ** [cjdk._index]: the catalog *)

(** The fields of [Configuration] that this module reads. *)
Record Configuration : Type := {
  os : string;
  arch : string;
  vendor : string;
  version : string;
  index_url : string;
  _allow_insecure_for_testing : bool
}.

(** The JDK index, a nested dict:
    os -> arch -> "jdk@vendor" -> version -> url. *)
Definition versions_dict : Type := list (string * string).
Definition jdks_dict : Type := list (string * versions_dict).
Definition index_dict : Type := list (string * list (string * jdks_dict)).

(** [<] on pairs of strings: the first components decide unless equal. *)
Definition pair_lt (a b : string * string) : result bool :=
  if String.eqb (fst a) (fst b) then Ok (String.ltb (snd a) (snd b))
  else Ok (String.ltb (fst a) (fst b)).

(** The generator of [available_jdks]. *)
Definition vendor_version_pairs (jdks : jdks_dict) : list (string * string) :=
  flat_map
    (fun '(vendor, versions) =>
       map (fun '(version, _) => (removeprefix "jdk@" vendor, version))
         (versions : versions_dict))
    jdks.

Definition available_jdks (index : index_dict) (conf : Configuration)
  : result (list (string * string)) :=
  match dict_get String.eqb (os conf) index with
  | None => Ok []
  | Some arches =>
      match dict_get String.eqb (arch conf) arches with
      | None => Ok []
      | Some jdks => py_sorted pair_lt false (vendor_version_pairs jdks)
      end
  end.

Definition no_vendor_msg (conf : Configuration) : string :=
  ("No " ++ vendor conf ++ " JDK is available for "
     ++ os conf ++ "-" ++ arch conf)%string.

Definition no_version_msg (conf : Configuration) : string :=
  ("No JDK matching version " ++ version conf ++ " for "
     ++ os conf ++ "-" ++ arch conf ++ "-" ++ vendor conf)%string.

Definition resolve_jdk_version (index : index_dict) (conf : Configuration)
  : result string :=
  jdks <- available_jdks index conf ;;
  let versions :=
    map snd (filter (fun i => String.eqb (fst i) (vendor conf)) jdks) in
  match versions with
  | [] => Raise (KeyError (no_vendor_msg conf))
  | _ =>
      matched <- _match_version (vendor conf) versions (version conf) ;;
      if str_nonempty matched then Ok matched
      else Raise (KeyError (no_version_msg conf))
  end.

(** ** [cjdk._jdk]: the Java home

    The extracted archive is a tree of directories and regular files; a
    file carries its execute permission.  A path is the list of names that
    leads from the root of the tree to an entry. *)

Inductive node : Type :=
| File (executable : bool)
| Dir (entries : list (string * node)).

Definition path : Type := list string.

Fixpoint resolve (n : node) (p : path) : option node :=
  match p with
  | [] => Some n
  | name :: p' =>
      match n with
      | Dir entries =>
          match dict_get String.eqb name entries with
          | Some child => resolve child p'
          | None => None
          end
      | File _ => None
      end
  end.

Definition is_dir (fs : node) (p : path) : bool :=
  match resolve fs p with
  | Some (Dir _) => true
  | _ => false
  end.

Definition is_file (fs : node) (p : path) : bool :=
  match resolve fs p with
  | Some (File _) => true
  | _ => false
  end.

(** [path.iterdir()]: the entries of a directory, an [OSError] otherwise. *)
Definition iterdir (fs : node) (p : path) : result (list path) :=
  match resolve fs p with
  | Some (Dir entries) => Ok (map (fun e => (p ++ [fst e])) entries)
  | _ => Raise (OSError p)
  end.

Definition _looks_like_java_home (fs : node) (p : path) : bool :=
  if negb (is_dir fs (p ++ ["bin"])) then false
  else if negb (is_file fs (p ++ ["bin"; "java"])
                || is_file fs (p ++ ["bin"; "java.exe"])) then false
  else true.

Definition _contains_single_subdir (fs : node) (p : path)
  : result (option path) :=
  entries <- iterdir fs p ;;
  match filter (is_dir fs) entries with
  | [item] => Ok (Some item)
  | _ => Ok None
  end.

Definition path_str (p : path) : string := String.concat "/" p.

Definition not_a_home_msg (p : path) : string :=
  (path_str p ++ " does not look like it contains a JDK or JRE")%string.

Definition macos_extra : path := ["Contents"; "Home"].

(** [find_home] with its budget as a natural number. *)
Fixpoint find_home_depth (fs : node) (p : path) (depth : nat) : result path :=
  if _looks_like_java_home fs p then Ok p
  else if _looks_like_java_home fs (p ++ macos_extra) then Ok (p ++ macos_extra)
  else
    match depth with
    | S depth' =>
        subdir <- _contains_single_subdir fs p ;;
        match subdir with
        | Some sub => find_home_depth fs sub depth'
        | None => Raise (RuntimeError (not_a_home_msg p))
        end
    | O => Raise (RuntimeError (not_a_home_msg p))
    end.

(** [_recursion_depth] is an int: no descent when it is not positive. *)
Definition find_home_with (fs : node) (p : path) (_recursion_depth : Z)
  : result path :=
  find_home_depth fs p (Z.to_nat _recursion_depth).

Definition find_home (fs : node) (p : path) : result path :=
  find_home_with fs p 2.

(** ** [cjdk._index]: persisting the fetched index

    [json.dump(index, outfile, indent=2, sort_keys=True)] on the document
    that [response.json()] returned.  A float keeps the value the parser
    gave it and is printed by the interpreter's [float.__repr__]; the
    floats, their printing and their comparisons are parameters here. *)

Section Json.
Variable Float : Type.
Variable float_repr : Float -> string.
(** [f == g] on floats, and [f == z] for a float and an int. *)
Variable float_eq : Float -> Float -> bool.
Variable float_eq_int : Float -> Z -> bool.

Inductive json : Type :=
| JNull
| JBool (b : bool)
| JInt (z : Z)
| JFloat (f : Float)
| JStr (s : string)
| JList (items : list json)
| JDict (members : list (string * json)).

Definition hex_digit (n : nat) : ascii :=
  nth n ["0"; "1"; "2"; "3"; "4"; "5"; "6"; "7"; "8"; "9";
         "a"; "b"; "c"; "d"; "e"; "f"]%char "0"%char.

Definition dquote : ascii := ascii_of_nat 34.
Definition newline : ascii := ascii_of_nat 10.

(** One character of [encode_basestring_ascii]: the short escapes, then
    [\uXXXX] for whatever lies outside the printable 7-bit range. *)
Definition escape_char (c : ascii) : string :=
  let n := nat_of_ascii c in
  if (n =? 34)%nat then String "\" (String dquote EmptyString)
  else if (n =? 92)%nat then "\\"
  else if (n =? 10)%nat then "\n"
  else if (n =? 13)%nat then "\r"
  else if (n =? 9)%nat then "\t"
  else if (n =? 8)%nat then "\b"
  else if (n =? 12)%nat then "\f"
  else if ((32 <=? n) && (n <=? 126))%nat then String c EmptyString
  else ("\u00" ++ String (hex_digit (n / 16))
                    (String (hex_digit (n mod 16)) EmptyString))%string.

Fixpoint escape (s : string) : string :=
  match s with
  | EmptyString => EmptyString
  | String c s' => (escape_char c ++ escape s')%string
  end.

Definition encode_basestring_ascii (s : string) : string :=
  String dquote (escape s ++ String dquote EmptyString)%string.

Definition int_repr (z : Z) : string :=
  DecimalString.NilZero.string_of_int (Z.to_int z).

Fixpoint indent (level : nat) : string :=
  match level with
  | O => EmptyString
  | S level' => ("  " ++ indent level')%string
  end.

Definition newline_indent (level : nat) : string :=
  String newline (indent level).

(** [sorted(dct.items())]: the keys of a dict are distinct, so the keys
    alone order the items. *)
Definition item_lt (a b : string * string) : result bool :=
  Ok (String.ltb (fst a) (fst b)).

Definition member_str (kv : string * string) : string :=
  (encode_basestring_ascii (fst kv) ++ ": " ++ snd kv)%string.

Definition block (open close : string) (level : nat) (chunks : list string)
  : string :=
  (open ++ newline_indent (S level)
        ++ String.concat ("," ++ newline_indent (S level)) chunks
        ++ newline_indent level ++ close)%string.

(** The encoder at nesting depth [level].  The values of a dict are
    encoded where they stand and the encoded members are then put in key
    order, which yields the text the encoder produces by walking the
    sorted items. *)
Fixpoint encode (level : nat) (j : json) : string :=
  match j with
  | JNull => "null"
  | JBool b => if b then "true" else "false"
  | JInt z => int_repr z
  | JFloat f => float_repr f
  | JStr s => encode_basestring_ascii s
  | JList items =>
      match items with
      | [] => "[]"
      | _ => block "[" "]" level (map (encode (S level)) items)
      end
  | JDict members =>
      match members with
      | [] => "{}"
      | _ =>
          block "{" "}" level
            (map member_str
               (stable_sort item_lt
                  (map (fun kv => match kv with
                                  | (k, v) => (k, encode (S level) v)
                                  end) members)))
      end
  end.

(** [int.__repr__] raises [ValueError] on an integer of more than
    [max_str_digits] digits, and with it the encoder. *)
Definition repr_ok (z : Z) : bool :=
  Z.of_nat (String.length (int_repr (Z.abs z))) <=? max_str_digits.

Fixpoint printable (j : json) : bool :=
  match j with
  | JInt z => repr_ok z
  | JList items => forallb printable items
  | JDict members =>
      forallb (fun kv => match kv with
                         | (_, v) => printable v
                         end) members
  | _ => true
  end.

Definition repr_limit_msg : string :=
  "Exceeds the limit (4300 digits) for integer string conversion".

(** The text written, when the encoder gets through the document. *)
Definition json_dump (index : json) : result string :=
  if printable index then Ok (encode 0 index)
  else Raise (ValueError repr_limit_msg).

(** What [requests.get] returned, as far as [_fetch_index] looks at it:
    whether the status is a success, the body text, and what
    [response.json()] does: the document it returns or the exception it
    raises. *)
Record Response : Type := {
  status_ok : bool;
  text : string;
  json_body : result json
}.

Fixpoint isascii (s : string) : bool :=
  match s with
  | EmptyString => true
  | String c s' => (nat_of_ascii c <? 128)%nat && isascii s'
  end.

(** [_fetch_index]: [scheme] is [urlparse(conf.index_url).scheme]; the
    result is the text written to [dest]. *)
Definition _fetch_index (conf : Configuration) (scheme : string)
  (response : Response) : result string :=
  if negb (_allow_insecure_for_testing conf)
     && negb (String.eqb scheme "https")
  then Raise (ValueError "Index URL must be an HTTPS URL")
  else if negb (status_ok response) then Raise HTTPError
  else if negb (isascii (text response)) then
    Raise (ValueError
      "Index unexpectedly contains non-ASCII characters ({conf.index_url})")
  else
    index <- json_body response ;;
    json_dump index.

(** [a == b] on two documents that were parsed apart.  [True] and
    [False] are the ints 1 and 0; an int and a float are equal when they
    are the same number; two dicts are equal when they have as many
    members and every key of the first has an equal value in the
    second. *)
Definition bool_int (b : bool) : Z := if b then 1 else 0.

Fixpoint py_eq (a b : json) : bool :=
  match a, b with
  | JNull, JNull => true
  | JBool x, JBool y => Bool.eqb x y
  | JBool x, JInt z => bool_int x =? z
  | JInt z, JBool x => z =? bool_int x
  | JBool x, JFloat f => float_eq_int f (bool_int x)
  | JFloat f, JBool x => float_eq_int f (bool_int x)
  | JInt x, JInt y => x =? y
  | JInt z, JFloat f => float_eq_int f z
  | JFloat f, JInt z => float_eq_int f z
  | JFloat f, JFloat g => float_eq f g
  | JStr s, JStr t => String.eqb s t
  | JList l1, JList l2 =>
      (fix items (l1 l2 : list json) : bool :=
         match l1, l2 with
         | [], [] => true
         | x :: l1', y :: l2' => py_eq x y && items l1' l2'
         | _, _ => false
         end) l1 l2
  | JDict d1, JDict d2 =>
      (List.length d1 =? List.length d2)%nat
      && (fix members (d : list (string * json)) : bool :=
            match d with
            | [] => true
            | (k, v) :: d' =>
                match dict_get String.eqb k d2 with
                | Some w => py_eq v w
                | None => false
                end && members d'
            end) d1
  | _, _ => false
  end.

(** Equal documents: the same values, the members of an object taken as
    a set of distinct keys with their values, whatever their order. *)
Inductive json_eq : json -> json -> Prop :=
| je_null : json_eq JNull JNull
| je_bool b : json_eq (JBool b) (JBool b)
| je_int z : json_eq (JInt z) (JInt z)
| je_float f : json_eq (JFloat f) (JFloat f)
| je_str s : json_eq (JStr s) (JStr s)
| je_list l1 l2 : items_eq l1 l2 -> json_eq (JList l1) (JList l2)
| je_dict d1 d d2 :
    NoDup (map fst d1) -> members_eq d1 d -> Permutation d d2 ->
    json_eq (JDict d1) (JDict d2)
with items_eq : list json -> list json -> Prop :=
| ie_nil : items_eq [] []
| ie_cons j1 j2 l1 l2 :
    json_eq j1 j2 -> items_eq l1 l2 -> items_eq (j1 :: l1) (j2 :: l2)
with members_eq : list (string * json) -> list (string * json) -> Prop :=
| me_nil : members_eq [] []
| me_cons k j1 j2 d1 d2 :
    json_eq j1 j2 -> members_eq d1 d2 ->
    members_eq ((k, j1) :: d1) ((k, j2) :: d2).
End Json.

Arguments JNull {Float}.
Arguments JBool {Float} b.
Arguments JInt {Float} z.
Arguments JFloat {Float} f.
Arguments JStr {Float} s.
Arguments JList {Float} items.
Arguments JDict {Float} members.
Arguments encode {Float} float_repr level j.
Arguments printable {Float} j.
Arguments json_dump {Float} float_repr index.
Arguments py_eq {Float} float_eq float_eq_int a b.
Arguments status_ok {Float} r.
Arguments text {Float} r.
Arguments json_body {Float} r.
Arguments _fetch_index {Float} float_repr conf scheme response.
Arguments json_eq {Float} _ _.
Arguments items_eq {Float} _ _.
Arguments members_eq {Float} _ _.

(** ** The specification's vocabulary

    Definitions that follow the words of the specification, to be compared
    with the code above. *)

(** A normalized key: integer components, then the open-ended marker when
    the version is open-ended. *)
Definition spec_key (s : list Z) (open_ended : bool) : key :=
  map EInt s ++ (if open_ended then [EPlus] else []).

(** The compatibility rule of the specification (section 4.2b). *)
Definition spec_compatible (v s : list Z) (open_ended : bool) : Prop :=
  if open_ended then
    s = [] \/
    ((List.length s <= List.length v)%nat
     /\ firstn (List.length s - 1) v = removelast s
     /\ nth (List.length s - 1) v 0 >= last s 0)
  else
    (List.length s <= List.length v)%nat /\ firstn (List.length s) v = s.

(** The code's test on integer keys, as a boolean. *)
Definition compatible_ints (v s : list Z) (open_ended : bool) : bool :=
  if open_ended then
    match s with
    | [] => true
    | _ =>
        (List.length s <=? List.length v)%nat
        && (if list_eq_dec Z.eq_dec (firstn (List.length s - 1) v)
                 (removelast s) then true else false)
        && (nth (List.length s - 1) v 0 >=? last s 0)
    end
  else
    (List.length s <=? List.length v)%nat
    && (if list_eq_dec Z.eq_dec (firstn (List.length s) v) s
        then true else false).

(** A version string spelled from its components: the first component,
    then each further component behind the separator chosen for it. *)
Fixpoint join_seps (c : string) (rest : list (ascii * string)) : string :=
  match rest with
  | [] => c
  | (sep, c') :: rest' => (c ++ String sep (join_seps c' rest'))%string
  end.


(** The key of a normalization, forgetting the text of the error. *)
Definition key_of (r : result key) : option key :=
  match r with
  | Ok k => Some k
  | Raise _ => None
  end.

(** The version with a trailing ["+"] taken off, as [_normalize_version]
    splits it. *)
Definition version_body (ver : string) : string :=
  if endswith_char ver "+" then str_init ver else ver.

(** [_normalize_version] is a function of the components of the body and
    of the presence of the trailing ["+"]. *)
Definition normalize_parts (nonempty is_plus : bool) (parts : list string)
  (remove_prefix_1 : bool) : option key :=
  match (if nonempty then ints_of parts else Some []) with
  | Some norm =>
      let plus := if is_plus then [EPlus] else [] in
      match norm with
      | n0 :: norm1 =>
          if remove_prefix_1 && elem_eqb n0 (EInt 1) then Some (norm1 ++ plus)
          else Some (norm ++ plus)
      | [] => Some (norm ++ plus)
      end
  | None => None
  end.

(** ** Orders and encodings used by the statements *)

(** [x] does not come behind [y]. *)
Definition not_after {A : Type} (ltb : A -> A -> bool) (x y : A) : Prop :=
  ltb y x = false.

(** A member of an object with its value encoded. *)
Definition encode_member {Float : Type} (float_repr : Float -> string)
  (level : nat) (kv : string * json Float) : string * string :=
  match kv with
  | (k, v) => (k, encode float_repr (S level) v)
  end.

Fixpoint str_forall (p : ascii -> bool) (s : string) : bool :=
  match s with
  | EmptyString => true
  | String c s' => p c && str_forall p s'
  end.

Definition not_sep (c : ascii) : bool := negb (is_sep c).





(** A key with a leading component equal to 1 taken off. *)
Definition drop_prefix_1 (k : key) : key :=
  match k with
  | EInt 1 :: k' => k'
  | _ => k
  end.

(** The vendor name contains "graalvm", letter case aside. *)
Definition contains_graalvm (vendor : string) : Prop :=
  exists a m b, vendor = (a ++ m ++ b)%string /\ lower m = "graalvm".

Definition pair_ltb (a b : string * string) : bool :=
  if String.eqb (fst a) (fst b) then String.ltb (snd a) (snd b)
  else String.ltb (fst a) (fst b).

(** Ascending by (vendor, version) as strings. *)
Definition pair_le (a b : string * string) : Prop :=
  String.ltb (fst a) (fst b) = true
  \/ (fst a = fst b /\ String.ltb (snd b) (snd a) = false).

(** ** The full scan for the newest compatible candidate *)

(** Numeric, element-by-element order of integer tuples; a proper prefix
    comes first. *)
Fixpoint lex_lt (a b : list Z) : bool :=
  match a, b with
  | x :: a', y :: b' => if x =? y then lex_lt a' b' else x <? y
  | [], _ :: _ => true
  | _, [] => false
  end.

(** The compatibility rule, component by component. *)
Fixpoint compat_rec (v s : list Z) (open_ended : bool) {struct s} : bool :=
  match s, v with
  | [], _ => true
  | x :: s', y :: v' =>
      match s' with
      | [] => if open_ended then y >=? x else y =? x
      | _ => (y =? x) && compat_rec v' s' open_ended
      end
  | _ :: _, [] => false
  end.

(** The integer components of a key without the marker. *)
Fixpoint ints_of_key (k : key) : option (list Z) :=
  match k with
  | [] => Some []
  | EInt z :: k' => option_map (cons z) (ints_of_key k')
  | EPlus :: _ => None
  end.

(** The integer key of a candidate that normalizes to one. *)
Definition cand_key (f : bool) (c : string) : option (list Z) :=
  match _normalize_version c f with
  | Ok k => ints_of_key k
  | Raise _ => None
  end.

Definition compat_ok (k normreq : key) : bool :=
  match _is_version_compatible_with_spec k normreq with
  | Ok b => b
  | Raise _ => false
  end.

Definition zlist_eqb (a b : list Z) : bool :=
  if list_eq_dec Z.eq_dec a b then true else false.

(** A full scan for the maximum compatible candidate: every candidate is
    looked at, the best one so far is kept, and a later candidate replaces
    it unless its key is smaller. *)
Definition full_scan_step (f : bool) (normreq : key)
  (best : option (list Z * string)) (c : string) : option (list Z * string) :=
  match cand_key f c with
  | Some v =>
      if compat_ok (map EInt v) normreq then
        match best with
        | Some (bv, _) => if lex_lt v bv then best else Some (v, c)
        | None => Some (v, c)
        end
      else best
  | None => best
  end.

Definition full_scan (f : bool) (normreq : key) (cands : list string)
  : option (list Z * string) :=
  fold_left (full_scan_step f normreq) cands None.

(** The last candidate of the list whose key is [v]. *)
Definition find_last (f : bool) (v : list Z) (cands : list string)
  (init : option string) : option string :=
  fold_left
    (fun acc c =>
       match cand_key f c with
       | Some v' => if zlist_eqb v' v then Some c else acc
       | None => acc
       end)
    cands init.

Definition emb (v : list Z) : key := map EInt v.

Definition emb_pair (p : list Z * string) : key * string :=
  (emb (fst p), snd p).

Definition int_step (f : bool) (d : list (list Z * string)) (c : string)
  : list (list Z * string) :=
  match cand_key f c with
  | Some v => dict_set zlist_eqb v c d
  | None => d
  end.

(** The candidates whose accepted keys carry no marker. *)
Definition plus_free_candidates (f : bool) (cands : list string) : Prop :=
  forall c k,
    In c cands -> _normalize_version c f = Ok k ->
    existsb (elem_eqb EPlus) k = false.

Definition lex_lt_r (a b : list Z) : result bool := Ok (lex_lt a b).

(** The integer keys from newest to oldest. *)
Definition newest_first (vs : list (list Z)) : list (list Z) :=
  rev (stable_sort lex_lt_r (rev vs)).

(** What the full scan returns: nothing when no candidate is compatible,
    otherwise the last candidate among those whose key is compatible and
    not below the key of any compatible candidate. *)
Definition is_best (f : bool) (ok : list Z -> bool) (cands : list string)
  (best : option (list Z * string)) : Prop :=
  match best with
  | None =>
      forall c v, In c cands -> cand_key f c = Some v -> ok v = false
  | Some (v, c) =>
      In c cands /\ cand_key f c = Some v /\ ok v = true
      /\ find_last f v cands None = Some c
      /\ forall c' v',
          In c' cands -> cand_key f c' = Some v' -> ok v' = true ->
          lex_lt v v' = false
  end.

(** A request that every integer key satisfies: the empty key, or the bare
    open-ended marker. *)
Definition any_version (normreq : key) : Prop :=
  normreq = [] \/ normreq = [EPlus].

(** The versions that the catalog lists for the requested vendor on the
    requested os and arch. *)
Definition vendor_versions (index : index_dict) (conf : Configuration)
  : list string :=
  match available_jdks index conf with
  | Ok jdks => map snd (filter (fun i => String.eqb (fst i) (vendor conf)) jdks)
  | Raise _ => []
  end.

Definition request_flag (conf : Configuration) : bool :=
  negb (is_graal (vendor conf)).

(** A small catalog and four requests against it. *)
Definition sample_index : index_dict :=
  [("linux",
    [("x64",
      [("jdk@temurin",
        [("17.0.2", "tgz+https://example.org/t17");
         ("11.0.1", "tgz+https://example.org/t11")])])])].

Definition sample_conf (vendor version : string) : Configuration :=
  {| os := "linux"; arch := "x64"; vendor := vendor; version := version;
     index_url := "https://example.org/index.json";
     _allow_insecure_for_testing := false |}.

(** ** The state machine of the home locator, read on the tree itself *)

Fixpoint distinct (names : list string) : bool :=
  match names with
  | [] => true
  | x :: names' => negb (existsb (String.eqb x) names') && distinct names'
  end.

(** In every directory of the tree the entries have distinct names. *)
Fixpoint well_formed (n : node) : bool :=
  match n with
  | File _ => true
  | Dir entries =>
      distinct (map fst entries)
      && forallb (fun e => match e with (_, child) => well_formed child end)
           entries
  end.

Definition is_dir_node (n : node) : bool :=
  match n with
  | Dir _ => true
  | File _ => false
  end.

(** Whether the entry is a regular file, and the stricter reading: a
    regular file with the execute permission. *)
Definition regular_file (e : option node) : bool :=
  match e with
  | Some (File _) => true
  | _ => false
  end.

Definition executable_file (e : option node) : bool :=
  match e with
  | Some (File true) => true
  | _ => false
  end.

(** State IsHome: the node has a directory [bin] that holds a launcher
    [java] or [java.exe], [launcher] telling what counts as one. *)
Definition is_home (launcher : option node -> bool) (n : node) : bool :=
  match n with
  | Dir entries =>
      match dict_get String.eqb "bin" entries with
      | Some (Dir bin) =>
          launcher (dict_get String.eqb "java" bin)
          || launcher (dict_get String.eqb "java.exe" bin)
      | _ => false
      end
  | File _ => false
  end.

Definition is_home_at (launcher : option node -> bool) (fs : node) (p : path)
  : bool :=
  match resolve fs p with
  | Some n => is_home launcher n
  | None => false
  end.

(** The subdirectory of [p], when [p] holds exactly one. *)
Definition only_subdir (fs : node) (p : path) : option path :=
  match resolve fs p with
  | Some (Dir entries) =>
      match filter (fun e => is_dir_node (snd e)) entries with
      | [(name, _)] => Some (p ++ [name])
      | _ => None
      end
  | _ => None
  end.

(** States IsHome, MacBundle, SingleChildDescend and Failure. *)
Fixpoint find_home_spec (launcher : option node -> bool) (fs : node)
  (p : path) (budget : nat) : result path :=
  if is_home_at launcher fs p then Ok p
  else if is_home_at launcher fs (p ++ ["Contents"; "Home"])
       then Ok (p ++ ["Contents"; "Home"])
  else
    match budget with
    | S budget' =>
        match only_subdir fs p with
        | Some sub => find_home_spec launcher fs sub budget'
        | None => Raise (RuntimeError (not_a_home_msg p))
        end
    | O => Raise (RuntimeError (not_a_home_msg p))
    end.

Definition launcher_dir (executable : bool) : node :=
  Dir [("bin", Dir [("java", File executable)]); ("lib", Dir [])].

Definition tree_wrapped : node :=
  Dir [("README", File false); ("only-child", launcher_dir true)].

Definition tree_bundle : node :=
  Dir [("Contents", Dir [("Home", launcher_dir true)])].

Definition tree_deep : node :=
  Dir [("a", Dir [("b", Dir [("c", launcher_dir true)])])].

Definition tree_plain_file : node :=
  Dir [("bin", Dir [("java", File false)])].

(** ** Documents *)

Scheme json_eq_min := Minimality for json_eq Sort Prop
  with items_eq_min := Minimality for items_eq Sort Prop
  with members_eq_min := Minimality for members_eq Sort Prop.

Combined Scheme json_eq_mutual from json_eq_min, items_eq_min, members_eq_min.

Definition key_ltb (a b : string * string) : bool :=
  String.ltb (fst a) (fst b).

Definition safe_char (c : ascii) : bool :=
  let n := nat_of_ascii c in
  ((n <? 128) && negb (n =? 13))%nat.

(** Induction on documents, through the lists inside them. *)
Section JsonInduction.
Context {Float : Type}.
Variable P : json Float -> Prop.
Hypothesis P_null : P JNull.
Hypothesis P_bool : forall b, P (JBool b).
Hypothesis P_int : forall z, P (JInt z).
Hypothesis P_float : forall f, P (JFloat f).
Hypothesis P_str : forall s, P (JStr s).
Hypothesis P_list : forall items, Forall P items -> P (JList items).
Hypothesis P_dict :
  forall members, Forall (fun kv => P (snd kv)) members -> P (JDict members).

Fixpoint json_induction (j : json Float) : P j :=
  match j with
  | JNull => P_null
  | JBool b => P_bool b
  | JInt z => P_int z
  | JFloat f => P_float f
  | JStr s => P_str s
  | JList items =>
      P_list items
        ((fix all (l : list (json Float)) : Forall P l :=
            match l with
            | [] => Forall_nil P
            | x :: l' => Forall_cons x (json_induction x) (all l')
            end) items)
  | JDict members =>
      P_dict members
        ((fix all (l : list (string * json Float))
            : Forall (fun kv => P (snd kv)) l :=
            match l with
            | [] => Forall_nil _
            | (k, v) :: l' =>
                Forall_cons (P := fun kv => P (snd kv)) (k, v)
                  (json_induction v) (all l')
            end) members)
  end.
End JsonInduction.

(** Two bodies that list the same members in different orders, and the
    documents they parse to. *)
Definition quoted (pieces : list string) : string :=
  String.concat (String dquote EmptyString) pieces.

(** A value with a backslash, an accented letter (code point 233) and a
    tab. *)
Definition sample_value : string :=
  ("v\w" ++ String (ascii_of_nat 233) (String (ascii_of_nat 9) ""))%string.

Definition sample_doc_1 : json unit :=
  JDict [("linux", JDict [("x64", JStr "u"); ("arm64", JStr sample_value)]);
         ("darwin", JList [JInt 1; JNull])].

Definition sample_doc_2 : json unit :=
  JDict [("darwin", JList [JInt 1; JNull]);
         ("linux", JDict [("arm64", JStr sample_value); ("x64", JStr "u")])].

Definition sample_response_1 : Response unit :=
  {| status_ok := true;
     text := quoted ["{"; "linux"; ":{"; "x64"; ":"; "u"; ","; "arm64"; ":";
                     "v\\w\u00e9\t"; "},"; "darwin"; ":[1,null]}"];
     json_body := Ok sample_doc_1 |}.

Definition sample_response_2 : Response unit :=
  {| status_ok := true;
     text := quoted ["{"; "darwin"; ":[1,null],"; "linux"; ":{"; "arm64";
                     ":"; "v\\w\u00e9\t"; ","; "x64"; ":"; "u"; "}}"];
     json_body := Ok sample_doc_2 |}.

Definition sample_float_repr (f : unit) : string := "0.0".

(** ** The canonical text of a document, line by line *)

(** [n] blanks. *)
Fixpoint blanks (n : nat) : string :=
  match n with
  | O => EmptyString
  | S n' => String " " (blanks n')
  end.

(** A line of the text: the depth of nesting at which it stands, and what
    follows its indentation. *)
Definition text_line : Type := nat * string.

(** Two blanks of indentation for each level of nesting. *)
Definition render_line (l : text_line) : string :=
  (blanks (2 * fst l) ++ snd l)%string.

(** The lines are separated by a line feed alone. *)
Definition render_lines (ls : list text_line) : string :=
  String.concat (String newline EmptyString) (map render_line ls).

(** The text of a value that is not a container. *)
Definition scalar_text {Float : Type} (float_repr : Float -> string)
  (j : json Float) : option string :=
  match j with
  | JNull => Some "null"
  | JBool b => Some (if b then "true" else "false")
  | JInt z => Some (int_repr z)
  | JFloat f => Some (float_repr f)
  | JStr s => Some (encode_basestring_ascii s)
  | JList _ | JDict _ => None
  end.

(** A key in front of its value. *)
Definition key_text (k : string) : string :=
  (encode_basestring_ascii k ++ ": ")%string.

(** Keys sorted: no member stands before one with a smaller key. *)
Definition ascending {V : Type} (members : list (string * V)) : Prop :=
  StronglySorted (fun a b => String.ltb (fst b) (fst a) = false) members.

(** [canonical d before j after ls]: the lines [ls] are the canonical
    text of [j] at depth [d], with [before] in front of its first line and
    [after] behind its last.  A scalar and an empty container take one
    line.  Another container opens on the line of [before], closes on a
    line of its own at its depth, and holds in between, one level
    deeper, its items in their order, or its members in ascending order
    of the keys, each but the last followed by a comma. *)
Inductive canonical {Float : Type} (float_repr : Float -> string)
  : nat -> string -> json Float -> string -> list text_line -> Prop :=
| cn_scalar d before j t after :
    scalar_text float_repr j = Some t ->
    canonical float_repr d before j after [(d, before ++ t ++ after)%string]
| cn_empty_list d before after :
    canonical float_repr d before (JList []) after
      [(d, before ++ "[]" ++ after)%string]
| cn_empty_dict d before after :
    canonical float_repr d before (JDict []) after
      [(d, before ++ "{}" ++ after)%string]
| cn_list d before items after ls :
    canonical_items float_repr (S d) items ls ->
    canonical float_repr d before (JList items) after
      ((d, before ++ "[")%string :: ls ++ [(d, "]" ++ after)%string])
| cn_dict d before members sorted after ls :
    Permutation members sorted -> ascending sorted ->
    canonical_members float_repr (S d) sorted ls ->
    canonical float_repr d before (JDict members) after
      ((d, before ++ "{")%string :: ls ++ [(d, "}" ++ after)%string])
with canonical_items {Float : Type} (float_repr : Float -> string)
  : nat -> list (json Float) -> list text_line -> Prop :=
| ci_last d j ls :
    canonical float_repr d "" j "" ls ->
    canonical_items float_repr d [j] ls
| ci_more d j items ls ls' :
    canonical float_repr d "" j "," ls ->
    canonical_items float_repr d items ls' ->
    canonical_items float_repr d (j :: items) (ls ++ ls')
with canonical_members {Float : Type} (float_repr : Float -> string)
  : nat -> list (string * json Float) -> list text_line -> Prop :=
| cm_last d k j ls :
    canonical float_repr d (key_text k) j "" ls ->
    canonical_members float_repr d [(k, j)] ls
| cm_more d k j members ls ls' :
    canonical float_repr d (key_text k) j "," ls ->
    canonical_members float_repr d members ls' ->
    canonical_members float_repr d ((k, j) :: members) (ls ++ ls').

(** The order of [sorted(dct.items())] on the members themselves. *)
Definition member_lt {V : Type} (a b : string * V) : result bool :=
  Ok (String.ltb (fst a) (fst b)).

(** The encoder lays the document out in canonical lines, wherever it
    stands. *)
Definition laid_out {Float : Type} (float_repr : Float -> string)
  (j : json Float) : Prop :=
  forall (d : nat) (before after : string),
    exists ls,
      canonical float_repr d before j after ls
      /\ ls <> []
      /\ render_lines ls
         = (blanks (2 * d) ++ before ++ encode float_repr d j ++ after)%string.

(** The one float of the samples is 0.0: it prints as "0.0", equals
    itself and equals the int 0. *)
Definition sample_float_eq (f g : unit) : bool := true.
Definition sample_float_eq_int (f : unit) (z : Z) : bool := z =? 0.

(** Two bodies that Python parses to equal documents, [[1, 0]] and
    [[True, 0.0]]. *)
Definition response_ints : Response unit :=
  {| status_ok := true; text := "[1, 0]";
     json_body := Ok (JList [JInt 1; JInt 0]) |}.

Definition response_mixed : Response unit :=
  {| status_ok := true; text := "[true, 0.0]";
     json_body := Ok (JList [JBool true; JFloat tt]) |}.

(** ** [cjdk._index]: the download URL *)

(** [d[k]]: a missing key raises [KeyError] with the key. *)
Definition subscript {V : Type} (d : list (string * V)) (k : string)
  : result V :=
  match dict_get String.eqb k d with
  | Some v => Ok v
  | None => Raise (KeyError k)
  end.

Definition jdk_url (index : index_dict) (conf : Configuration)
  : result string :=
  matched <- resolve_jdk_version index conf ;;
  arches <- subscript index (os conf) ;;
  jdks <- subscript arches (arch conf) ;;
  versions <- subscript jdks ("jdk@" ++ vendor conf)%string ;;
  subscript versions matched.

(** Whether the first loop of [_match_version] keeps the candidate. *)
Definition normalizes (remove_prefix_1 : bool) (candidate : string) : bool :=
  match _normalize_version candidate remove_prefix_1 with
  | Ok _ => true
  | Raise _ => false
  end.

(** ** Versions written from their components *)

(** The value of the digits [d] read after the value [acc]. *)
Fixpoint dec_val (d : Decimal.uint) (acc : Z) : Z :=
  match d with
  | Decimal.Nil => acc
  | Decimal.D0 l => dec_val l (10 * acc + 0)
  | Decimal.D1 l => dec_val l (10 * acc + 1)
  | Decimal.D2 l => dec_val l (10 * acc + 2)
  | Decimal.D3 l => dec_val l (10 * acc + 3)
  | Decimal.D4 l => dec_val l (10 * acc + 4)
  | Decimal.D5 l => dec_val l (10 * acc + 5)
  | Decimal.D6 l => dec_val l (10 * acc + 6)
  | Decimal.D7 l => dec_val l (10 * acc + 7)
  | Decimal.D8 l => dec_val l (10 * acc + 8)
  | Decimal.D9 l => dec_val l (10 * acc + 9)
  end.

(** The number of characters in which [str] prints an integer: for a
    non-negative one, the number of its decimal digits. *)
Definition str_digits (z : Z) : Z := Z.of_nat (String.length (int_repr z)).

(** A tuple of integers written as a version: the decimal numbers, as
    [str] prints them, joined by dots. *)
Definition render_version (x : Z) (rest : list Z) : string :=
  join_seps (int_repr x) (map (fun z => ("."%char, int_repr z)) rest).

Definition plain_char (c : ascii) : bool :=
  is_digit c || is_sep c.

(** * Properties *)

(** ** Keys and tuples *)

Lemma elem_eqb_eq (x y : elem) : elem_eqb x y = true <-> x = y.
Proof.
  destruct x, y; simpl; split; intro H; try discriminate; try reflexivity.
  - apply Z.eqb_eq in H. now subst.
  - inversion H. apply Z.eqb_refl.
Qed.

Lemma elem_eqb_refl (x : elem) : elem_eqb x x = true.
Proof. now apply elem_eqb_eq. Qed.

Lemma tuple_eqb_eq (a b : key) : tuple_eqb a b = true <-> a = b.
Proof.
  revert b. induction a as [|x a IH]; intros [|y b]; simpl;
    split; intro H; try discriminate; try reflexivity.
  - apply andb_true_iff in H as [H1 H2].
    apply elem_eqb_eq in H1. apply IH in H2. now subst.
  - inversion H; subst. rewrite elem_eqb_refl. now apply IH.
Qed.

Lemma tuple_eqb_refl (a : key) : tuple_eqb a a = true.
Proof. now apply tuple_eqb_eq. Qed.

Lemma tuple_eqb_ints (a b : list Z) :
  tuple_eqb (map EInt a) (map EInt b) = true <-> a = b.
Proof.
  rewrite tuple_eqb_eq. split; intro H; [|now subst].
  revert b H. induction a as [|x a IH]; intros [|y b] H; simpl in H;
    try discriminate; try reflexivity.
  inversion H. f_equal. now apply IH.
Qed.

Lemma no_plus_in_ints (v : list Z) :
  existsb (elem_eqb EPlus) (map EInt v) = false.
Proof. induction v; simpl; auto. Qed.

Lemma last_ints (s : list Z) (d : Z) :
  last (map EInt s) (EInt d) = EInt (last s d).
Proof.
  induction s as [|x s IH]; simpl; auto.
  destruct s; simpl in *; auto.
Qed.

Lemma removelast_ints (s : list Z) :
  removelast (map EInt s) = map EInt (removelast s).
Proof.
  induction s as [|x s IH]; simpl; auto.
  destruct s; simpl in *; auto. now rewrite IH.
Qed.

Lemma nth_ints (n : nat) (v : list Z) (d : Z) :
  nth n (map EInt v) (EInt d) = EInt (nth n v d).
Proof. apply (map_nth EInt). Qed.

Lemma firstn_ints (n : nat) (v : list Z) :
  firstn n (map EInt v) = map EInt (firstn n v).
Proof. apply firstn_map. Qed.

Lemma spec_key_plus_last (s : list Z) (d : elem) :
  last (spec_key s true) d = EPlus.
Proof. unfold spec_key. apply last_last. Qed.

Lemma spec_key_plus_removelast (s : list Z) :
  removelast (spec_key s true) = map EInt s.
Proof. unfold spec_key. apply removelast_last. Qed.

Lemma spec_key_closed (s : list Z) : spec_key s false = map EInt s.
Proof. unfold spec_key. apply app_nil_r. Qed.

Lemma tuple_eqb_ints_dec (a b : list Z) :
  tuple_eqb (map EInt a) (map EInt b)
  = if list_eq_dec Z.eq_dec a b then true else false.
Proof.
  destruct (list_eq_dec Z.eq_dec a b) as [E|E].
  - now apply tuple_eqb_ints.
  - apply not_true_is_false. intro H. now apply tuple_eqb_ints in H.
Qed.

Lemma compatible_code_ints (v s : list Z) (open_ended : bool) :
  _is_version_compatible_with_spec (map EInt v) (spec_key s open_ended)
  = Ok (compatible_ints v s open_ended).
Proof.
  unfold _is_version_compatible_with_spec, compatible_ints.
  rewrite no_plus_in_ints.
  destruct open_ended.
  - assert (Hne : spec_key s true <> []).
    { unfold spec_key. destruct s; discriminate. }
    destruct (spec_key s true) as [|e k] eqn:Hk; [contradiction|].
    rewrite <- Hk. rewrite spec_key_plus_last. simpl elem_eqb. cbv iota.
    rewrite spec_key_plus_removelast.
    destruct s as [|x s]; [reflexivity|].
    remember (x :: s) as s' eqn:Hs'.
    assert (Hm : map EInt s' <> []) by (subst; discriminate).
    destruct (map EInt s') as [|e' k'] eqn:Hm'; [contradiction|].
    rewrite <- Hm'. rewrite !length_map.
    rewrite firstn_ints, removelast_ints, tuple_eqb_ints_dec.
    rewrite nth_ints, last_ints. simpl elem_ge.
    destruct (List.length s' <=? List.length v)%nat; simpl; auto.
    destruct (list_eq_dec Z.eq_dec _ _); simpl; auto.
  - rewrite spec_key_closed.
    assert (Hl : match map EInt s with
                 | [] => false
                 | _ => elem_eqb (last (map EInt s) (EInt 0)) EPlus
                 end = false).
    { destruct s as [|x s]; [reflexivity|].
      change (map EInt (x :: s)) with (EInt x :: map EInt s) at 1.
      cbv iota. now rewrite last_ints. }
    rewrite Hl. rewrite !length_map, firstn_ints, tuple_eqb_ints_dec.
    reflexivity.
Qed.

Lemma compatible_ints_spec (v s : list Z) (open_ended : bool) :
  compatible_ints v s open_ended = true <-> spec_compatible v s open_ended.
Proof.
  unfold compatible_ints, spec_compatible. destruct open_ended.
  - destruct s as [|x s].
    + split; auto.
    + remember (x :: s) as s'.
      rewrite !andb_true_iff, Nat.leb_le, Z.geb_le.
      destruct (list_eq_dec Z.eq_dec _ _) as [E|E]; split.
      * intros [[H1 _] H3]. right. repeat split; auto. lia.
      * intros [H|[H1 [H2 H3]]]; [subst; discriminate|].
        repeat split; auto. lia.
      * intros [[_ H] _]. discriminate.
      * intros [H|[H1 [H2 H3]]]; [subst; discriminate|contradiction].
  - rewrite andb_true_iff, Nat.leb_le.
    destruct (list_eq_dec Z.eq_dec _ _) as [E|E]; split; intros [H1 H2];
      auto; try discriminate; contradiction.
Qed.

(** ** Normalization *)










Lemma normalize_by_parts (ver : string) (f : bool) :
  key_of (_normalize_version ver f)
  = normalize_parts (str_nonempty (version_body ver))
      (endswith_char ver "+") (re_split (version_body ver)) f.
Proof.
  unfold _normalize_version, normalize_parts, version_body.
  destruct (endswith_char ver "+");
    match goal with
    | |- context [str_nonempty ?b] => destruct (str_nonempty b)
    end; simpl;
    try match goal with
    | |- context [ints_of ?p] => destruct (ints_of p) as [[|n0 norm1]|]
    end; simpl; try reflexivity;
    destruct (f && elem_eqb n0 (EInt 1)); reflexivity.
Qed.


Lemma normalize_only_ValueError (ver : string) (f : bool) (e : exn) :
  _normalize_version ver f = Raise e ->
  e = ValueError ("Invalid version string: " ++ version_body ver)%string.
Proof.
  unfold _normalize_version. fold (version_body ver).
  destruct (str_nonempty (version_body ver)); simpl.
  - destruct (ints_of _) as [[|n0 norm1]|]; simpl; try discriminate.
    + destruct (f && elem_eqb n0 (EInt 1)); discriminate.
    + intro H. now inversion H.
  - discriminate.
Qed.

(** *** Keys are tuples of non-negative integers *)

Lemma re_split_no_sep (s : string) :
  Forall (fun c => str_forall not_sep c = true) (re_split s).
Proof.
  induction s as [|a s IH]; simpl.
  - repeat constructor.
  - destruct (is_sep a) eqn:Ha.
    + constructor; auto.
    + destruct (re_split s) as [|h t]; inversion IH; subst;
        constructor; auto; simpl; unfold not_sep at 1; now rewrite Ha.
Qed.

Lemma skip_space_forall (p : ascii -> bool) (s : string) :
  str_forall p s = true -> str_forall p (skip_space s) = true.
Proof.
  induction s as [|a s IH]; simpl; auto.
  intro H. apply andb_true_iff in H as [H1 H2].
  destruct (is_space a); simpl; auto. now rewrite H1, H2.
Qed.

Lemma digit_value_nonneg (c : ascii) : is_digit c = true -> 0 <= digit_value c.
Proof.
  unfold is_digit, digit_value. intro H.
  apply andb_true_iff in H as [H _]. apply Nat.leb_le in H. lia.
Qed.

Lemma long_digits_nonneg (s : string) (u : bool) (acc v : Z) (rest : string) :
  0 <= acc -> long_digits s u acc = Some (v, rest) -> 0 <= v.
Proof.
  revert u acc. induction s as [|c s IH]; intros u acc Hacc;
    cbn [long_digits].
  - destruct u; intro H; inversion H; now subst.
  - destruct (is_digit c) eqn:Hd.
    + intro H. eapply IH; [|exact H].
      pose proof (digit_value_nonneg c Hd). lia.
    + destruct (Ascii.eqb c "_").
      * destruct u; [discriminate|]. intro H. eapply IH; [|exact H]. lia.
      * destruct u; intro H; inversion H; now subst.
Qed.

Lemma py_int_nonneg (c : string) (z : Z) :
  str_forall not_sep c = true -> py_int c = Some z -> 0 <= z.
Proof.
  intros Hc. apply (skip_space_forall not_sep) in Hc.
  unfold py_int. destruct (skip_space c) as [|a s1]; [discriminate|].
  assert (Ha : Ascii.eqb a "-" = false).
  { simpl in Hc. apply andb_true_iff in Hc as [Hc _].
    unfold not_sep, is_sep in Hc. apply negb_true_iff in Hc.
    now apply orb_false_iff in Hc as [_ Hc]. }
  assert (Hpos : forall s2, long_value false s2 = Some z -> 0 <= z).
  { intros [|d s2]; [discriminate|]. unfold long_value.
    destruct (is_digit d); [|discriminate].
    destruct (long_digits _ false 0) as [[v rest]|] eqn:E; [|discriminate].
    destruct (_ <? _); [discriminate|].
    destruct (str_nonempty _); [discriminate|].
    intro H; inversion H; subst.
    eapply long_digits_nonneg; [|exact E]. lia. }
  destruct (Ascii.eqb a "+") eqn:Hp.
  - apply Ascii.eqb_eq in Hp; subst a. apply Hpos.
  - destruct a as [b0 b1 b2 b3 b4 b5 b6 b7].
    destruct b0, b1, b2, b3, b4, b5, b6, b7; try discriminate;
      apply (Hpos (String _ s1)).
Qed.

Lemma ints_of_shape (parts : list string) (k : key) :
  Forall (fun c => str_forall not_sep c = true) parts ->
  ints_of parts = Some k ->
  exists s, k = map EInt s /\ Forall (fun z => 0 <= z) s.
Proof.
  intro Hall. revert k. induction Hall as [|p parts Hp _ IH]; intro k; simpl.
  - intro H; inversion H. exists []. auto.
  - destruct (py_int p) as [z|] eqn:Hz; [|discriminate].
    destruct (ints_of parts) as [k'|]; [|discriminate].
    intro H; inversion H; subst.
    destruct (IH k' eq_refl) as [s [-> Hs]].
    exists (z :: s). split; auto. constructor; auto.
    eapply py_int_nonneg; eauto.
Qed.

Lemma normalize_shape (ver : string) (f : bool) (k : key) :
  _normalize_version ver f = Ok k ->
  exists s, k = spec_key s (endswith_char ver "+")
            /\ Forall (fun z => 0 <= z) s.
Proof.
  intro H. pose proof (normalize_by_parts ver f) as Hp.
  rewrite H in Hp. simpl in Hp. symmetry in Hp.
  unfold normalize_parts in Hp.
  assert (Hn : exists s, (if str_nonempty (version_body ver)
                          then ints_of (re_split (version_body ver))
                          else Some []) = Some (map EInt s)
                         /\ Forall (fun z => 0 <= z) s).
  { destruct (str_nonempty _).
    - destruct (ints_of _) as [n|] eqn:E; [|discriminate].
      destruct (ints_of_shape _ _ (re_split_no_sep _) E) as [s [-> Hs]].
      eauto.
    - exists []. auto. }
  destruct Hn as [s [Hn Hs]]. rewrite Hn in Hp.
  unfold spec_key.
  destruct s as [|z s]; simpl in Hp.
  - inversion Hp. exists []. auto.
  - destruct (f && (z =? 1)); inversion Hp.
    + exists s. split; auto. now inversion Hs.
    + exists (z :: s). auto.
Qed.

Lemma re_split_plain (c : string) :
  str_forall not_sep c = true -> re_split c = [c].
Proof.
  induction c as [|a c IH]; simpl; auto.
  intro H. apply andb_true_iff in H as [Ha Hc].
  unfold not_sep in Ha. apply negb_true_iff in Ha.
  now rewrite Ha, IH.
Qed.

Lemma re_split_app (c s : string) (sep : ascii) :
  str_forall not_sep c = true -> is_sep sep = true ->
  re_split (c ++ String sep s)%string = c :: re_split s.
Proof.
  intros Hc Hs. induction c as [|a c IH]; simpl.
  - now rewrite Hs.
  - simpl in Hc. apply andb_true_iff in Hc as [Ha Hc].
    unfold not_sep in Ha. apply negb_true_iff in Ha.
    now rewrite Ha, IH.
Qed.

Lemma re_split_join (c : string) (rest : list (ascii * string)) :
  str_forall not_sep c = true ->
  Forall (fun p => is_sep (fst p) = true
                   /\ str_forall not_sep (snd p) = true) rest ->
  re_split (join_seps c rest) = c :: map snd rest.
Proof.
  intros Hc Hall. revert c Hc.
  induction Hall as [|[a c'] rest [Ha Hc'] _ IH]; intros c Hc; simpl in *.
  - now apply re_split_plain.
  - rewrite re_split_app; auto. now rewrite IH.
Qed.

(** ** Statements about normalization and the compatibility test *)

(** C2.  On every candidate key (a tuple of integers) and every normalized
    spec key the compatibility test returns, without raising, the truth
    value of the specification's rule: without the marker, the candidate
    has at least as many components as the spec and starts with them;
    with a bare marker, always true; with the marker otherwise, the
    candidate is at least as long as the spec's integers, agrees on all
    but the last of them, and is not below the spec at that last
    position.  Every key that normalization returns has the form the rule
    speaks of, with non-negative integers.  So "11" accepts "11.0.1" and
    "11.0" rejects the candidate "11". *)
Theorem C2_compatibility_rule :
  (forall (v s : list Z) (open_ended : bool),
      exists b : bool,
        _is_version_compatible_with_spec (map EInt v) (spec_key s open_ended)
        = Ok b
        /\ (b = true <-> spec_compatible v s open_ended))
  /\ (forall v : list Z,
         _is_version_compatible_with_spec (map EInt v) (spec_key [] true)
         = Ok true)
  /\ (forall (ver : string) (f : bool),
         match _normalize_version ver f with
         | Ok k => exists s open_ended,
                     k = spec_key s open_ended /\ Forall (fun z => 0 <= z) s
         | Raise _ => True
         end)
  /\ (vc <- _normalize_version "11.0.1" false ;;
      vs <- _normalize_version "11" false ;;
      _is_version_compatible_with_spec vc vs) = Ok true
  /\ (vc <- _normalize_version "11" false ;;
      vs <- _normalize_version "11.0" false ;;
      _is_version_compatible_with_spec vc vs) = Ok false.
Proof.
  split; [|split; [|split; [|split]]].
  - intros v s oe. exists (compatible_ints v s oe). split.
    + apply compatible_code_ints.
    + apply compatible_ints_spec.
  - intro v. now rewrite compatible_code_ints.
  - intros ver f. destruct (_normalize_version ver f) as [k|e] eqn:E; auto.
    destruct (normalize_shape _ _ _ E) as [s [Hk Hs]]. eauto.
  - vm_compute. reflexivity.
  - vm_compute. reflexivity.
Qed.

(** ** What [int] accepts *)

Lemma str_forall_app (p : ascii -> bool) (a b : string) :
  str_forall p (a ++ b) = str_forall p a && str_forall p b.
Proof.
  induction a as [|c a IH]; simpl; auto. now rewrite IH, andb_assoc.
Qed.

Lemma str_forall_impl (p q : ascii -> bool) (s : string) :
  (forall c, p c = true -> q c = true) ->
  str_forall p s = true -> str_forall q s = true.
Proof.
  intro H. induction s as [|c s IH]; simpl; auto.
  intro Hs. apply andb_true_iff in Hs as [H1 H2].
  now rewrite (H _ H1), IH.
Qed.

Lemma is_digit_not_sep (c : ascii) : is_digit c = true -> not_sep c = true.
Proof.
  destruct c as [b0 b1 b2 b3 b4 b5 b6 b7].
  destruct b0, b1, b2, b3, b4, b5, b6, b7; try discriminate; reflexivity.
Qed.

Lemma is_digit_plain (c : ascii) : is_digit c = true -> plain_char c = true.
Proof. unfold plain_char. now intros ->. Qed.

Lemma plain_not_plus (s : string) :
  str_forall plain_char s = true -> endswith_char s "+" = false.
Proof.
  induction s as [|c s IH]; simpl; auto.
  intro H. apply andb_true_iff in H as [Hc Hs].
  destruct s as [|c' s]; [|now apply IH].
  destruct c as [b0 b1 b2 b3 b4 b5 b6 b7].
  destruct b0, b1, b2, b3, b4, b5, b6, b7; try discriminate; reflexivity.
Qed.

Lemma py_int_first_digit (c : ascii) (s : string) :
  is_digit c = true -> py_int (String c s) = long_value false (String c s).
Proof.
  intro Hc. unfold py_int. cbn [skip_space].
  destruct c as [b0 b1 b2 b3 b4 b5 b6 b7].
  destruct b0, b1, b2, b3, b4, b5, b6, b7; try discriminate; reflexivity.
Qed.

Lemma digit_count_digits (s : string) :
  str_forall is_digit s = true -> digit_count s = Z.of_nat (String.length s).
Proof.
  induction s as [|c s IH]; [reflexivity|].
  cbn [str_forall digit_count String.length]. intro H.
  apply andb_true_iff in H as [Hc Hs]. rewrite Hc, (IH Hs). lia.
Qed.

Lemma long_digits_digit (c : ascii) (s : string) (u : bool) (acc : Z) :
  is_digit c = true ->
  long_digits (String c s) u acc
  = long_digits s false (10 * acc + digit_value c).
Proof. intro H. cbn [long_digits]. now rewrite H. Qed.






Lemma digit_not_sign (c : ascii) :
  is_digit c = true ->
  is_space c = false /\ Ascii.eqb c "_" = false
  /\ Ascii.eqb c "+" = false /\ Ascii.eqb c "-" = false.
Proof.
  destruct c as [b0 b1 b2 b3 b4 b5 b6 b7].
  destruct b0, b1, b2, b3, b4, b5, b6, b7; try discriminate; auto.
Qed.













Lemma str_app_empty (s : string) : (s ++ "")%string = s.
Proof. induction s as [|c s IH]; cbn [append]; congruence. Qed.











(** ** The vendor test and the leading 1 *)

Lemma prefix_app (p s : string) :
  String.prefix p s = true <-> exists b, s = (p ++ b)%string.
Proof.
  revert s. induction p as [|c p IH]; intros s.
  - destruct s; simpl; split; eauto.
  - destruct s as [|d s]; simpl.
    + split; [discriminate|]. intros [b H]. discriminate.
    + destruct (ascii_dec c d) as [->|Hn].
      * rewrite IH. split; intros [b H]; exists b.
        -- now subst.
        -- now inversion H.
      * split; [discriminate|]. intros [b H]. inversion H. congruence.
Qed.

Lemma str_contains_app (sub s : string) :
  str_contains sub s = true <-> exists a b, s = (a ++ sub ++ b)%string.
Proof.
  induction s as [|c s IH]; cbn [str_contains].
  - destruct (String.prefix sub "") eqn:E.
    + split; auto. intros _. apply prefix_app in E as [b E].
      exists "", b. exact E.
    + split; [discriminate|]. intros [a [b H]].
      destruct a; simpl in H.
      * assert (String.prefix sub "" = true) by (apply prefix_app; eauto).
        congruence.
      * discriminate.
  - destruct (String.prefix sub (String c s)) eqn:E.
    + split; auto. intros _. apply prefix_app in E as [b E].
      exists "", b. exact E.
    + rewrite IH. split.
      * intros [a [b H]]. exists (String c a), b. simpl. now rewrite H.
      * intros [a [b H]]. destruct a as [|c' a]; simpl in H.
        -- assert (String.prefix sub (String c s) = true)
             by (apply prefix_app; eauto).
           congruence.
        -- inversion H. eauto.
Qed.

Lemma lower_app (a b : string) :
  lower (a ++ b) = (lower a ++ lower b)%string.
Proof. induction a; simpl; auto. now rewrite IHa. Qed.

Lemma lower_split (s a' b' : string) :
  lower s = (a' ++ b')%string ->
  exists a b, s = (a ++ b)%string /\ lower a = a' /\ lower b = b'.
Proof.
  revert s. induction a' as [|c a' IH]; intros s H; simpl in H.
  - exists "", s. auto.
  - destruct s as [|d s]; simpl in H; [discriminate|].
    inversion H as [[Hc Hs]]. destruct (IH _ Hs) as [a [b [-> [Ha Hb]]]].
    exists (String d a), b. simpl. now rewrite Ha, Hb.
Qed.

Lemma is_graal_contains (vendor : string) :
  is_graal vendor = true <-> contains_graalvm vendor.
Proof.
  unfold is_graal, contains_graalvm. rewrite str_contains_app. split.
  - intros [a' [b' H]].
    destruct (lower_split _ _ _ H) as [a [r [-> [Ha Hr]]]].
    destruct (lower_split _ _ _ Hr) as [m [b [-> [Hm Hb]]]].
    exists a, m, b. auto.
  - intros [a [m [b [-> Hm]]]].
    exists (lower a), (lower b). now rewrite !lower_app, Hm.
Qed.

Lemma normalize_remove_prefix_1 (ver : string) :
  key_of (_normalize_version ver true)
  = option_map drop_prefix_1 (key_of (_normalize_version ver false)).
Proof.
  rewrite !normalize_by_parts. unfold normalize_parts.
  destruct (if str_nonempty (version_body ver) then _ else _)
    as [[|n0 norm1]|]; simpl; auto.
  - destruct (endswith_char ver "+"); reflexivity.
  - destruct n0 as [z|]; simpl; auto.
    destruct (z =? 1) eqn:E; simpl.
    + apply Z.eqb_eq in E. now subst.
    + destruct z as [|[p|p|]|]; try reflexivity. discriminate.
Qed.

Lemma match_single_candidate (vendor c req : string) (k : key) :
  _normalize_version c (negb (is_graal vendor)) = Ok k ->
  _match_version vendor [c] req
  = (normreq <- _normalize_version req (negb (is_graal vendor)) ;;
     ok <- _is_version_compatible_with_spec k normreq ;;
     if ok then Ok c
     else above <- tuple_gt k normreq ;;
          Raise (LookupError (no_match_msg vendor req))).
Proof.
  intro Hk. unfold _match_version.
  destruct (_normalize_version req _) as [normreq|e]; [|reflexivity].
  cbn [bind collect_normcands]. rewrite Hk.
  cbn [collect_normcands fst dict_set dict_keys map py_sorted all_comparable
         forallb andb rev app stable_sort fold_left insert bind
         scan_normcands dict_get].
  rewrite tuple_eqb_refl.
  destruct (_is_version_compatible_with_spec k normreq) as [[|]|];
    cbn [bind]; auto.
  destruct (tuple_gt k normreq) as [[|]|]; reflexivity.
Qed.

(** C3.  The vendor test of the code is the case-insensitive containment
    of "graalvm".  For a vendor that fails it, normalization takes a
    leading component equal to 1 off every key, for the request and for
    the candidates alike: "1.8.0" and "8.0" get the key (8, 0) and are
    matched by the same requests, the request "8" finds a candidate
    "1.8.0", and the request "1.8" finds a candidate "8.0.1".  For a
    vendor that passes it the leading 1 stays: "1.8.0" and "8.0" get
    different keys, and the request "8" finds "8.0" but not "1.8.0". *)
Theorem C3_prefix_1_by_vendor :
  (forall vendor : string, is_graal vendor = true <-> contains_graalvm vendor)
  /\ (forall vendor : string,
         ~ contains_graalvm vendor ->
         (forall ver : string,
             key_of (_normalize_version ver (negb (is_graal vendor)))
             = option_map drop_prefix_1 (key_of (_normalize_version ver false)))
         /\ _normalize_version "1.8.0" (negb (is_graal vendor))
            = Ok [EInt 8; EInt 0]
         /\ _normalize_version "8.0" (negb (is_graal vendor))
            = Ok [EInt 8; EInt 0]
         /\ (forall req : string,
                _match_version vendor ["1.8.0"] req = Ok "1.8.0"
                <-> _match_version vendor ["8.0"] req = Ok "8.0")
         /\ _match_version vendor ["1.8.0"] "8" = Ok "1.8.0"
         /\ _match_version vendor ["8.0.1"] "1.8" = Ok "8.0.1")
  /\ (forall vendor : string,
         contains_graalvm vendor ->
         (forall ver : string,
             _normalize_version ver (negb (is_graal vendor))
             = _normalize_version ver false)
         /\ _normalize_version "1.8.0" (negb (is_graal vendor))
            = Ok [EInt 1; EInt 8; EInt 0]
         /\ _normalize_version "8.0" (negb (is_graal vendor))
            = Ok [EInt 8; EInt 0]
         /\ _match_version vendor ["8.0"] "8" = Ok "8.0"
         /\ _match_version vendor ["1.8.0"] "8"
            = Raise (LookupError (no_match_msg vendor "8"))).
Proof.
  split; [apply is_graal_contains|split].
  - intros vendor Hv.
    assert (Hg : is_graal vendor = false).
    { apply not_true_is_false. intro H. now apply is_graal_contains in H. }
    assert (H1 : _normalize_version "1.8.0" (negb (is_graal vendor))
                 = Ok [EInt 8; EInt 0]) by (now rewrite Hg).
    assert (H2 : _normalize_version "8.0" (negb (is_graal vendor))
                 = Ok [EInt 8; EInt 0]) by (now rewrite Hg).
    repeat split; auto.
    + rewrite Hg. apply normalize_remove_prefix_1.
    + rewrite (match_single_candidate _ _ _ _ H1),
        (match_single_candidate _ _ _ _ H2).
      destruct (_normalize_version req _) as [nr|]; cbn [bind];
        [|discriminate].
      destruct (_is_version_compatible_with_spec _ nr) as [[|]|]; cbn [bind];
        auto; try discriminate.
      destruct (tuple_gt _ nr) as [[|]|]; cbn [bind]; discriminate.
    + rewrite (match_single_candidate _ _ _ _ H1),
        (match_single_candidate _ _ _ _ H2).
      destruct (_normalize_version req _) as [nr|]; cbn [bind];
        [|discriminate].
      destruct (_is_version_compatible_with_spec _ nr) as [[|]|]; cbn [bind];
        auto; try discriminate.
      destruct (tuple_gt _ nr) as [[|]|]; cbn [bind]; discriminate.
    + rewrite (match_single_candidate _ _ _ _ H1). now rewrite Hg.
    + assert (H3 : _normalize_version "8.0.1" (negb (is_graal vendor))
                   = Ok [EInt 8; EInt 0; EInt 1]) by (now rewrite Hg).
      rewrite (match_single_candidate _ _ _ _ H3). now rewrite Hg.
  - intros vendor Hv. apply is_graal_contains in Hv as Hg.
    assert (H1 : _normalize_version "1.8.0" (negb (is_graal vendor))
                 = Ok [EInt 1; EInt 8; EInt 0]) by (now rewrite Hg).
    assert (H2 : _normalize_version "8.0" (negb (is_graal vendor))
                 = Ok [EInt 8; EInt 0]) by (now rewrite Hg).
    repeat split; auto.
    + intro ver. now rewrite Hg.
    + rewrite (match_single_candidate _ _ _ _ H2). now rewrite Hg.
    + rewrite (match_single_candidate _ _ _ _ H1). now rewrite Hg.
Qed.

Lemma C3_prefix_1_by_vendor_witness :
  (_match_version "temurin" ["1.8.0"] "8" = Ok "1.8.0"
   /\ _match_version "temurin" ["8.0.1"] "1.8" = Ok "8.0.1")
  /\ _match_version "GraalVM-java17" ["1.8.0"] "8"
     = Raise (LookupError (no_match_msg "GraalVM-java17" "8")).
Proof.
  destruct C3_prefix_1_by_vendor as [Hiff [Hstd Hgraal]].
  split.
  - assert (Hv : ~ contains_graalvm "temurin").
    { intro H. apply Hiff in H. vm_compute in H. discriminate. }
    destruct (Hstd "temurin" Hv) as [_ [_ [_ [_ [H5 H6]]]]]. auto.
  - assert (Hv : contains_graalvm "GraalVM-java17").
    { exists "", "GraalVM", "-java17". split; reflexivity. }
    destruct (Hgraal "GraalVM-java17" Hv) as [_ [_ [_ [_ H5]]]]. exact H5.
Defined.

(** C10.  A candidate that ends in "+" and is numeric otherwise is
    accepted by normalization with a key that carries the marker; no
    warning is issued for it, it reaches the compatibility test, and the
    assertion at the head of the test fails.  Beside another candidate it
    already stops the sort of the keys. *)
Theorem C10_plus_candidate_breaks_assertion :
  _normalize_version "11+" true = Ok [EInt 11; EPlus]
  /\ _match_version_warnings "temurin" ["11+"] "11" = []
  /\ _is_version_compatible_with_spec [EInt 11; EPlus] [EInt 11]
     = Raise AssertionError
  /\ _match_version "temurin" ["11+"] "11" = Raise AssertionError
  /\ _match_version "temurin" ["11+"; "11.0.1"] "11" = Raise TypeError.
Proof. repeat split; vm_compute; reflexivity. Qed.

(** ** Sorting *)

Section SortFacts.
Context {A : Type}.
Variable ltb : A -> A -> bool.

Local Abbreviation lt := (fun x y : A => Ok (ltb x y)).

Lemma is_lt_total (x y : A) : is_lt lt x y = ltb x y.
Proof. reflexivity. Qed.

Lemma all_comparable_total (l : list A) : all_comparable lt l = true.
Proof.
  induction l as [|x l IH]; simpl; auto.
  rewrite IH, andb_true_r. apply forallb_forall. reflexivity.
Qed.

Lemma insert_perm (x : A) (l : list A) :
  Permutation (insert lt x l) (x :: l).
Proof.
  induction l as [|y l IH]; simpl; auto.
  destruct (is_lt lt x y); auto.
  rewrite IH. apply perm_swap.
Qed.

Lemma fold_insert_perm (l acc : list A) :
  Permutation (fold_left (fun acc x => insert lt x acc) l acc) (l ++ acc).
Proof.
  revert acc. induction l as [|x l IH]; intro acc; simpl; auto.
  rewrite IH, insert_perm. symmetry. apply Permutation_middle.
Qed.

Lemma stable_sort_perm (l : list A) : Permutation (stable_sort lt l) l.
Proof.
  unfold stable_sort. rewrite fold_insert_perm. now rewrite app_nil_r.
Qed.

Hypothesis ltb_irrefl : forall x, ltb x x = false.
Hypothesis ltb_trans :
  forall x y z, ltb x y = true -> ltb y z = true -> ltb x z = true.
Hypothesis ltb_weak :
  forall x y z, ltb x y = false -> ltb y z = false -> ltb x z = false.

Lemma ltb_asym (x y : A) : ltb x y = true -> ltb y x = false.
Proof.
  intro H. destruct (ltb y x) eqn:E; auto.
  rewrite <- (ltb_irrefl x). symmetry. eapply ltb_trans; eauto.
Qed.

Lemma insert_sorted (x : A) (l : list A) :
  StronglySorted (not_after ltb) l ->
  StronglySorted (not_after ltb) (insert lt x l).
Proof.
  induction 1 as [|y l Hs IH Hall]; simpl.
  - repeat constructor.
  - rewrite is_lt_total. destruct (ltb x y) eqn:E.
    + constructor; [now constructor|].
      constructor; [now apply ltb_asym|].
      eapply Forall_impl; [|exact Hall].
      intros z Hz. unfold not_after in *.
      eapply ltb_weak; eauto. now apply ltb_asym.
    + constructor; auto.
      eapply Permutation_Forall; [symmetry; apply insert_perm|].
      constructor; auto.
Qed.

Lemma fold_insert_sorted (l acc : list A) :
  StronglySorted (not_after ltb) acc ->
  StronglySorted (not_after ltb)
    (fold_left (fun acc x => insert lt x acc) l acc).
Proof.
  revert acc. induction l as [|x l IH]; intros acc H; simpl; auto.
  apply IH. now apply insert_sorted.
Qed.

Lemma stable_sort_sorted (l : list A) :
  StronglySorted (not_after ltb) (stable_sort lt l).
Proof. apply fold_insert_sorted. constructor. Qed.

Lemma StronglySorted_rev (R : A -> A -> Prop) (l : list A) :
  StronglySorted R l -> StronglySorted (fun x y => R y x) (rev l).
Proof.
  induction 1 as [|x l Hs IH Hall]; simpl; [constructor|].
  assert (H : forall l1 l2,
             StronglySorted (fun x y => R y x) l1 ->
             StronglySorted (fun x y => R y x) l2 ->
             (forall a b, In a l1 -> In b l2 -> R b a) ->
             StronglySorted (fun x y => R y x) (l1 ++ l2)).
  { induction l1 as [|a l1 IH1]; intros l2 H1 H2 H12; simpl; auto.
    inversion H1; subst. constructor.
    - apply IH1; auto. intros; apply H12; simpl; auto.
    - apply Forall_app. split; auto.
      apply Forall_forall. intros b Hb. apply H12; simpl; auto. }
  apply H; auto.
  - repeat constructor.
  - intros a b Ha [<-|[]]. apply in_rev in Ha.
    now apply (proj1 (Forall_forall _ _) Hall).
Qed.

(** Two arrangements of the same items in strictly ascending order
    coincide. *)
Lemma strictly_sorted_unique (l1 l2 : list A) :
  StronglySorted (fun x y => ltb x y = true) l1 ->
  StronglySorted (fun x y => ltb x y = true) l2 ->
  Permutation l1 l2 -> l1 = l2.
Proof.
  intros H1. revert l2. induction H1 as [|x l1 Hs1 IH Hall1]; intros l2 H2 Hp.
  - apply Permutation_nil in Hp. now subst.
  - destruct H2 as [|y l2 Hs2 Hall2].
    + symmetry in Hp. apply Permutation_nil in Hp. discriminate.
    + assert (Hxy : x = y).
      { assert (Hx : In x (y :: l2))
          by (eapply Permutation_in; [exact Hp|now left]).
        assert (Hy : In y (x :: l1))
          by (eapply Permutation_in; [symmetry; exact Hp|now left]).
        destruct Hx as [->|Hx]; auto. destruct Hy as [->|Hy]; auto.
        rewrite Forall_forall in Hall1, Hall2.
        pose proof (Hall1 _ Hy) as Ha. pose proof (Hall2 _ Hx) as Hb.
        apply ltb_asym in Ha. congruence. }
      subst y. f_equal. apply IH; auto.
      eapply Permutation_cons_inv; eauto.
Qed.
End SortFacts.

(** *** The order of strings and of pairs of strings *)

Lemma ascii_compare_refl (a : ascii) : Ascii.compare a a = Eq.
Proof. unfold Ascii.compare. apply N.compare_refl. Qed.

Lemma ascii_compare_lt_trans (a b c : ascii) :
  Ascii.compare a b = Lt -> Ascii.compare b c = Lt -> Ascii.compare a c = Lt.
Proof.
  unfold Ascii.compare. rewrite !N.compare_lt_iff. apply N.lt_trans.
Qed.

Lemma str_compare_refl (s : string) : String.compare s s = Eq.
Proof.
  induction s as [|a s IH]; simpl; auto. now rewrite ascii_compare_refl.
Qed.

Lemma str_compare_lt_trans (s1 s2 s3 : string) :
  String.compare s1 s2 = Lt -> String.compare s2 s3 = Lt ->
  String.compare s1 s3 = Lt.
Proof.
  revert s2 s3. induction s1 as [|a s1 IH]; intros [|b s2] [|c s3]; simpl;
    try discriminate; auto.
  destruct (Ascii.compare a b) eqn:Eab; try discriminate;
    destruct (Ascii.compare b c) eqn:Ebc; try discriminate; intros H1 H2.
  - apply Ascii.compare_eq_iff in Eab, Ebc. subst.
    rewrite ascii_compare_refl. eapply IH; eauto.
  - apply Ascii.compare_eq_iff in Eab. subst. now rewrite Ebc.
  - apply Ascii.compare_eq_iff in Ebc. subst. now rewrite Eab.
  - now rewrite (ascii_compare_lt_trans _ _ _ Eab Ebc).
Qed.

Lemma str_ltb_irrefl (s : string) : String.ltb s s = false.
Proof. unfold String.ltb. now rewrite str_compare_refl. Qed.

Lemma str_ltb_trans (s1 s2 s3 : string) :
  String.ltb s1 s2 = true -> String.ltb s2 s3 = true ->
  String.ltb s1 s3 = true.
Proof.
  unfold String.ltb.
  destruct (String.compare s1 s2) eqn:E1; try discriminate.
  destruct (String.compare s2 s3) eqn:E2; try discriminate.
  now rewrite (str_compare_lt_trans _ _ _ E1 E2).
Qed.

Lemma str_ltb_total (s1 s2 : string) :
  s1 = s2 \/ String.ltb s1 s2 = true \/ String.ltb s2 s1 = true.
Proof.
  unfold String.ltb. rewrite (String.compare_antisym s2 s1).
  destruct (String.compare s1 s2) eqn:E; simpl; auto.
  left. now apply String.compare_eq_iff.
Qed.

(** A strict order in which any two distinct items are ordered. *)
Section TotalOrder.
Context {A : Type}.
Variable ltb : A -> A -> bool.
Hypothesis ltb_irrefl : forall x, ltb x x = false.
Hypothesis ltb_trans :
  forall x y z, ltb x y = true -> ltb y z = true -> ltb x z = true.
Hypothesis ltb_total : forall x y, x = y \/ ltb x y = true \/ ltb y x = true.

Lemma total_weak (x y z : A) :
  ltb x y = false -> ltb y z = false -> ltb x z = false.
Proof.
  intros Hxy Hyz. destruct (ltb x z) eqn:Hxz; auto.
  destruct (ltb_total x y) as [->|[H|H]]; try congruence.
  assert (ltb y z = true) by (eapply ltb_trans; eauto). congruence.
Qed.
End TotalOrder.

Lemma pair_ltb_irrefl (a : string * string) : pair_ltb a a = false.
Proof.
  unfold pair_ltb. rewrite String.eqb_refl. apply str_ltb_irrefl.
Qed.

Lemma pair_ltb_trans (a b c : string * string) :
  pair_ltb a b = true -> pair_ltb b c = true -> pair_ltb a c = true.
Proof.
  unfold pair_ltb. destruct a as [a1 a2], b as [b1 b2], c as [c1 c2]; simpl.
  destruct (String.eqb_spec a1 b1) as [->|Hab];
    destruct (String.eqb_spec b1 c1) as [Ebc|Hbc]; intros H1 H2.
  - eapply str_ltb_trans; eauto.
  - exact H2.
  - subst b1. destruct (String.eqb_spec a1 c1); [contradiction|auto].
  - pose proof (str_ltb_trans _ _ _ H1 H2) as H.
    destruct (String.eqb_spec a1 c1) as [->|]; auto.
    now rewrite str_ltb_irrefl in H.
Qed.

Lemma pair_ltb_total (a b : string * string) :
  a = b \/ pair_ltb a b = true \/ pair_ltb b a = true.
Proof.
  unfold pair_ltb. destruct a as [a1 a2], b as [b1 b2]; simpl.
  destruct (String.eqb_spec a1 b1) as [->|Hab].
  - rewrite String.eqb_refl.
    destruct (str_ltb_total a2 b2) as [->|[H|H]]; auto.
  - destruct (String.eqb_spec b1 a1) as [->|_]; [contradiction|].
    destruct (str_ltb_total a1 b1) as [->|[H|H]]; auto; contradiction.
Qed.

Lemma pair_not_after_le (a b : string * string) :
  pair_ltb b a = false -> pair_le a b.
Proof.
  unfold pair_ltb, pair_le. destruct a as [a1 a2], b as [b1 b2]; simpl.
  destruct (String.eqb_spec b1 a1) as [->|Hab]; auto.
  intro H. destruct (str_ltb_total a1 b1) as [->|[H1|H1]]; auto; congruence.
Qed.

Lemma StronglySorted_impl {A : Type} (R S : A -> A -> Prop) (l : list A) :
  (forall x y, R x y -> S x y) -> StronglySorted R l -> StronglySorted S l.
Proof.
  intros HRS. induction 1 as [|x l Hs IH Hall]; constructor; auto.
  eapply Forall_impl; [|exact Hall]. auto.
Qed.

Lemma stable_sort_ext {A : Type} (lt1 lt2 : A -> A -> result bool)
  (l : list A) :
  (forall x y, is_lt lt1 x y = is_lt lt2 x y) ->
  stable_sort lt1 l = stable_sort lt2 l.
Proof.
  intro H. unfold stable_sort. generalize (@nil A).
  induction l as [|x l IH]; intro acc; simpl; auto.
  rewrite IH. f_equal.
  induction acc as [|y acc IHa]; simpl; auto.
  rewrite H. destruct (is_lt lt2 x y); auto. now rewrite IHa.
Qed.

Lemma all_comparable_defined {A : Type} (lt : A -> A -> result bool)
  (l : list A) :
  (forall x y, exists b, lt x y = Ok b) -> all_comparable lt l = true.
Proof.
  intro H. induction l as [|x l IH]; simpl; auto.
  rewrite IH, andb_true_r. apply forallb_forall. intros y _.
  unfold comparable. destruct (H x y) as [b ->]. now destruct (H y x) as [c ->].
Qed.

Lemma removeprefix_present (p s : string) :
  removeprefix p (p ++ s) = s.
Proof.
  unfold removeprefix.
  assert (H : String.prefix p (p ++ s) = true) by (apply prefix_app; eauto).
  rewrite H. clear H. induction p; simpl; auto.
Qed.

Lemma removeprefix_absent (p s : string) :
  String.prefix p s = false -> removeprefix p s = s.
Proof. unfold removeprefix. now intros ->. Qed.

Lemma vendor_version_pairs_in (jdks : jdks_dict) (v ver : string) :
  In (v, ver) (vendor_version_pairs jdks) <->
  exists vendor_key versions url,
    In (vendor_key, versions) jdks /\ In (ver, url) versions
    /\ v = removeprefix "jdk@" vendor_key.
Proof.
  unfold vendor_version_pairs. rewrite in_flat_map. split.
  - intros [[vk versions] [Hin H]]. apply in_map_iff in H as [[ver' url] [E H]].
    inversion E; subst. eauto 6.
  - intros [vk [versions [url [H1 [H2 ->]]]]].
    exists (vk, versions). split; auto.
    apply in_map_iff. exists (ver, url). auto.
Qed.

(** ** Statements about the catalog lookup *)

(** C6.  [available_jdks] never raises.  It returns the empty list when
    the catalog has no entry for the os, or none for the arch under that
    os.  Otherwise it returns a rearrangement of the (vendor, version)
    pairs found under [catalog[os][arch]] - one pair for each version key
    of each vendor key, the vendor key with a leading "jdk@" removed - in
    ascending order of (vendor, version), strings compared by code
    points. *)
Theorem C6_available_jdks :
  forall (index : index_dict) (conf : Configuration),
    match dict_get String.eqb (os conf) index with
    | None => available_jdks index conf = Ok []
    | Some arches =>
        match dict_get String.eqb (arch conf) arches with
        | None => available_jdks index conf = Ok []
        | Some jdks =>
            exists pairs,
              available_jdks index conf = Ok pairs
              /\ Permutation pairs (vendor_version_pairs jdks)
              /\ StronglySorted pair_le pairs
              /\ (forall v ver,
                     In (v, ver) pairs <->
                     exists vendor_key versions url,
                       In (vendor_key, versions) jdks
                       /\ In (ver, url) versions
                       /\ v = removeprefix "jdk@" vendor_key)
              /\ (forall name, removeprefix "jdk@" ("jdk@" ++ name) = name)
        end
    end.
Proof.
  intros index conf. unfold available_jdks.
  destruct (dict_get String.eqb (os conf) index) as [arches|]; auto.
  destruct (dict_get String.eqb (arch conf) arches) as [jdks|]; auto.
  exists (stable_sort pair_lt (vendor_version_pairs jdks)).
  assert (Hext : stable_sort pair_lt (vendor_version_pairs jdks)
                 = stable_sort (fun x y => Ok (pair_ltb x y))
                     (vendor_version_pairs jdks)).
  { apply stable_sort_ext. intros x y. unfold is_lt, pair_lt, pair_ltb.
    now destruct (String.eqb (fst x) (fst y)). }
  split; [|split; [|split; [|split]]].
  - unfold py_sorted. rewrite all_comparable_defined; auto.
    intros x y. unfold pair_lt. destruct (String.eqb (fst x) (fst y)); eauto.
  - rewrite Hext. apply stable_sort_perm.
  - rewrite Hext.
    apply (StronglySorted_impl (not_after pair_ltb) pair_le).
    + intros a b. apply pair_not_after_le.
    + apply (stable_sort_sorted pair_ltb pair_ltb_irrefl pair_ltb_trans).
      apply total_weak; [exact pair_ltb_trans|exact pair_ltb_total].
  - intros v ver. rewrite <- vendor_version_pairs_in. rewrite Hext.
    split; apply Permutation_in;
      [|symmetry]; apply stable_sort_perm.
  - intro name. apply removeprefix_present.
Qed.

(** ** The scan for the newest compatible candidate *)

Lemma tuple_lt_ints (a b : list Z) :
  tuple_lt (map EInt a) (map EInt b) = Ok (lex_lt a b).
Proof.
  revert b. induction a as [|x a IH]; intros [|y b]; simpl; auto.
  destruct (x =? y); auto.
Qed.

Lemma lex_lt_irrefl (a : list Z) : lex_lt a a = false.
Proof. induction a as [|x a IH]; simpl; auto. now rewrite Z.eqb_refl. Qed.

Lemma lex_lt_trans (a b c : list Z) :
  lex_lt a b = true -> lex_lt b c = true -> lex_lt a c = true.
Proof.
  revert b c. induction a as [|x a IH]; intros [|y b] [|z c]; simpl;
    try discriminate; auto.
  destruct (Z.eqb_spec x y) as [->|Hxy]; destruct (Z.eqb_spec y z) as [Eyz|Hyz];
    intros H1 H2.
  - eapply IH; eauto.
  - exact H2.
  - subst z. destruct (Z.eqb_spec x y); [contradiction|auto].
  - apply Z.ltb_lt in H1, H2.
    destruct (Z.eqb_spec x z); [lia|]. apply Z.ltb_lt. lia.
Qed.

Lemma lex_lt_total (a b : list Z) :
  a = b \/ lex_lt a b = true \/ lex_lt b a = true.
Proof.
  revert b. induction a as [|x a IH]; intros [|y b]; simpl; auto.
  destruct (Z.eqb_spec x y) as [->|Hxy].
  - rewrite Z.eqb_refl. destruct (IH b) as [->|[H|H]]; auto.
  - destruct (Z.eqb_spec y x) as [->|_]; [contradiction|].
    destruct (Z.ltb_spec x y); auto. right; right. apply Z.ltb_lt. lia.
Qed.

Lemma lex_lt_weak (a b c : list Z) :
  lex_lt a b = false -> lex_lt b c = false -> lex_lt a c = false.
Proof. apply total_weak; [exact lex_lt_trans|exact lex_lt_total]. Qed.

Lemma compat_rec_cons (y x x' : Z) (v s : list Z) (open_ended : bool) :
  compat_rec (y :: v) (x :: x' :: s) open_ended
  = (y =? x) && compat_rec v (x' :: s) open_ended.
Proof. reflexivity. Qed.

Lemma compat_rec_closed_cons (y x : Z) (v s : list Z) :
  compat_rec (y :: v) (x :: s) false = (y =? x) && compat_rec v s false.
Proof. destruct s; simpl; auto. now rewrite andb_true_r. Qed.

Lemma list_dec_cons (y x : Z) (a b : list Z) :
  (if list_eq_dec Z.eq_dec (y :: a) (x :: b) then true else false)
  = (y =? x) && (if list_eq_dec Z.eq_dec a b then true else false).
Proof.
  destruct (Z.eqb_spec y x) as [->|Hyx];
    repeat destruct (list_eq_dec Z.eq_dec _ _); simpl; auto; congruence.
Qed.

Lemma compatible_ints_rec (v s : list Z) (open_ended : bool) :
  compatible_ints v s open_ended = compat_rec v s open_ended.
Proof.
  unfold compatible_ints. destruct open_ended.
  - destruct s as [|x s]; [reflexivity|].
    revert x v. induction s as [|x' s IH]; intros x v.
    + destruct v as [|y v]; reflexivity.
    + destruct v as [|y v]; [reflexivity|].
      rewrite compat_rec_cons, <- (IH x' v).
      replace (List.length (x :: x' :: s) - 1)%nat
        with (S (List.length (x' :: s) - 1)) by (simpl; lia).
      change (removelast (x :: x' :: s)) with (x :: removelast (x' :: s)).
      change (last (x :: x' :: s) 0) with (last (x' :: s) 0).
      cbn [firstn nth]. rewrite list_dec_cons.
      change (List.length (x :: x' :: s) <=? List.length (y :: v))%nat
        with (List.length (x' :: s) <=? List.length v)%nat.
      destruct (List.length (x' :: s) <=? List.length v)%nat;
        destruct (y =? x); reflexivity.
  - revert v. induction s as [|x s IH]; intro v.
    + reflexivity.
    + destruct v as [|y v]; [reflexivity|].
      rewrite compat_rec_closed_cons, <- (IH v).
      cbn [List.length firstn]. rewrite list_dec_cons.
      change (S (List.length s) <=? S (List.length v))%nat
        with (List.length s <=? List.length v)%nat.
      destruct (List.length s <=? List.length v)%nat;
        destruct (y =? x); reflexivity.
Qed.

Lemma compat_code_rec (v s : list Z) (open_ended : bool) :
  _is_version_compatible_with_spec (map EInt v) (spec_key s open_ended)
  = Ok (compat_rec v s open_ended).
Proof. now rewrite compatible_code_ints, compatible_ints_rec. Qed.

(** The comparison that decides between [continue] and [break] is defined
    on every incompatible candidate, and when it says [break] no candidate
    below is compatible. *)
Lemma early_stop_sound (s v : list Z) (open_ended : bool) :
  compat_rec v s open_ended = false ->
  exists above,
    tuple_gt (map EInt v) (spec_key s open_ended) = Ok above
    /\ (above = false ->
        forall w, lex_lt w v = true -> compat_rec w s open_ended = false).
Proof.
  unfold tuple_gt. revert v. induction s as [|x s IH]; intros v Hv.
  - discriminate.
  - destruct v as [|y v].
    + exists false. split; [reflexivity|]. intros _ w Hw. now destruct w.
    + change (tuple_lt (spec_key (x :: s) open_ended) (map EInt (y :: v)))
        with (if elem_eqb (EInt x) (EInt y)
              then tuple_lt (spec_key s open_ended) (map EInt v)
              else elem_lt (EInt x) (EInt y)).
      cbn [elem_eqb elem_lt].
      destruct (Z.eqb_spec x y) as [<-|Hxy].
      * assert (Hs : s <> []).
        { intros ->. simpl in Hv. rewrite Z.eqb_refl in Hv.
          destruct open_ended; [|discriminate].
          rewrite Z.geb_leb in Hv. apply Z.leb_gt in Hv. lia. }
        assert (Hv' : compat_rec v s open_ended = false).
        { destruct s; [contradiction|]. simpl in Hv.
          now rewrite Z.eqb_refl in Hv. }
        destruct (IH _ Hv') as [above [Ha Hb]].
        exists above. split; auto. intros E w Hw.
        destruct w as [|z w]; [reflexivity|].
        destruct s as [|x' s]; [contradiction|].
        change (compat_rec (z :: w) (x :: x' :: s) open_ended)
          with ((z =? x) && compat_rec w (x' :: s) open_ended).
        simpl in Hw. destruct (Z.eqb_spec z x) as [->|Hzx]; auto.
        simpl. now apply Hb.
      * exists (x <? y). split; [reflexivity|]. intros E w Hw.
        apply Z.ltb_ge in E.
        destruct w as [|z w]; [reflexivity|]. simpl in Hw.
        assert (Hz : z < x).
        { destruct (Z.eqb_spec z y); [lia|]. apply Z.ltb_lt in Hw. lia. }
        destruct s as [|x' s].
        -- simpl. destruct open_ended.
           ++ rewrite Z.geb_leb. apply Z.leb_gt. lia.
           ++ apply Z.eqb_neq. lia.
        -- change (compat_rec (z :: w) (x :: x' :: s) open_ended)
             with ((z =? x) && compat_rec w (x' :: s) open_ended).
           destruct (Z.eqb_spec z x); [lia|reflexivity].
Qed.

Lemma zlist_eqb_eq (a b : list Z) : zlist_eqb a b = true <-> a = b.
Proof.
  unfold zlist_eqb. destruct (list_eq_dec Z.eq_dec a b); split; auto;
    discriminate.
Qed.

Lemma zlist_eqb_refl (a : list Z) : zlist_eqb a a = true.
Proof. now apply zlist_eqb_eq. Qed.

Lemma ints_of_key_ints (v : list Z) : ints_of_key (map EInt v) = Some v.
Proof. induction v as [|z v IH]; simpl; auto. now rewrite IH. Qed.

Lemma ints_of_key_some (k : key) (v : list Z) :
  ints_of_key k = Some v -> k = map EInt v.
Proof.
  revert v. induction k as [|[z|] k IH]; intros v; simpl.
  - intro H; inversion H. reflexivity.
  - destruct (ints_of_key k) as [v'|]; [|discriminate].
    intro H; inversion H; subst. simpl. f_equal. now apply IH.
  - discriminate.
Qed.

Lemma ints_of_key_plus_free (k : key) :
  existsb (elem_eqb EPlus) k = false -> exists v, k = map EInt v.
Proof.
  induction k as [|[z|] k IH]; simpl; intro H.
  - now exists [].
  - destruct (IH H) as [v ->]. now exists (z :: v).
  - discriminate.
Qed.

(** *** The dictionary of candidates *)

Section DictFacts.
Context {K V : Type}.
Variable eqb : K -> K -> bool.
Hypothesis eqb_eq : forall a b, eqb a b = true <-> a = b.

Lemma dict_get_set (k k' : K) (v : V) (d : list (K * V)) :
  dict_get eqb k' (dict_set eqb k v d)
  = if eqb k k' then Some v else dict_get eqb k' d.
Proof.
  induction d as [|[k0 v0] d IH]; simpl.
  - destruct (eqb k' k) eqn:E1, (eqb k k') eqn:E2; auto.
    + apply eqb_eq in E1. subst. assert (eqb k k = true) by now apply eqb_eq.
      congruence.
    + apply eqb_eq in E2. subst. assert (eqb k' k' = true) by now apply eqb_eq.
      congruence.
  - destruct (eqb k k0) eqn:E; simpl.
    + apply eqb_eq in E. subst k0.
      destruct (eqb k' k) eqn:E1, (eqb k k') eqn:E2; auto.
      * apply eqb_eq in E1. subst.
        assert (eqb k k = true) by now apply eqb_eq. congruence.
      * apply eqb_eq in E2. subst.
        assert (eqb k' k' = true) by now apply eqb_eq. congruence.
    + rewrite IH. destruct (eqb k' k0) eqn:E1; auto.
      apply eqb_eq in E1. subst k0.
      destruct (eqb k k'); [discriminate|reflexivity].
Qed.

Lemma dict_keys_set (k k' : K) (v : V) (d : list (K * V)) :
  In k' (dict_keys (dict_set eqb k v d)) <-> k' = k \/ In k' (dict_keys d).
Proof.
  unfold dict_keys. induction d as [|[k0 v0] d IH]; simpl.
  - intuition.
  - destruct (eqb k k0) eqn:E; simpl.
    + apply eqb_eq in E. subst. intuition.
    + rewrite IH. intuition.
Qed.
End DictFacts.

Lemma tuple_eqb_emb (a b : list Z) : tuple_eqb (emb a) (emb b) = zlist_eqb a b.
Proof. apply tuple_eqb_ints_dec. Qed.

Lemma dict_set_emb (v : list Z) (c : string) (d : list (list Z * string)) :
  dict_set tuple_eqb (emb v) c (map emb_pair d)
  = map emb_pair (dict_set zlist_eqb v c d).
Proof.
  induction d as [|[v0 c0] d IH]; simpl; auto.
  unfold emb_pair at 1. simpl. rewrite tuple_eqb_emb.
  destruct (zlist_eqb v v0); simpl; auto. now rewrite IH.
Qed.

Lemma dict_get_emb (v : list Z) (d : list (list Z * string)) :
  dict_get tuple_eqb (emb v) (map emb_pair d) = dict_get zlist_eqb v d.
Proof.
  induction d as [|[v0 c0] d IH]; simpl; auto.
  rewrite tuple_eqb_emb. now destruct (zlist_eqb v v0).
Qed.

Lemma dict_keys_emb (d : list (list Z * string)) :
  dict_keys (map emb_pair d) = map emb (dict_keys d).
Proof. unfold dict_keys. rewrite !map_map. reflexivity. Qed.

Lemma collect_emb (f : bool) (cands : list string)
  (d : list (list Z * string)) (w : list string) :
  plus_free_candidates f cands ->
  fst (collect_normcands f cands (map emb_pair d) w)
  = map emb_pair (fold_left (int_step f) cands d).
Proof.
  revert d w. induction cands as [|c cands IH]; intros d w H; simpl; auto.
  assert (H' : plus_free_candidates f cands).
  { intros c' k Hin. apply H. now right. }
  unfold int_step at 2. unfold cand_key.
  destruct (_normalize_version c f) as [k|e] eqn:E.
  - destruct (ints_of_key_plus_free k (H c k (or_introl eq_refl) E)) as [v ->].
    rewrite ints_of_key_ints. fold (emb v). rewrite dict_set_emb. now apply IH.
  - now apply IH.
Qed.

Lemma int_step_get (f : bool) (v : list Z) (c : string)
  (d : list (list Z * string)) :
  dict_get zlist_eqb v (int_step f d c)
  = match cand_key f c with
    | Some v' => if zlist_eqb v' v then Some c else dict_get zlist_eqb v d
    | None => dict_get zlist_eqb v d
    end.
Proof.
  unfold int_step. destruct (cand_key f c) as [v'|]; auto.
  apply dict_get_set. apply zlist_eqb_eq.
Qed.

Lemma collect_get (f : bool) (v : list Z) (cands : list string)
  (d : list (list Z * string)) :
  dict_get zlist_eqb v (fold_left (int_step f) cands d)
  = find_last f v cands (dict_get zlist_eqb v d).
Proof.
  revert d. induction cands as [|c cands IH]; intro d; simpl; auto.
  rewrite IH, int_step_get. unfold find_last. simpl.
  now destruct (cand_key f c).
Qed.

Lemma collect_keys (f : bool) (v : list Z) (cands : list string)
  (d : list (list Z * string)) :
  In v (dict_keys (fold_left (int_step f) cands d)) <->
  In v (dict_keys d) \/ exists c, In c cands /\ cand_key f c = Some v.
Proof.
  revert d. induction cands as [|c cands IH]; intro d; simpl.
  - split; auto. intros [H|[c [[] _]]]. exact H.
  - rewrite IH. unfold int_step.
    destruct (cand_key f c) as [v'|] eqn:E.
    + rewrite (dict_keys_set zlist_eqb zlist_eqb_eq). split.
      * intros [[->|H]|[c' [H1 H2]]]; eauto.
      * intros [H|[c' [[->|H1] H2]]]; eauto.
        left. left. congruence.
    + split.
      * intros [H|[c' [H1 H2]]]; eauto.
      * intros [H|[c' [[->|H1] H2]]]; eauto. congruence.
Qed.

(** *** Sorting the keys *)

Lemma is_lt_emb (x y : list Z) : is_lt tuple_lt (emb x) (emb y) = lex_lt x y.
Proof. unfold is_lt, emb. now rewrite tuple_lt_ints. Qed.

Lemma insert_emb (x : list Z) (l : list (list Z)) :
  insert tuple_lt (emb x) (map emb l) = map emb (insert lex_lt_r x l).
Proof.
  induction l as [|y l IH]; cbn [insert map]; auto.
  rewrite is_lt_emb. unfold is_lt at 1, lex_lt_r at 1.
  destruct (lex_lt x y); cbn [map]; auto. now rewrite IH.
Qed.

Lemma stable_sort_emb (l : list (list Z)) :
  stable_sort tuple_lt (map emb l) = map emb (stable_sort lex_lt_r l).
Proof.
  unfold stable_sort. change (@nil key) with (map emb []).
  generalize (@nil (list Z)).
  induction l as [|x l IH]; intro acc; simpl; auto.
  now rewrite insert_emb, IH.
Qed.

Lemma sorted_keys_emb (vs : list (list Z)) :
  py_sorted tuple_lt true (map emb vs) = Ok (map emb (newest_first vs)).
Proof.
  unfold py_sorted, newest_first.
  assert (H : all_comparable tuple_lt (map emb vs) = true).
  { induction vs as [|v vs IH]; simpl; auto.
    rewrite IH, andb_true_r. apply forallb_forall.
    intros k Hk. apply in_map_iff in Hk as [w [<- _]].
    unfold comparable, emb. now rewrite !tuple_lt_ints. }
  rewrite H, <- map_rev, stable_sort_emb, map_rev. reflexivity.
Qed.

Lemma newest_first_perm (vs : list (list Z)) :
  Permutation (newest_first vs) vs.
Proof.
  unfold newest_first. rewrite <- Permutation_rev.
  unfold lex_lt_r. rewrite stable_sort_perm. symmetry. apply Permutation_rev.
Qed.

Lemma newest_first_sorted (vs : list (list Z)) :
  StronglySorted (fun a b => lex_lt a b = false) (newest_first vs).
Proof.
  unfold newest_first.
  apply (StronglySorted_rev (fun a b => lex_lt b a = false)).
  apply (stable_sort_sorted lex_lt lex_lt_irrefl lex_lt_trans lex_lt_weak).
Qed.

(** *** The scan *)

Lemma scan_newest_first (d : list (list Z * string)) (s : list Z)
  (open_ended : bool) (msg : string) (ks : list (list Z)) :
  StronglySorted (fun a b => lex_lt a b = false) ks ->
  scan_normcands (map emb_pair d) (spec_key s open_ended) msg (map emb ks)
  = match find (fun v => compat_rec v s open_ended) ks with
    | Some v =>
        match dict_get zlist_eqb v d with
        | Some c => Ok c
        | None => Raise (KeyError "")
        end
    | None => Raise (LookupError msg)
    end.
Proof.
  induction 1 as [|v ks Hs IH Hall]; [reflexivity|].
  cbn [map scan_normcands find]. change (emb v) with (map EInt v).
  rewrite compat_code_rec. cbn [bind].
  destruct (compat_rec v s open_ended) eqn:Hv.
  - change (map EInt v) with (emb v). now rewrite dict_get_emb.
  - destruct (early_stop_sound s v open_ended Hv) as [above [Ha Hb]].
    rewrite Ha. cbn [bind]. destruct above; [exact IH|].
    assert (Hnone : find (fun v => compat_rec v s open_ended) ks = None).
    { destruct (find _ ks) as [w|] eqn:Hf; auto.
      apply find_some in Hf as [Hw Hok].
      rewrite Forall_forall in Hall. specialize (Hall w Hw).
      destruct (lex_lt_total w v) as [->|[Hl|Hl]]; try congruence.
      rewrite (Hb eq_refl w Hl) in Hok. discriminate. }
    now rewrite Hnone.
Qed.

Lemma find_newest (ok : list Z -> bool) (ks : list (list Z)) (m : list Z) :
  StronglySorted (fun a b => lex_lt a b = false) ks ->
  find ok ks = Some m ->
  In m ks /\ ok m = true
  /\ forall v, In v ks -> ok v = true -> lex_lt m v = false.
Proof.
  induction 1 as [|k ks Hs IH Hall]; simpl; [discriminate|].
  destruct (ok k) eqn:Hk.
  - intro H; inversion H; subst. repeat split; auto.
    intros v [<-|Hv] _; [apply lex_lt_irrefl|].
    rewrite Forall_forall in Hall. now apply Hall.
  - intro H. destruct (IH H) as [H1 [H2 H3]]. repeat split; auto.
    intros v [<-|Hv] Hok; [congruence|auto].
Qed.

(** *** The full scan *)

Lemma find_last_snoc (f : bool) (v : list Z) (cands : list string)
  (c : string) (init : option string) :
  find_last f v (cands ++ [c]) init
  = match cand_key f c with
    | Some v' => if zlist_eqb v' v then Some c else find_last f v cands init
    | None => find_last f v cands init
    end.
Proof. unfold find_last. now rewrite fold_left_app. Qed.

Lemma full_scan_snoc (f : bool) (normreq : key) (cands : list string)
  (c : string) :
  full_scan f normreq (cands ++ [c])
  = full_scan_step f normreq (full_scan f normreq cands) c.
Proof. unfold full_scan. now rewrite fold_left_app. Qed.

Lemma full_scan_best (f : bool) (normreq : key) (cands : list string) :
  is_best f (fun v => compat_ok (map EInt v) normreq) cands
    (full_scan f normreq cands).
Proof.
  induction cands as [|c cands IH] using rev_ind.
  - simpl. intros c v [].
  - rewrite full_scan_snoc. unfold full_scan_step.
    destruct (full_scan f normreq cands) as [[bv bc]|];
      destruct (cand_key f c) as [v|] eqn:Hc; simpl in IH |- *.
    + destruct IH as [H1 [H2 [H3 [H4 H5]]]].
      destruct (compat_ok (map EInt v) normreq) eqn:Hok.
      * destruct (lex_lt v bv) eqn:Hlt; simpl.
        -- repeat split; auto.
           ++ apply in_or_app; auto.
           ++ rewrite find_last_snoc, Hc.
              destruct (zlist_eqb v bv) eqn:E; auto.
              apply zlist_eqb_eq in E. subst.
              now rewrite lex_lt_irrefl in Hlt.
           ++ intros c' v' Hin Hk Hv'. apply in_app_or in Hin as [Hin|[<-|[]]].
              ** eauto.
              ** assert (v' = v) by congruence. subst v'.
                 destruct (lex_lt bv v) eqn:E; auto.
                 pose proof (lex_lt_trans _ _ _ Hlt E) as T.
                 now rewrite lex_lt_irrefl in T.
        -- repeat split; auto.
           ++ apply in_or_app; simpl; auto.
           ++ now rewrite find_last_snoc, Hc, zlist_eqb_refl.
           ++ intros c' v' Hin Hk Hv'. apply in_app_or in Hin as [Hin|[<-|[]]].
              ** eapply lex_lt_weak; [exact Hlt|]. eauto.
              ** assert (v' = v) by congruence. subst. apply lex_lt_irrefl.
      * simpl. repeat split; auto.
        -- apply in_or_app; auto.
        -- rewrite find_last_snoc, Hc.
           destruct (zlist_eqb v bv) eqn:E; auto.
           apply zlist_eqb_eq in E. subst. congruence.
        -- intros c' v' Hin Hk Hv'. apply in_app_or in Hin as [Hin|[<-|[]]].
           ++ eauto.
           ++ congruence.
    + destruct IH as [H1 [H2 [H3 [H4 H5]]]]. repeat split; auto.
      * apply in_or_app; auto.
      * now rewrite find_last_snoc, Hc.
      * intros c' v' Hin Hk Hv'. apply in_app_or in Hin as [Hin|[<-|[]]].
        -- eauto.
        -- congruence.
    + destruct (compat_ok (map EInt v) normreq) eqn:Hok; simpl.
      * repeat split; auto.
        -- apply in_or_app; simpl; auto.
        -- now rewrite find_last_snoc, Hc, zlist_eqb_refl.
        -- intros c' v' Hin Hk Hv'. apply in_app_or in Hin as [Hin|[<-|[]]].
           ++ rewrite (IH _ _ Hin Hk) in Hv'. discriminate.
           ++ assert (v' = v) by congruence. subst. apply lex_lt_irrefl.
      * intros c' v' Hin Hk. apply in_app_or in Hin as [Hin|[<-|[]]].
        -- eauto.
        -- congruence.
    + intros c' v' Hin Hk. apply in_app_or in Hin as [Hin|[<-|[]]].
      * eauto.
      * congruence.
Qed.

(** *** The matcher against the full scan *)

Lemma compat_ok_rec (v s : list Z) (open_ended : bool) :
  compat_ok (map EInt v) (spec_key s open_ended) = compat_rec v s open_ended.
Proof. unfold compat_ok. now rewrite compat_code_rec. Qed.

Lemma cand_key_normalize (f : bool) (c : string) (v : list Z) :
  cand_key f c = Some v <-> _normalize_version c f = Ok (map EInt v).
Proof.
  unfold cand_key. split.
  - destruct (_normalize_version c f) as [k|e]; [|discriminate].
    intro H. now rewrite (ints_of_key_some _ _ H).
  - intros ->. apply ints_of_key_ints.
Qed.

Lemma match_version_full_scan (vendor : string) (cands : list string)
  (req : string) (normreq : key) :
  _normalize_version req (negb (is_graal vendor)) = Ok normreq ->
  plus_free_candidates (negb (is_graal vendor)) cands ->
  _match_version vendor cands req
  = match full_scan (negb (is_graal vendor)) normreq cands with
    | Some (_, c) => Ok c
    | None => Raise (LookupError (no_match_msg vendor req))
    end.
Proof.
  intros Hreq Hfree. unfold _match_version.
  set (f := negb (is_graal vendor)) in *.
  rewrite Hreq. cbn [bind].
  destruct (normalize_shape _ _ _ Hreq) as [s [-> _]].
  set (oe := endswith_char req "+").
  change (@nil (key * string)) with (map emb_pair []).
  rewrite (collect_emb f cands [] [] Hfree).
  set (d := fold_left (int_step f) cands []).
  rewrite dict_keys_emb, sorted_keys_emb. cbn [bind].
  rewrite (scan_newest_first d s oe _ _ (newest_first_sorted _)).
  pose proof (full_scan_best f (spec_key s oe) cands) as HB.
  assert (Hkeys : forall v, In v (newest_first (dict_keys d)) <->
                            exists c, In c cands /\ cand_key f c = Some v).
  { intro v. split.
    - intro H. apply (Permutation_in _ (newest_first_perm _)) in H.
      apply collect_keys in H as [[]|H]. exact H.
    - intro H.
      apply (Permutation_in _ (Permutation_sym (newest_first_perm _))).
      apply collect_keys. now right. }
  destruct (full_scan f (spec_key s oe) cands) as [[bv bc]|]; simpl in HB.
  - destruct HB as [H1 [H2 [H3 [H4 H5]]]]. rewrite compat_ok_rec in H3.
    destruct (find (fun v => compat_rec v s oe) (newest_first (dict_keys d)))
      as [m|] eqn:Hf.
    + destruct (find_newest _ _ _ (newest_first_sorted _) Hf)
        as [Hm [Hok Hmax]].
      assert (Hbv : In bv (newest_first (dict_keys d)))
        by (apply Hkeys; eauto).
      pose proof (Hmax bv Hbv H3) as Hle.
      apply Hkeys in Hm as [c' [Hc' Hk']].
      assert (Hge : lex_lt bv m = false).
      { eapply H5; eauto. now rewrite compat_ok_rec. }
      assert (m = bv).
      { destruct (lex_lt_total m bv) as [E|[E|E]]; auto; congruence. }
      subst m. unfold d. rewrite collect_get. simpl dict_get. now rewrite H4.
    + assert (Hbv : In bv (newest_first (dict_keys d)))
        by (apply Hkeys; eauto).
      rewrite (find_none _ _ Hf bv Hbv) in H3. discriminate.
  - destruct (find (fun v => compat_rec v s oe) (newest_first (dict_keys d)))
      as [m|] eqn:Hf; auto.
    apply find_some in Hf as [Hm Hok].
    apply Hkeys in Hm as [c' [Hc' Hk']].
    specialize (HB c' m Hc' Hk'). rewrite compat_ok_rec in HB. congruence.
Qed.

(** ** Statements about the matcher *)

(** X15.  For every vendor, every requested specifier that normalizes and
    every list of candidates in which no accepted key carries the "+"
    marker, the matcher returns what a full scan for the maximum
    compatible candidate returns: the original string of a candidate that
    normalizes, is compatible with the normalized request and whose key,
    compared numerically component by component, is not below the key of
    any compatible candidate; it raises [LookupError] when no candidate is
    compatible.  The early stop of the descending scan loses nothing. *)
Theorem X15_early_stop_is_full_scan :
  forall (vendor : string) (cands : list string) (req : string)
         (normreq : key),
    _normalize_version req (negb (is_graal vendor)) = Ok normreq ->
    plus_free_candidates (negb (is_graal vendor)) cands ->
    _match_version vendor cands req
    = match full_scan (negb (is_graal vendor)) normreq cands with
      | Some (_, c) => Ok c
      | None => Raise (LookupError (no_match_msg vendor req))
      end
    /\ (forall v c,
           full_scan (negb (is_graal vendor)) normreq cands = Some (v, c) ->
           In c cands
           /\ _normalize_version c (negb (is_graal vendor)) = Ok (map EInt v)
           /\ _is_version_compatible_with_spec (map EInt v) normreq = Ok true
           /\ forall c' v',
               In c' cands ->
               _normalize_version c' (negb (is_graal vendor))
               = Ok (map EInt v') ->
               _is_version_compatible_with_spec (map EInt v') normreq
               = Ok true ->
               lex_lt v v' = false)
    /\ (full_scan (negb (is_graal vendor)) normreq cands = None ->
        forall c k,
          In c cands ->
          _normalize_version c (negb (is_graal vendor)) = Ok k ->
          _is_version_compatible_with_spec k normreq = Ok false).
Proof.
  intros vendor cands req normreq Hreq Hfree.
  split; [now apply match_version_full_scan|].
  pose proof (full_scan_best (negb (is_graal vendor)) normreq cands) as HB.
  destruct (normalize_shape _ _ _ Hreq) as [s [-> _]].
  set (oe := endswith_char req "+") in *. split.
  - intros v c E. rewrite E in HB. simpl in HB.
    destruct HB as [H1 [H2 [H3 [_ H5]]]].
    rewrite compat_ok_rec in H3.
    repeat split; auto.
    + now apply cand_key_normalize.
    + now rewrite compat_code_rec, H3.
    + intros c' v' Hin Hn Hc. apply (H5 c' v' Hin).
      * now apply cand_key_normalize.
      * unfold compat_ok. now rewrite Hc.
  - intros E c k Hin Hn. rewrite E in HB. simpl in HB.
    destruct (ints_of_key_plus_free k (Hfree c k Hin Hn)) as [v ->].
    rewrite compat_code_rec. f_equal.
    rewrite <- compat_ok_rec. apply (HB c v Hin).
    now apply cand_key_normalize.
Qed.

Lemma X15_early_stop_is_full_scan_witness :
  _match_version "temurin" ["11.0.1"; "11.0.9"; "11.0.10"] "11"
  = Ok "11.0.10".
Proof.
  assert (Hreq : _normalize_version "11" (negb (is_graal "temurin"))
                 = Ok [EInt 11]) by reflexivity.
  assert (Hfree : plus_free_candidates (negb (is_graal "temurin"))
                    ["11.0.1"; "11.0.9"; "11.0.10"]).
  { intros c k [<-|[<-|[<-|[]]]] H; vm_compute in H; inversion H;
      reflexivity. }
  destruct (X15_early_stop_is_full_scan
              "temurin" ["11.0.1"; "11.0.9"; "11.0.10"] "11" [EInt 11]
              Hreq Hfree) as [E _].
  rewrite E. vm_compute. reflexivity.
Defined.

(** C1.  The matcher is to return the newest compatible candidate of
    every list.  With the candidates "11+" and "11.0.1" and the request
    "11" it returns nothing: "11+" is accepted with the key (11, "+"), no
    warning is issued for it, and the sort of the keys raises [TypeError],
    although "11.0.1" normalizes, is compatible, is what the full scan for
    the maximum compatible candidate finds, and is returned when "11+" is
    not in the list.  For the three candidates of the specification the
    code returns "11.0.10". *)
Theorem C1_marker_candidate_hides_newest :
  _match_version "temurin" ["11+"; "11.0.1"] "11" = Raise TypeError
  /\ _normalize_version "11+" (negb (is_graal "temurin"))
     = Ok [EInt 11; EPlus]
  /\ _match_version_warnings "temurin" ["11+"; "11.0.1"] "11" = []
  /\ _normalize_version "11.0.1" (negb (is_graal "temurin"))
     = Ok [EInt 11; EInt 0; EInt 1]
  /\ _is_version_compatible_with_spec [EInt 11; EInt 0; EInt 1] [EInt 11]
     = Ok true
  /\ full_scan (negb (is_graal "temurin")) [EInt 11] ["11+"; "11.0.1"]
     = Some ([11; 0; 1], "11.0.1")
  /\ _match_version "temurin" ["11.0.1"] "11" = Ok "11.0.1"
  /\ _match_version "temurin" ["11.0.1"; "11.0.9"; "11.0.10"] "11"
     = Ok "11.0.10".
Proof. repeat split; vm_compute; reflexivity. Qed.

Lemma any_version_compat (normreq : key) (v : list Z) :
  any_version normreq ->
  _is_version_compatible_with_spec (map EInt v) normreq = Ok true.
Proof.
  intros [->| ->].
  - change (@nil elem) with (spec_key [] false). now rewrite compat_code_rec.
  - change [EPlus] with (spec_key [] true). now rewrite compat_code_rec.
Qed.

(** X16.  A request whose normalized key is empty, or is the bare
    marker, is compatible with every candidate key that carries no
    marker; so over candidates whose accepted keys carry no marker the
    matcher returns a candidate whose key is not below the key of any
    candidate that normalizes, and raises [LookupError] only when no
    candidate normalizes.  The empty request normalizes to the empty key
    for every vendor; for a vendor without "graalvm" in its name so does
    "1", and "1+" normalizes to the bare marker. *)
Theorem X16_any_version_request :
  (forall (normreq : key) (v : list Z),
      any_version normreq ->
      _is_version_compatible_with_spec (map EInt v) normreq = Ok true)
  /\ (forall f : bool, _normalize_version "" f = Ok [])
  /\ (forall vendor : string,
         ~ contains_graalvm vendor ->
         _normalize_version "1" (negb (is_graal vendor)) = Ok []
         /\ _normalize_version "1+" (negb (is_graal vendor)) = Ok [EPlus])
  /\ (forall (vendor : string) (cands : list string) (req : string)
             (normreq : key),
         _normalize_version req (negb (is_graal vendor)) = Ok normreq ->
         any_version normreq ->
         plus_free_candidates (negb (is_graal vendor)) cands ->
         ((exists c k, In c cands
                       /\ _normalize_version c (negb (is_graal vendor)) = Ok k)
          -> exists c v,
              _match_version vendor cands req = Ok c
              /\ In c cands
              /\ _normalize_version c (negb (is_graal vendor))
                 = Ok (map EInt v)
              /\ forall c' v',
                  In c' cands ->
                  _normalize_version c' (negb (is_graal vendor))
                  = Ok (map EInt v') ->
                  lex_lt v v' = false)
         /\ ((forall c k, In c cands ->
                          _normalize_version c (negb (is_graal vendor))
                          <> Ok k)
             -> _match_version vendor cands req
                = Raise (LookupError (no_match_msg vendor req)))).
Proof.
  split; [|split; [|split]].
  - intros normreq v H. now apply any_version_compat.
  - intros [|]; reflexivity.
  - intros vendor Hv.
    assert (Hg : is_graal vendor = false).
    { apply not_true_is_false. intro H. now apply is_graal_contains in H. }
    rewrite Hg. split; reflexivity.
  - intros vendor cands req normreq Hreq Hany Hfree.
    rewrite (match_version_full_scan _ _ _ _ Hreq Hfree).
    pose proof (full_scan_best (negb (is_graal vendor)) normreq cands) as HB.
    assert (Hok : forall v, compat_ok (map EInt v) normreq = true).
    { intro v. unfold compat_ok. now rewrite any_version_compat. }
    destruct (full_scan _ normreq cands) as [[bv bc]|]; simpl in HB; split.
    + intros _. destruct HB as [H1 [H2 [_ [_ H5]]]].
      exists bc, bv. repeat split; auto.
      * now apply cand_key_normalize.
      * intros c' v' Hin Hn. apply (H5 c' v' Hin); auto.
        now apply cand_key_normalize.
    + intro Hnone. destruct HB as [H1 [H2 _]].
      apply cand_key_normalize in H2. now apply Hnone in H2.
    + intros [c [k [Hin Hn]]].
      destruct (ints_of_key_plus_free k (Hfree c k Hin Hn)) as [v ->].
      apply cand_key_normalize in Hn.
      specialize (Hok v). rewrite (HB c v Hin Hn) in Hok. discriminate.
    + reflexivity.
Qed.

Lemma X16_any_version_request_witness :
  (_normalize_version "1" (negb (is_graal "zulu")) = Ok []
   /\ _normalize_version "1+" (negb (is_graal "zulu")) = Ok [EPlus])
  /\ exists c v,
      _match_version "zulu" ["8.0.1"; "17.0.2"; "11.0.9"] "1" = Ok c
      /\ In c ["8.0.1"; "17.0.2"; "11.0.9"]
      /\ _normalize_version c (negb (is_graal "zulu")) = Ok (map EInt v)
      /\ forall c' v',
          In c' ["8.0.1"; "17.0.2"; "11.0.9"] ->
          _normalize_version c' (negb (is_graal "zulu")) = Ok (map EInt v') ->
          lex_lt v v' = false.
Proof.
  destruct X16_any_version_request as [_ [_ [Hstd Hmatch]]].
  assert (Hv : ~ contains_graalvm "zulu").
  { intro H. apply is_graal_contains in H. vm_compute in H. discriminate. }
  split; [exact (Hstd "zulu" Hv)|].
  assert (Hreq : _normalize_version "1" (negb (is_graal "zulu")) = Ok [])
    by reflexivity.
  assert (Hfree : plus_free_candidates (negb (is_graal "zulu"))
                    ["8.0.1"; "17.0.2"; "11.0.9"]).
  { intros c k [<-|[<-|[<-|[]]]] H; vm_compute in H; inversion H;
      reflexivity. }
  destruct (Hmatch "zulu" ["8.0.1"; "17.0.2"; "11.0.9"] "1" []
              Hreq (or_introl eq_refl) Hfree) as [Hsome _].
  apply Hsome. exists "8.0.1", [EInt 8; EInt 0; EInt 1].
  split; [now left|reflexivity].
Defined.

(** C9.  A request with the empty key is to be compatible with every
    candidate, and the matcher is to return the newest one.  With the
    candidate "11+", accepted with the key (11, "+"), the test of the
    empty key raises [AssertionError] instead of answering, and so does
    the matcher for the requests "", "1" and "1+", which normalize to the
    empty key and to the bare marker; beside a second candidate the sort
    of the keys raises [TypeError].  Without "11+" the newest candidate
    is returned. *)
Theorem C9_marker_candidate_not_any_version :
  _normalize_version "" (negb (is_graal "temurin")) = Ok []
  /\ _normalize_version "1" (negb (is_graal "temurin")) = Ok []
  /\ _normalize_version "1+" (negb (is_graal "temurin")) = Ok [EPlus]
  /\ _normalize_version "11+" (negb (is_graal "temurin"))
     = Ok [EInt 11; EPlus]
  /\ _is_version_compatible_with_spec [EInt 11; EPlus] []
     = Raise AssertionError
  /\ _is_version_compatible_with_spec [EInt 11; EPlus] [EPlus]
     = Raise AssertionError
  /\ _match_version "temurin" ["11+"] "" = Raise AssertionError
  /\ _match_version "temurin" ["11+"] "1" = Raise AssertionError
  /\ _match_version "temurin" ["11+"] "1+" = Raise AssertionError
  /\ _match_version "temurin" ["11+"; "11.0.1"] "" = Raise TypeError
  /\ _match_version "temurin" ["11.0.1"; "17.0.2"] "" = Ok "17.0.2".
Proof. repeat split; vm_compute; reflexivity. Qed.

(** ** Statements about [resolve_jdk_version] *)

Lemma available_jdks_ok (index : index_dict) (conf : Configuration) :
  exists jdks, available_jdks index conf = Ok jdks.
Proof.
  unfold available_jdks.
  destruct (dict_get String.eqb (os conf) index) as [arches|]; eauto.
  destruct (dict_get String.eqb (arch conf) arches) as [jdks|]; eauto.
  unfold py_sorted. rewrite all_comparable_defined; eauto.
  intros x y. unfold pair_lt. destruct (String.eqb (fst x) (fst y)); eauto.
Qed.

Lemma resolve_unfold (index : index_dict) (conf : Configuration) :
  resolve_jdk_version index conf
  = match vendor_versions index conf with
    | [] => Raise (KeyError (no_vendor_msg conf))
    | versions =>
        matched <- _match_version (vendor conf) versions (version conf) ;;
        if str_nonempty matched then Ok matched
        else Raise (KeyError (no_version_msg conf))
    end.
Proof.
  unfold resolve_jdk_version, vendor_versions.
  destruct (available_jdks_ok index conf) as [jdks ->]. cbn [bind].
  now destruct (map snd _).
Qed.

Lemma str_app_assoc (a b c : string) :
  ((a ++ b) ++ c = a ++ (b ++ c))%string.
Proof. induction a; simpl; auto. now rewrite IHa. Qed.

Lemma str_contains_mid (a sub b : string) :
  str_contains sub (a ++ sub ++ b)%string = true.
Proof. apply str_contains_app. eauto. Qed.

Lemma no_vendor_msg_names (conf : Configuration) :
  str_contains (vendor conf) (no_vendor_msg conf) = true
  /\ str_contains (os conf) (no_vendor_msg conf) = true
  /\ str_contains (arch conf) (no_vendor_msg conf) = true.
Proof.
  unfold no_vendor_msg. repeat split.
  - apply str_contains_mid.
  - apply str_contains_app.
    exists ("No " ++ vendor conf ++ " JDK is available for ")%string,
      ("-" ++ arch conf)%string.
    now rewrite !str_app_assoc.
  - apply str_contains_app.
    exists ("No " ++ vendor conf ++ " JDK is available for "
                  ++ os conf ++ "-")%string, ""%string.
    rewrite !str_app_assoc. repeat f_equal.
    induction (arch conf); simpl; auto. now rewrite <- IHs.
Qed.

Lemma no_match_msg_names (vendor requested : string) :
  str_contains requested (no_match_msg vendor requested) = true.
Proof.
  unfold no_match_msg. apply str_contains_app.
  exists ("No matching version for '" ++ vendor ++ ":")%string, "'"%string.
  now rewrite !str_app_assoc.
Qed.

(** C5, as amended.  Let the requested specifier normalize, and let the
    versions listed for the vendor be non-empty strings none of whose
    accepted keys carries the "+" marker.  Then [resolve_jdk_version]
    fails exactly in two cases: no version is listed for the vendor on the
    os and arch, reported as a [KeyError] whose message names vendor, os
    and arch; or versions are listed and none is compatible with the
    specifier, reported as a [LookupError] whose message names the
    requested version.  Both are instances of [LookupError] and they are
    different exceptions.  Otherwise it returns a listed version that is
    compatible with the specifier.  A specifier that does not normalize,
    where versions are listed, fails with [ValueError], which is not an
    instance of [LookupError]. *)
Theorem C5_resolve_failures :
  forall (index : index_dict) (conf : Configuration),
    (vendor_versions index conf = [] ->
     resolve_jdk_version index conf = Raise (KeyError (no_vendor_msg conf)))
    /\ (forall normreq : key,
           _normalize_version (version conf) (request_flag conf)
           = Ok normreq ->
           plus_free_candidates (request_flag conf)
             (vendor_versions index conf) ->
           ~ In ""%string (vendor_versions index conf) ->
           vendor_versions index conf <> [] ->
           ((forall c k,
                In c (vendor_versions index conf) ->
                _normalize_version c (request_flag conf) = Ok k ->
                _is_version_compatible_with_spec k normreq = Ok false) ->
            resolve_jdk_version index conf
            = Raise (LookupError
                       (no_match_msg (vendor conf) (version conf))))
           /\ ((exists c k,
                   In c (vendor_versions index conf)
                   /\ _normalize_version c (request_flag conf) = Ok k
                   /\ _is_version_compatible_with_spec k normreq = Ok true) ->
               exists m v,
                 resolve_jdk_version index conf = Ok m
                 /\ In m (vendor_versions index conf)
                 /\ _normalize_version m (request_flag conf)
                    = Ok (map EInt v)
                 /\ _is_version_compatible_with_spec (map EInt v) normreq
                    = Ok true))
    /\ (forall e : exn,
           vendor_versions index conf <> [] ->
           _normalize_version (version conf) (request_flag conf) = Raise e ->
           resolve_jdk_version index conf = Raise e
           /\ isinstance_LookupError e = false)
    /\ isinstance_LookupError (KeyError (no_vendor_msg conf)) = true
    /\ isinstance_LookupError
         (LookupError (no_match_msg (vendor conf) (version conf))) = true
    /\ KeyError (no_vendor_msg conf)
       <> LookupError (no_match_msg (vendor conf) (version conf))
    /\ str_contains (vendor conf) (no_vendor_msg conf) = true
    /\ str_contains (os conf) (no_vendor_msg conf) = true
    /\ str_contains (arch conf) (no_vendor_msg conf) = true
    /\ str_contains (version conf)
         (no_match_msg (vendor conf) (version conf)) = true.
Proof.
  intros index conf. rewrite resolve_unfold.
  split; [|split; [|split]].
  - now intros ->.
  - intros normreq Hreq Hfree Hne Hsome.
    destruct (vendor_versions index conf) as [|c0 cs] eqn:Hvs;
      [contradiction|].
    unfold request_flag in *.
    rewrite (match_version_full_scan _ _ _ _ Hreq Hfree).
    pose proof (full_scan_best (negb (is_graal (vendor conf))) normreq
                  (c0 :: cs)) as HB.
    destruct (normalize_shape _ _ _ Hreq) as [s [-> _]].
    set (oe := endswith_char (version conf) "+") in *.
    destruct (full_scan _ (spec_key s oe) (c0 :: cs)) as [[bv bc]|];
      simpl in HB; split.
    + intro Hnone. destruct HB as [H1 [H2 [H3 _]]].
      apply cand_key_normalize in H2.
      specialize (Hnone bc _ H1 H2).
      unfold compat_ok in H3. rewrite Hnone in H3. discriminate.
    + intros _. destruct HB as [H1 [H2 [H3 _]]].
      exists bc, bv. cbn [bind].
      assert (Hb : str_nonempty bc = true).
      { destruct bc; [contradiction|reflexivity]. }
      rewrite Hb. repeat split; auto.
      * now apply cand_key_normalize.
      * rewrite compat_ok_rec in H3. now rewrite compat_code_rec, H3.
    + reflexivity.
    + intros [c [k [Hin [Hn Hc]]]].
      destruct (ints_of_key_plus_free k (Hfree c k Hin Hn)) as [v ->].
      apply cand_key_normalize in Hn.
      specialize (HB c v Hin Hn). unfold compat_ok in HB.
      rewrite Hc in HB. discriminate.
  - intros e Hsome He.
    destruct (vendor_versions index conf) as [|c0 cs]; [contradiction|].
    unfold _match_version. unfold request_flag in He. rewrite He.
    split; [reflexivity|].
    now rewrite (normalize_only_ValueError _ _ _ He).
  - destruct (no_vendor_msg_names conf) as [H1 [H2 H3]].
    repeat split; auto; try discriminate.
    apply no_match_msg_names.
Qed.

Lemma sample_versions (version : string) :
  vendor_versions sample_index (sample_conf "temurin" version)
  = ["11.0.1"; "17.0.2"].
Proof. reflexivity. Qed.

Lemma sample_plus_free (version : string) :
  plus_free_candidates (request_flag (sample_conf "temurin" version))
    (vendor_versions sample_index (sample_conf "temurin" version)).
Proof.
  rewrite sample_versions.
  intros c k [<-|[<-|[]]] H; vm_compute in H; inversion H; reflexivity.
Qed.

Lemma C5_resolve_failures_witness :
  resolve_jdk_version sample_index (sample_conf "zulu" "11")
  = Raise (KeyError (no_vendor_msg (sample_conf "zulu" "11")))
  /\ (exists m v,
         resolve_jdk_version sample_index (sample_conf "temurin" "11") = Ok m
         /\ In m (vendor_versions sample_index (sample_conf "temurin" "11"))
         /\ _normalize_version m (request_flag (sample_conf "temurin" "11"))
            = Ok (map EInt v)
         /\ _is_version_compatible_with_spec (map EInt v) [EInt 11] = Ok true)
  /\ resolve_jdk_version sample_index (sample_conf "temurin" "21")
     = Raise (LookupError (no_match_msg "temurin" "21"))
  /\ (resolve_jdk_version sample_index (sample_conf "temurin" "x")
      = Raise (ValueError "Invalid version string: x")
      /\ isinstance_LookupError (ValueError "Invalid version string: x")
         = false).
Proof.
  split; [|split; [|split]].
  - destruct (C5_resolve_failures sample_index (sample_conf "zulu" "11"))
      as [H _].
    apply H. reflexivity.
  - destruct (C5_resolve_failures sample_index (sample_conf "temurin" "11"))
      as [_ [H _]].
    destruct (H [EInt 11] eq_refl (sample_plus_free "11")) as [_ H2].
    + rewrite sample_versions. intros [H0|[H0|[]]]; discriminate.
    + rewrite sample_versions. discriminate.
    + apply H2. exists "11.0.1", [EInt 11; EInt 0; EInt 1].
      rewrite sample_versions. repeat split. now left.
  - destruct (C5_resolve_failures sample_index (sample_conf "temurin" "21"))
      as [_ [H _]].
    destruct (H [EInt 21] eq_refl (sample_plus_free "21")) as [H1 _].
    + rewrite sample_versions. intros [H0|[H0|[]]]; discriminate.
    + rewrite sample_versions. discriminate.
    + apply H1. rewrite sample_versions.
      intros c k [<-|[<-|[]]] Hn; vm_compute in Hn; inversion Hn;
        reflexivity.
  - destruct (C5_resolve_failures sample_index (sample_conf "temurin" "x"))
      as [_ [_ [H _]]].
    apply H.
    + rewrite sample_versions. discriminate.
    + reflexivity.
Defined.

(** C5 as stated fails: with versions listed, a specifier that does not
    normalize makes the resolution fail with an exception that is not a
    [LookupError]. *)
Lemma C5_counterexample :
  ~ (forall (index : index_dict) (conf : Configuration) (e : exn),
        resolve_jdk_version index conf = Raise e ->
        isinstance_LookupError e = true).
Proof.
  intro H.
  specialize (H sample_index (sample_conf "temurin" "x")
                (ValueError "Invalid version string: x") eq_refl).
  discriminate.
Qed.

(** ** Statements about [find_home] *)

Lemma resolve_app (fs : node) (p q : path) :
  resolve fs (p ++ q)
  = match resolve fs p with
    | Some n => resolve n q
    | None => None
    end.
Proof.
  revert fs. induction p as [|name p IH]; intro fs; simpl; auto.
  destruct fs as [x|entries]; auto.
  destruct (dict_get String.eqb name entries); auto.
Qed.

Lemma looks_like_java_home_spec (fs : node) (p : path) :
  _looks_like_java_home fs p = is_home_at regular_file fs p.
Proof.
  unfold _looks_like_java_home, is_home_at, is_dir, is_file.
  rewrite !resolve_app.
  destruct (resolve fs p) as [[x|entries]|]; simpl; auto.
  destruct (dict_get String.eqb "bin" entries) as [[x|bin]|]; simpl; auto.
  destruct (dict_get String.eqb "java" bin) as [[x|d]|];
    destruct (dict_get String.eqb "java.exe" bin) as [[y|d']|]; reflexivity.
Qed.

Lemma distinct_get (entries : list (string * node)) (name : string)
  (child : node) :
  distinct (map fst entries) = true ->
  In (name, child) entries ->
  dict_get String.eqb name entries = Some child.
Proof.
  induction entries as [|[n0 c0] entries IH]; simpl; [contradiction|].
  intros Hd [E|Hin].
  - inversion E; subst. now rewrite String.eqb_refl.
  - apply andb_true_iff in Hd as [Hn Hd].
    destruct (String.eqb_spec name n0) as [->|Hne]; auto.
    apply negb_true_iff in Hn.
    assert (Hex : existsb (String.eqb n0) (map fst entries) = true).
    { apply existsb_exists. exists n0. split; [|apply String.eqb_refl].
      apply in_map_iff. now exists (n0, child). }
    congruence.
Qed.

Lemma well_formed_resolve (fs : node) (p : path) (n : node) :
  well_formed fs = true -> resolve fs p = Some n -> well_formed n = true.
Proof.
  revert fs. induction p as [|name p IH]; intros fs Hwf; simpl.
  - intro H; inversion H; now subst.
  - destruct fs as [x|entries]; [discriminate|].
    destruct (dict_get String.eqb name entries) as [child|] eqn:Hg;
      [|discriminate].
    apply IH. simpl in Hwf. apply andb_true_iff in Hwf as [_ Hall].
    rewrite forallb_forall in Hall.
    assert (Hin : In (name, child) entries).
    { clear -Hg. induction entries as [|[n0 c0] entries IHe]; simpl in *;
        [discriminate|].
      destruct (String.eqb_spec name n0) as [->|]; auto.
      inversion Hg; subst; auto. }
    exact (Hall _ Hin).
Qed.

Lemma filter_is_dir (fs : node) (p : path) (entries all : list (string * node)) :
  resolve fs p = Some (Dir all) ->
  (forall e, In e entries ->
             dict_get String.eqb (fst e) all = Some (snd e)) ->
  filter (is_dir fs) (map (fun e => p ++ [fst e]) entries)
  = map (fun e => p ++ [fst e])
      (filter (fun e => is_dir_node (snd e)) entries).
Proof.
  intros Hp. induction entries as [|[name child] entries IH]; intro Hall;
    simpl; auto.
  assert (Hd : is_dir fs (p ++ [name]) = is_dir_node child).
  { pose proof (Hall (name, child) (or_introl eq_refl)) as Hg.
    simpl in Hg. unfold is_dir. rewrite resolve_app, Hp. simpl.
    rewrite Hg. now destruct child. }
  rewrite Hd, IH; [|intros e He; apply Hall; now right].
  now destruct (is_dir_node child).
Qed.

Lemma contains_single_subdir_spec (fs : node) (p : path) :
  well_formed fs = true -> is_dir fs p = true ->
  _contains_single_subdir fs p = Ok (only_subdir fs p)
  /\ forall sub, only_subdir fs p = Some sub -> is_dir fs sub = true.
Proof.
  intros Hwf Hp. unfold _contains_single_subdir, iterdir, only_subdir.
  unfold is_dir in Hp.
  destruct (resolve fs p) as [[x|entries]|] eqn:Hr; try discriminate.
  cbn [bind].
  pose proof (well_formed_resolve _ _ _ Hwf Hr) as Hwe. simpl in Hwe.
  apply andb_true_iff in Hwe as [Hdist _].
  assert (Hget : forall e, In e entries ->
                   dict_get String.eqb (fst e) entries = Some (snd e)).
  { intros [name child] He. now apply distinct_get. }
  rewrite (filter_is_dir fs p entries entries Hr Hget).
  destruct (filter (fun e => is_dir_node (snd e)) entries)
    as [|[name child] [|e2 rest]] eqn:Hf; simpl; split; auto;
    try discriminate.
  intros sub H. inversion H; subst.
  assert (Hin : In (name, child)
                  (filter (fun e => is_dir_node (snd e)) entries))
    by (rewrite Hf; now left).
  apply filter_In in Hin as [Hin Hdir]. simpl in Hdir.
  pose proof (Hget _ Hin) as Hg. simpl in Hg.
  unfold is_dir. rewrite resolve_app, Hr. simpl.
  rewrite Hg. now destruct child.
Qed.

Lemma find_home_depth_spec (fs : node) (budget : nat) (p : path) :
  well_formed fs = true -> is_dir fs p = true ->
  find_home_depth fs p budget = find_home_spec regular_file fs p budget.
Proof.
  intro Hwf. revert p. induction budget as [|budget IH]; intros p Hp; simpl;
    rewrite !looks_like_java_home_spec; unfold macos_extra.
  - reflexivity.
  - destruct (is_home_at regular_file fs p); auto.
    destruct (is_home_at regular_file fs (p ++ ["Contents"; "Home"])); auto.
    destruct (contains_single_subdir_spec fs p Hwf Hp) as [-> Hsub].
    cbn [bind]. destruct (only_subdir fs p) as [sub|]; auto.
Qed.

Lemma find_home_spec_errors (launcher : option node -> bool) (fs : node)
  (budget : nat) (p : path) (e : exn) :
  find_home_spec launcher fs p budget = Raise e ->
  exists q, e = RuntimeError (not_a_home_msg q).
Proof.
  revert p. induction budget as [|budget IH]; intro p; simpl;
    destruct (is_home_at launcher fs p); try discriminate;
    destruct (is_home_at launcher fs (p ++ ["Contents"; "Home"]));
    try discriminate.
  - intro H; inversion H; eauto.
  - destruct (only_subdir fs p) as [sub|]; [apply IH|].
    intro H; inversion H; eauto.
Qed.

(** C4, as amended.  On a tree whose directories have distinctly named
    entries, and for [path] a directory of it, [find_home] follows the
    state machine of the specification with "regular file" in the place
    of "executable file": it returns [path] if [path/bin] is a directory
    holding a regular file [java] or [java.exe]; otherwise
    [path/Contents/Home] if that directory is such a home; otherwise,
    while the budget (2 at the start) is positive and [path] holds
    exactly one subdirectory, it goes on in that subdirectory with the
    budget decremented; in every other case it fails with a
    [RuntimeError] naming the path it stopped at, and with no other
    exception.  The bundle check returns whatever the budget. *)
Theorem C4_find_home :
  forall (fs : node) (p : path),
    well_formed fs = true -> is_dir fs p = true ->
    find_home fs p = find_home_spec regular_file fs p 2
    /\ (forall e, find_home fs p = Raise e ->
                  exists q, e = RuntimeError (not_a_home_msg q))
    /\ (is_home_at regular_file fs p = true ->
        forall depth, find_home_with fs p depth = Ok p)
    /\ (is_home_at regular_file fs p = false ->
        is_home_at regular_file fs (p ++ ["Contents"; "Home"]) = true ->
        forall depth,
          find_home_with fs p depth = Ok (p ++ ["Contents"; "Home"])).
Proof.
  intros fs p Hwf Hp.
  assert (E : forall depth,
             find_home_with fs p depth
             = find_home_spec regular_file fs p (Z.to_nat depth)).
  { intro depth. unfold find_home_with. now apply find_home_depth_spec. }
  split; [apply (E 2)|split; [|split]].
  - intros e He. unfold find_home in He. rewrite (E 2) in He.
    eapply find_home_spec_errors; eauto.
  - intros H depth. rewrite E.
    destruct (Z.to_nat depth); simpl; now rewrite H.
  - intros H1 H2 depth. rewrite E.
    destruct (Z.to_nat depth); simpl; now rewrite H1, H2.
Qed.

Lemma C4_find_home_witness :
  find_home tree_wrapped [] = Ok ["only-child"]
  /\ find_home_with tree_bundle [] 0 = Ok ["Contents"; "Home"]
  /\ find_home tree_deep [] = Raise (RuntimeError (not_a_home_msg ["a"; "b"])).
Proof.
  split; [|split].
  - destruct (C4_find_home tree_wrapped [] eq_refl eq_refl) as [E _].
    rewrite E. reflexivity.
  - destruct (C4_find_home tree_bundle [] eq_refl eq_refl) as [_ [_ [_ H]]].
    apply (H eq_refl eq_refl 0).
  - destruct (C4_find_home tree_deep [] eq_refl eq_refl) as [E _].
    rewrite E. reflexivity.
Defined.

(** C4 as stated, with an executable file required, fails: a [java] that
    is a regular file without the execute permission makes [find_home]
    return the path, where the stated rule goes on and fails. *)
Lemma C4_counterexample :
  ~ (forall (fs : node) (p : path),
        well_formed fs = true -> is_dir fs p = true ->
        find_home fs p = find_home_spec executable_file fs p 2).
Proof.
  intro H. specialize (H tree_plain_file [] eq_refl eq_refl).
  vm_compute in H. discriminate.
Qed.

(** ** Statements about the persisted index *)

Lemma key_ltb_irrefl (a : string * string) : key_ltb a a = false.
Proof. apply str_ltb_irrefl. Qed.

Lemma key_ltb_trans (a b c : string * string) :
  key_ltb a b = true -> key_ltb b c = true -> key_ltb a c = true.
Proof. apply str_ltb_trans. Qed.

Lemma key_ltb_weak (a b c : string * string) :
  key_ltb a b = false -> key_ltb b c = false -> key_ltb a c = false.
Proof.
  unfold key_ltb. apply (total_weak String.ltb str_ltb_trans str_ltb_total).
Qed.

Lemma sorted_strict (l : list (string * string)) :
  NoDup (map fst l) ->
  StronglySorted (not_after key_ltb) l ->
  StronglySorted (fun a b => key_ltb a b = true) l.
Proof.
  intros Hnd. induction 1 as [|x l Hs IH Hall]; constructor.
  - apply IH. now inversion Hnd.
  - inversion Hnd as [|? ? Hnotin Hnd']; subst.
    rewrite Forall_forall in *. intros y Hy. specialize (Hall y Hy).
    unfold not_after, key_ltb in *.
    destruct (str_ltb_total (fst x) (fst y)) as [E|[H|H]]; auto;
      [|congruence].
    exfalso. apply Hnotin. rewrite E. now apply in_map.
Qed.

(** Members with distinct keys come out of the sort in one order, whatever
    order they went in. *)
Lemma sorted_members_unique (l1 l2 : list (string * string)) :
  NoDup (map fst l1) -> Permutation l1 l2 ->
  stable_sort item_lt l1 = stable_sort item_lt l2.
Proof.
  intros Hnd Hp.
  assert (Hs : forall l, NoDup (map fst l) ->
               StronglySorted (fun a b => key_ltb a b = true)
                 (stable_sort item_lt l)).
  { intros l Hl. apply sorted_strict.
    - eapply Permutation_NoDup; [|exact Hl].
      apply Permutation_map. symmetry. apply (stable_sort_perm key_ltb).
    - apply (stable_sort_sorted key_ltb key_ltb_irrefl key_ltb_trans
               key_ltb_weak). }
  apply (strictly_sorted_unique key_ltb key_ltb_irrefl key_ltb_trans).
  - now apply Hs.
  - apply Hs. eapply Permutation_NoDup; [|exact Hnd].
    now apply Permutation_map.
  - rewrite (stable_sort_perm key_ltb l1), (stable_sort_perm key_ltb l2).
    exact Hp.
Qed.

Section DumpFacts.
Context {Float : Type}.
Variable float_repr : Float -> string.

Lemma encode_dict (level : nat) (members : list (string * json Float)) :
  encode float_repr level (JDict members)
  = match members with
    | [] => "{}"%string
    | _ => block "{" "}" level
             (map member_str
                (stable_sort item_lt (map (encode_member float_repr level) members)))
    end.
Proof. reflexivity. Qed.

Lemma encode_list (level : nat) (items : list (json Float)) :
  encode float_repr level (JList items)
  = match items with
    | [] => "[]"%string
    | _ => block "[" "]" level (map (encode float_repr (S level)) items)
    end.
Proof. reflexivity. Qed.

Lemma encode_member_keys (level : nat) (d : list (string * json Float)) :
  map fst (map (encode_member float_repr level) d) = map fst d.
Proof.
  rewrite map_map. apply map_ext. now intros [k v].
Qed.

Lemma json_eq_encode :
  (forall j1 j2 : json Float,
      json_eq j1 j2 ->
      forall level, encode float_repr level j1 = encode float_repr level j2)
  /\ (forall l1 l2 : list (json Float),
         items_eq l1 l2 ->
         forall level,
           map (encode float_repr level) l1 = map (encode float_repr level) l2)
  /\ (forall d1 d2 : list (string * json Float),
         members_eq d1 d2 ->
         forall level,
           map (encode_member float_repr level) d1
           = map (encode_member float_repr level) d2).
Proof.
  apply json_eq_mutual; intros; try reflexivity.
  - rewrite !encode_list. rewrite (H0 (S level)).
    destruct H; reflexivity.
  - rewrite !encode_dict.
    assert (Hs : stable_sort item_lt
                   (map (encode_member float_repr level) d1)
                 = stable_sort item_lt
                     (map (encode_member float_repr level) d2)).
    { apply sorted_members_unique.
      - now rewrite encode_member_keys.
      - rewrite (H1 level). now apply Permutation_map. }
    rewrite Hs.
    destruct d1 as [|m1 d1], d2 as [|m2 d2]; auto.
    + inversion H0; subst. apply Permutation_nil in H2. discriminate.
    + inversion H0; subst. symmetry in H2. apply Permutation_nil in H2.
      discriminate.
  - simpl. now rewrite (H0 level), (H2 level).
  - simpl. now rewrite (H0 (S level)), (H2 level).
Qed.
End DumpFacts.

(** *** The written text is 7-bit and free of carriage returns *)

Lemma str_forall_concat (p : ascii -> bool) (sep : string) (l : list string) :
  str_forall p sep = true -> Forall (fun s => str_forall p s = true) l ->
  str_forall p (String.concat sep l) = true.
Proof.
  intros Hsep. induction 1 as [|s l Hs Hl IH]; simpl; auto.
  destruct l as [|s' l]; auto.
  rewrite !str_forall_app, Hs, Hsep. exact IH.
Qed.

Lemma escape_char_safe (c : ascii) : str_forall safe_char (escape_char c) = true.
Proof.
  destruct c as [b0 b1 b2 b3 b4 b5 b6 b7].
  destruct b0, b1, b2, b3, b4, b5, b6, b7; reflexivity.
Qed.

Lemma escape_safe (s : string) : str_forall safe_char (escape s) = true.
Proof.
  induction s as [|c s IH]; simpl; auto.
  now rewrite str_forall_app, escape_char_safe, IH.
Qed.

Lemma encode_basestring_safe (s : string) :
  str_forall safe_char (encode_basestring_ascii s) = true.
Proof.
  unfold encode_basestring_ascii. cbn [str_forall].
  rewrite str_forall_app, escape_safe. reflexivity.
Qed.

Lemma string_of_uint_safe (d : Decimal.uint) :
  str_forall safe_char (NilEmpty.string_of_uint d) = true.
Proof. induction d; simpl; auto. Qed.

Lemma int_repr_safe (z : Z) : str_forall safe_char (int_repr z) = true.
Proof.
  unfold int_repr, NilZero.string_of_int, NilZero.string_of_uint.
  destruct (Z.to_int z) as [d|d]; destruct d; try reflexivity;
    apply (string_of_uint_safe (_ d)) || idtac;
    cbn [str_forall]; try apply string_of_uint_safe;
    rewrite ?string_of_uint_safe; reflexivity.
Qed.

Lemma indent_safe (level : nat) : str_forall safe_char (indent level) = true.
Proof. induction level; simpl; auto. Qed.

Lemma block_safe (open close : string) (level : nat) (chunks : list string) :
  str_forall safe_char open = true -> str_forall safe_char close = true ->
  Forall (fun s => str_forall safe_char s = true) chunks ->
  str_forall safe_char (block open close level chunks) = true.
Proof.
  intros Ho Hc Hall. unfold block, newline_indent.
  rewrite !str_forall_app, Ho, Hc. cbn [str_forall].
  rewrite !indent_safe. simpl.
  rewrite str_forall_concat; auto.
  cbn [append str_forall]. now rewrite indent_safe.
Qed.

Lemma encode_safe {Float : Type} (float_repr : Float -> string) :
  (forall f, str_forall safe_char (float_repr f) = true) ->
  forall (j : json Float) (level : nat),
    str_forall safe_char (encode float_repr level j) = true.
Proof.
  intros Hf j. induction j using json_induction; intro level.
  - reflexivity.
  - now destruct b.
  - apply int_repr_safe.
  - apply Hf.
  - apply encode_basestring_safe.
  - rewrite encode_list. destruct items as [|x items]; [reflexivity|].
    apply block_safe; auto.
    apply Forall_map. eapply Forall_impl; [|exact H]. auto.
  - rewrite encode_dict. destruct members as [|m members]; [reflexivity|].
    apply block_safe; auto.
    apply Forall_map.
    eapply Permutation_Forall;
      [symmetry; apply (stable_sort_perm key_ltb)|].
    apply Forall_map. eapply Forall_impl; [|exact H].
    intros [k v] Hv. cbn [snd] in Hv.
    unfold member_str, encode_member. cbn [fst snd].
    rewrite !str_forall_app, encode_basestring_safe, Hv. reflexivity.
Qed.

(** *** The layout of the written text *)

Lemma indent_blanks (level : nat) : indent level = blanks (2 * level).
Proof.
  induction level as [|level IH]; [reflexivity|].
  replace (2 * S level)%nat with (S (S (2 * level))) by lia.
  cbn [indent blanks append]. now rewrite IH.
Qed.

Lemma render_lines_cons (l : text_line) (ls : list text_line) :
  ls <> [] ->
  render_lines (l :: ls)
  = (render_line l ++ String newline (render_lines ls))%string.
Proof.
  unfold render_lines. destruct ls as [|l' ls]; [congruence|]. reflexivity.
Qed.

Lemma render_lines_app (ls1 ls2 : list text_line) :
  ls1 <> [] -> ls2 <> [] ->
  render_lines (ls1 ++ ls2)
  = (render_lines ls1 ++ String newline (render_lines ls2))%string.
Proof.
  intros H1 H2. induction ls1 as [|l ls1 IH]; [congruence|].
  destruct ls1 as [|l' ls1].
  - cbn [app]. rewrite render_lines_cons by assumption.
    unfold render_lines at 2. reflexivity.
  - cbn [app] in *. rewrite render_lines_cons by discriminate.
    rewrite IH by discriminate.
    rewrite (render_lines_cons l) by discriminate.
    now rewrite str_app_assoc.
Qed.

Lemma stable_sort_map {A B : Type} (g : A -> B)
  (ltA : A -> A -> result bool) (ltB : B -> B -> result bool) (l : list A) :
  (forall x y, is_lt ltB (g x) (g y) = is_lt ltA x y) ->
  stable_sort ltB (map g l) = map g (stable_sort ltA l).
Proof.
  intro H.
  assert (Hins : forall x acc,
             insert ltB (g x) (map g acc) = map g (insert ltA x acc)).
  { intros x acc. induction acc as [|y acc IH]; [reflexivity|].
    cbn [map insert]. rewrite H. destruct (is_lt ltA x y); [reflexivity|].
    cbn [map]. now rewrite IH. }
  unfold stable_sort. change (@nil B) with (map g []).
  generalize (@nil A). induction l as [|x l IH]; intro acc; [reflexivity|].
  cbn [map fold_left]. rewrite Hins. apply IH.
Qed.

Section Canonical.
Context {Float : Type}.
Variable float_repr : Float -> string.

Lemma scalar_laid_out (j : json Float) (t : string) :
  scalar_text float_repr j = Some t ->
  (forall d, encode float_repr d j = t) -> laid_out float_repr j.
Proof.
  intros Ht He d before after. exists [(d, before ++ t ++ after)%string].
  split; [now constructor|]. split; [discriminate|].
  rewrite He. reflexivity.
Qed.

Lemma items_laid_out (d : nat) (items : list (json Float)) :
  Forall (laid_out float_repr) items -> items <> [] ->
  exists ls,
    canonical_items float_repr d items ls
    /\ ls <> []
    /\ render_lines ls
       = (indent d
          ++ String.concat ("," ++ newline_indent d)
               (map (encode float_repr d) items))%string.
Proof.
  induction 1 as [|j items Hj Hitems IH]; [congruence|]. intros _.
  destruct items as [|j' items].
  - destruct (Hj d "" "") as [ls [Hc [Hne E]]].
    exists ls. split; [now constructor|]. split; [assumption|].
    rewrite E, indent_blanks. cbn [map String.concat append].
    now rewrite str_app_empty.
  - destruct (Hj d "" ",") as [ls [Hc [Hne E]]].
    destruct (IH ltac:(discriminate)) as [ls' [Hc' [Hne' E']]].
    exists (ls ++ ls'). split; [now constructor|]. split.
    + destruct ls; [congruence|discriminate].
    + rewrite render_lines_app by assumption. rewrite E, E', indent_blanks.
      cbn [map String.concat append]. unfold newline_indent.
      rewrite indent_blanks.
      rewrite !str_app_assoc. reflexivity.
Qed.

Lemma members_laid_out (d : nat) (members : list (string * json Float)) :
  Forall (fun kv => laid_out float_repr (snd kv)) members -> members <> [] ->
  exists ls,
    canonical_members float_repr d members ls
    /\ ls <> []
    /\ render_lines ls
       = (indent d
          ++ String.concat ("," ++ newline_indent d)
               (map (fun kv => (key_text (fst kv)
                                ++ encode float_repr d (snd kv))%string)
                  members))%string.
Proof.
  induction 1 as [|[k j] members Hj Hmembers IH]; [congruence|]. intros _.
  cbn [snd] in Hj. destruct members as [|m members].
  - destruct (Hj d (key_text k) "") as [ls [Hc [Hne E]]].
    exists ls. split; [now constructor|]. split; [assumption|].
    rewrite E, indent_blanks. cbn [map String.concat append fst snd].
    now rewrite str_app_empty.
  - destruct (Hj d (key_text k) ",") as [ls [Hc [Hne E]]].
    destruct (IH ltac:(discriminate)) as [ls' [Hc' [Hne' E']]].
    exists (ls ++ ls'). split; [now constructor|]. split.
    + destruct ls; [congruence|discriminate].
    + rewrite render_lines_app by assumption. rewrite E, E', indent_blanks.
      cbn [map String.concat append fst snd]. unfold newline_indent.
      rewrite indent_blanks.
      rewrite !str_app_assoc. reflexivity.
Qed.

Lemma block_lines (d : nat) (before after open close : string)
  (ls : list text_line) (chunks : list string) :
  ls <> [] ->
  render_lines ls
  = (indent (S d) ++ String.concat ("," ++ newline_indent (S d)) chunks)%string ->
  render_lines ((d, before ++ open)%string :: ls ++ [(d, close ++ after)%string])
  = (blanks (2 * d) ++ before ++ block open close d chunks ++ after)%string.
Proof.
  intros Hne E.
  rewrite render_lines_cons by (destruct ls; discriminate).
  rewrite render_lines_app by (assumption || discriminate).
  rewrite E. unfold render_lines at 1, render_line, block, newline_indent.
  cbn [map String.concat fst snd]. rewrite <- indent_blanks.
  rewrite !str_app_assoc. cbn [append]. rewrite ?str_app_assoc.
  reflexivity.
Qed.

Lemma encode_laid_out (j : json Float) : laid_out float_repr j.
Proof.
  induction j as [| b | z | f | s | items IH | members IH]
    using json_induction.
  - now apply (scalar_laid_out _ "null").
  - now apply (scalar_laid_out _ (if b then "true" else "false")).
  - now apply (scalar_laid_out _ (int_repr z)).
  - now apply (scalar_laid_out _ (float_repr f)).
  - now apply (scalar_laid_out _ (encode_basestring_ascii s)).
  - intros d before after. destruct items as [|j items].
    + exists [(d, before ++ "[]" ++ after)%string].
      split; [apply cn_empty_list|]. split; [discriminate|reflexivity].
    + destruct (items_laid_out (S d) (j :: items) IH ltac:(discriminate))
        as [ls [Hc [Hne E]]].
      exists ((d, before ++ "[")%string :: ls ++ [(d, "]" ++ after)%string]).
      split; [now apply cn_list|]. split; [discriminate|].
      rewrite encode_list. now apply block_lines.
  - intros d before after. destruct members as [|m members].
    + exists [(d, before ++ "{}" ++ after)%string].
      split; [apply cn_empty_dict|]. split; [discriminate|reflexivity].
    + set (ms := m :: members) in *.
      set (sorted := stable_sort (@member_lt (json Float)) ms).
      assert (Hperm : Permutation sorted ms)
        by apply (stable_sort_perm (fun a b => String.ltb (fst a) (fst b))).
      assert (Hsn : sorted <> []).
      { intro E0. rewrite E0 in Hperm. apply Permutation_nil in Hperm.
        discriminate. }
      assert (Hall : Forall (fun kv => laid_out float_repr (snd kv)) sorted).
      { eapply Permutation_Forall; [symmetry; exact Hperm|exact IH]. }
      destruct (members_laid_out (S d) sorted Hall Hsn) as [ls [Hc [Hne E]]].
      exists ((d, before ++ "{")%string :: ls ++ [(d, "}" ++ after)%string]).
      split.
      * apply cn_dict with (sorted := sorted); auto.
        -- now symmetry.
        -- apply (stable_sort_sorted (fun a b : string * json Float =>
                                         String.ltb (fst a) (fst b))).
           ++ intro x. apply str_ltb_irrefl.
           ++ intros x y z. apply str_ltb_trans.
           ++ intros x y z.
              apply (total_weak String.ltb str_ltb_trans str_ltb_total).
      * split; [discriminate|].
        rewrite encode_dict. fold ms.
        assert (Hs : stable_sort item_lt (map (encode_member float_repr d) ms)
                     = map (encode_member float_repr d) sorted).
        { apply stable_sort_map. now intros [k1 v1] [k2 v2]. }
        change (match ms with
                | [] => "{}"%string
                | _ :: _ =>
                    block "{" "}" d
                      (map member_str
                         (stable_sort item_lt
                            (map (encode_member float_repr d) ms)))
                end)
          with (block "{" "}" d
                  (map member_str
                     (stable_sort item_lt
                        (map (encode_member float_repr d) ms)))).
        rewrite Hs, map_map. apply block_lines; [assumption|].
        rewrite E. do 2 f_equal. apply map_ext. intros [k v].
        unfold member_str, encode_member, key_text. cbn [fst snd].
        now rewrite str_app_assoc.
Qed.
End Canonical.

Lemma fetch_index_dump {Float : Type} (float_repr : Float -> string)
  (conf : Configuration) (scheme : string) (r : Response Float)
  (j : json Float) (f : string) :
  json_body r = Ok j ->
  _fetch_index float_repr conf scheme r = Ok f ->
  f = encode float_repr 0 j.
Proof.
  intro Hb. unfold _fetch_index. rewrite Hb.
  destruct (_ && _); [discriminate|].
  destruct (negb (status_ok r)); [discriminate|].
  destruct (negb (isascii (text r))); [discriminate|].
  cbn [bind]. unfold json_dump. destruct (printable j); [|discriminate].
  intro H; now inversion H.
Qed.

(** C8, as amended.  Two runs whose bodies parse to the same document,
    the members of every object taken as a set whatever the order in which
    they arrived, write the same text.  The text is the document in
    canonical lines: the keys of every object in ascending order, two
    blanks of indentation for each level of nesting, the lines separated
    by a line feed alone.  As long as floats print in 7-bit characters it
    holds 7-bit characters only and no carriage return. *)
Theorem C8_persisted_index_deterministic :
  forall (Float : Type) (float_repr : Float -> string)
         (conf1 conf2 : Configuration) (scheme1 scheme2 : string)
         (r1 r2 : Response Float) (j1 j2 : json Float) (f1 f2 : string),
    json_body r1 = Ok j1 -> json_body r2 = Ok j2 ->
    json_eq j1 j2 ->
    _fetch_index float_repr conf1 scheme1 r1 = Ok f1 ->
    _fetch_index float_repr conf2 scheme2 r2 = Ok f2 ->
    f1 = f2
    /\ (exists ls,
           canonical float_repr 0 "" j1 "" ls /\ f1 = render_lines ls)
    /\ ((forall f, str_forall safe_char (float_repr f) = true) ->
        str_forall safe_char f1 = true).
Proof.
  intros Float float_repr conf1 conf2 scheme1 scheme2 r1 r2 j1 j2 f1 f2
    Hb1 Hb2 Heq H1 H2.
  rewrite (fetch_index_dump _ _ _ _ _ _ Hb1 H1),
    (fetch_index_dump _ _ _ _ _ _ Hb2 H2).
  split; [|split].
  - now apply (proj1 (json_eq_encode float_repr)).
  - destruct (encode_laid_out float_repr j1 O "" "") as [ls [Hc [_ E]]].
    exists ls. split; [exact Hc|]. rewrite E. cbn [blanks Nat.mul append].
    now rewrite str_app_empty.
  - intro Hf. now apply encode_safe.
Qed.

Lemma sample_docs_equal : json_eq sample_doc_1 sample_doc_2.
Proof.
  unfold sample_doc_1, sample_doc_2.
  apply je_dict with
    (d := [("linux",
            JDict [("arm64", JStr sample_value); ("x64", JStr "u")]);
           ("darwin", JList [JInt 1; JNull])]).
  - repeat constructor; simpl; intuition discriminate.
  - constructor.
    + apply je_dict
        with (d := [("x64", JStr "u"); ("arm64", JStr sample_value)]).
      * repeat constructor; simpl; intuition discriminate.
      * repeat constructor.
      * apply perm_swap.
    + constructor; [|constructor].
      constructor. repeat constructor.
  - apply perm_swap.
Qed.

Lemma C8_persisted_index_deterministic_witness :
  exists f,
    _fetch_index sample_float_repr (sample_conf "temurin" "11") "https"
      sample_response_1 = Ok f
    /\ _fetch_index sample_float_repr (sample_conf "zulu" "17") "https"
         sample_response_2 = Ok f
    /\ f = render_lines
             [(0, "{"); (1, quoted [""; "darwin"; ": ["]);
              (2, "1,"); (2, "null"); (1, "],");
              (1, quoted [""; "linux"; ": {"]);
              (2, quoted [""; "arm64"; ": "; "v\\w\u00e9\t"; ","]);
              (2, quoted [""; "x64"; ": "; "u"; ""]);
              (1, "}"); (0, "}")]%nat
    /\ str_forall safe_char f = true.
Proof.
  exists (encode sample_float_repr 0 sample_doc_1).
  destruct (C8_persisted_index_deterministic unit sample_float_repr
              (sample_conf "temurin" "11") (sample_conf "zulu" "17")
              "https" "https" sample_response_1 sample_response_2
              sample_doc_1 sample_doc_2
              (encode sample_float_repr 0 sample_doc_1)
              (encode sample_float_repr 0 sample_doc_2)
              eq_refl eq_refl sample_docs_equal eq_refl eq_refl)
    as [E [_ Hsafe]].
  split; [reflexivity|split; [|split]].
  - rewrite E. reflexivity.
  - vm_compute. reflexivity.
  - apply Hsafe. intros []. reflexivity.
Defined.

(** C8 as stated, with equal documents read as Python compares them,
    fails: the bodies [[1, 0]] and [[true, 0.0]] parse to documents that
    [==] finds equal, and are written as different texts. *)
Lemma C8_counterexample :
  ~ (forall (conf1 conf2 : Configuration) (scheme1 scheme2 : string)
            (r1 r2 : Response unit) (j1 j2 : json unit) (f1 f2 : string),
        json_body r1 = Ok j1 -> json_body r2 = Ok j2 ->
        py_eq sample_float_eq sample_float_eq_int j1 j2 = true ->
        _fetch_index sample_float_repr conf1 scheme1 r1 = Ok f1 ->
        _fetch_index sample_float_repr conf2 scheme2 r2 = Ok f2 ->
        f1 = f2).
Proof.
  intro H.
  specialize (H (sample_conf "temurin" "11") (sample_conf "temurin" "11")
                "https" "https" response_ints response_mixed
                _ _ _ _ eq_refl eq_refl eq_refl eq_refl eq_refl).
  vm_compute in H. discriminate.
Qed.

Example dump_layout :
  let q := String (ascii_of_nat 34) "" in
  json_dump (fun _ : unit => "")
    (JDict [("b", JDict [("x", JStr "a\"); ("a", JList [])]);
            ("a", JList [JInt 1; JDict []; JList [JBool true; JNull]])])
  = Ok (String.concat (String (ascii_of_nat 10) "")
      ["{";
       "  " ++ q ++ "a" ++ q ++ ": [";
       "    1,";
       "    {},";
       "    [";
       "      true,";
       "      null";
       "    ]";
       "  ],";
       "  " ++ q ++ "b" ++ q ++ ": {";
       "    " ++ q ++ "a" ++ q ++ ": [],";
       "    " ++ q ++ "x" ++ q ++ ": " ++ q ++ "a\\" ++ q;
       "  }";
       "}"])%string.
Proof. vm_compute. reflexivity. Qed.

(** ** Further properties of the matcher *)

Lemma scan_sound (d : list (key * string)) (normreq : key) (msg : string)
  (keys : list key) (c : string) :
  scan_normcands d normreq msg keys = Ok c ->
  exists k,
    _is_version_compatible_with_spec k normreq = Ok true
    /\ dict_get tuple_eqb k d = Some c.
Proof.
  induction keys as [|k keys IH]; simpl; [discriminate|].
  destruct (_is_version_compatible_with_spec k normreq) as [[|]|] eqn:Hc;
    cbn [bind]; try discriminate.
  - destruct (dict_get tuple_eqb k d) as [c'|] eqn:Hg; [|discriminate].
    intro H; inversion H; subst. eauto.
  - destruct (tuple_gt k normreq) as [[|]|]; cbn [bind]; try discriminate.
    exact IH.
Qed.

Lemma collect_sound (f : bool) (cands : list string)
  (d : list (key * string)) (w : list string) (k : key) (c : string) :
  dict_get tuple_eqb k (fst (collect_normcands f cands d w)) = Some c ->
  dict_get tuple_eqb k d = Some c
  \/ (In c cands /\ _normalize_version c f = Ok k).
Proof.
  revert d w. induction cands as [|c0 cands IH]; intros d w; simpl; auto.
  destruct (_normalize_version c0 f) as [k0|e] eqn:E; intro H.
  - destruct (IH _ _ H) as [Hd|[Hin Hn]]; [|auto].
    rewrite (dict_get_set tuple_eqb tuple_eqb_eq) in Hd.
    destruct (tuple_eqb k0 k) eqn:Ek; auto.
    apply tuple_eqb_eq in Ek. subst k0. inversion Hd; subst. auto.
  - destruct (IH _ _ H) as [Hd|[Hin Hn]]; auto.
Qed.

Lemma match_version_sound (vendor : string) (cands : list string)
  (req c : string) :
  _match_version vendor cands req = Ok c ->
  In c cands
  /\ exists normreq k,
      _normalize_version req (negb (is_graal vendor)) = Ok normreq
      /\ _normalize_version c (negb (is_graal vendor)) = Ok k
      /\ _is_version_compatible_with_spec k normreq = Ok true.
Proof.
  unfold _match_version.
  destruct (_normalize_version req _) as [normreq|e] eqn:Hreq;
    cbn [bind]; [|discriminate].
  destruct (py_sorted _ _ _) as [keys|e]; cbn [bind]; [|discriminate].
  intro H. apply scan_sound in H as [k [Hc Hg]].
  apply collect_sound in Hg as [Hg|[Hin Hn]]; [discriminate|].
  split; auto. exists normreq, k. auto.
Qed.

(** X1.  Whatever the matcher returns is one of the candidates, and its
    key is compatible with the normalized request; this holds for every
    list of candidates. *)
Theorem X1_match_sound :
  forall (vendor : string) (cands : list string) (req c : string),
    _match_version vendor cands req = Ok c ->
    In c cands
    /\ exists normreq k,
        _normalize_version req (negb (is_graal vendor)) = Ok normreq
        /\ _normalize_version c (negb (is_graal vendor)) = Ok k
        /\ _is_version_compatible_with_spec k normreq = Ok true.
Proof.
  intros vendor cands req c. unfold _match_version.
  destruct (_normalize_version req _) as [normreq|e] eqn:Hreq;
    cbn [bind]; [|discriminate].
  destruct (py_sorted _ _ _) as [keys|e]; cbn [bind]; [|discriminate].
  intro H. apply scan_sound in H as [k [Hc Hg]].
  apply collect_sound in Hg as [Hg|[Hin Hn]]; [discriminate|].
  split; auto. exists normreq, k. auto.
Qed.

Lemma X1_match_sound_witness :
  In "17.0.2" ["8.0.1"; "17.0.2"; "17.0.1"]
  /\ exists normreq k,
      _normalize_version "17" (negb (is_graal "temurin")) = Ok normreq
      /\ _normalize_version "17.0.2" (negb (is_graal "temurin")) = Ok k
      /\ _is_version_compatible_with_spec k normreq = Ok true.
Proof.
  apply (X1_match_sound "temurin" ["8.0.1"; "17.0.2"; "17.0.1"] "17").
  reflexivity.
Defined.

Lemma collect_filter (f : bool) (cands : list string)
  (d : list (key * string)) (w : list string) :
  collect_normcands f cands d w
  = (fst (collect_normcands f (filter (normalizes f) cands) d []),
     w ++ map skipped_msg (filter (fun c => negb (normalizes f c)) cands)).
Proof.
  revert d w. induction cands as [|c cands IH]; intros d w.
  - simpl. now rewrite app_nil_r.
  - cbn [collect_normcands filter].
    destruct (_normalize_version c f) as [k|e] eqn:E.
    + assert (Hn : normalizes f c = true) by (unfold normalizes; now rewrite E).
      rewrite Hn. cbn [negb collect_normcands]. rewrite E. apply IH.
    + assert (Hn : normalizes f c = false)
        by (unfold normalizes; now rewrite E).
      rewrite Hn. cbn [negb map]. rewrite IH. f_equal.
      now rewrite <- app_assoc.
Qed.

Lemma filter_idem {A : Type} (p : A -> bool) (l : list A) :
  filter p (filter p l) = filter p l.
Proof.
  induction l as [|x l IH]; simpl; auto.
  destruct (p x) eqn:E; simpl; [rewrite E|]; now rewrite ?IH.
Qed.

(** X2.  A candidate that fails to normalize has no part in the result:
    the matcher returns, or raises, what it does on the list without such
    candidates. *)
Theorem X2_invalid_candidates_ignored :
  forall (vendor : string) (cands : list string) (req : string),
    _match_version vendor cands req
    = _match_version vendor
        (filter (normalizes (negb (is_graal vendor))) cands) req.
Proof.
  intros vendor cands req. unfold _match_version.
  rewrite (collect_filter _ cands). cbn [fst].
  rewrite (collect_filter _ (filter _ cands)). cbn [fst].
  now rewrite filter_idem.
Qed.

(** X3.  When the request normalizes, the matcher calls [warnings.warn]
    once for each candidate that fails to normalize, in the order of the
    candidates, with the candidate in the text, and for no other candidate,
    whatever the matching then returns or raises.  When the request does
    not normalize, its [ValueError] is raised before any candidate is
    looked at, and there is no warning at all. *)
Theorem X3_one_warning_per_skipped_candidate :
  forall (vendor : string) (cands : list string) (req : string),
    match _normalize_version req (negb (is_graal vendor)) with
    | Ok _ =>
        _match_version_warnings vendor cands req
        = map skipped_msg
            (filter (fun c => negb (normalizes (negb (is_graal vendor)) c))
               cands)
    | Raise e =>
        _match_version_warnings vendor cands req = []
        /\ _match_version vendor cands req = Raise e
        /\ exists msg, e = ValueError msg
    end.
Proof.
  intros vendor cands req. unfold _match_version_warnings, _match_version.
  destruct (_normalize_version req (negb (is_graal vendor))) as [k|e] eqn:E.
  - now rewrite collect_filter.
  - repeat split. eexists. eapply normalize_only_ValueError. exact E.
Qed.

Lemma compat_rec_refl (s : list Z) (open_ended : bool) :
  compat_rec s s open_ended = true.
Proof.
  induction s as [|x s IH]; [reflexivity|].
  destruct s as [|y s].
  - simpl. destruct open_ended; [rewrite Z.geb_leb; apply Z.leb_refl|].
    apply Z.eqb_refl.
  - rewrite compat_rec_cons, IH, Z.eqb_refl. reflexivity.
Qed.

Lemma compat_rec_open (v s : list Z) :
  compat_rec v s false = true -> compat_rec v s true = true.
Proof.
  revert v. induction s as [|x s IH]; intro v; [reflexivity|].
  destruct v as [|y v]; [discriminate|].
  destruct s as [|x' s].
  - simpl. intro H. apply Z.eqb_eq in H. subst.
    rewrite Z.geb_leb. apply Z.leb_refl.
  - rewrite !compat_rec_cons. intro H.
    apply andb_true_iff in H as [H1 H2]. now rewrite H1, IH.
Qed.

Lemma compat_rec_app (v w s : list Z) (open_ended : bool) :
  compat_rec v s open_ended = true ->
  compat_rec (v ++ w) s open_ended = true.
Proof.
  revert v. induction s as [|x s IH]; intro v; [reflexivity|].
  destruct v as [|y v]; [discriminate|].
  destruct s as [|x' s]; [exact (fun H => H)|].
  change ((y :: v) ++ w) with (y :: (v ++ w)).
  rewrite !compat_rec_cons. intro H.
  apply andb_true_iff in H as [H1 H2]. now rewrite H1, IH.
Qed.

Lemma spec_key_ints (s vc : list Z) (open_ended : bool) :
  spec_key s open_ended = map EInt vc -> open_ended = false /\ s = vc.
Proof.
  unfold spec_key. destruct open_ended; intro H.
  - exfalso.
    assert (E : existsb (elem_eqb EPlus) (map EInt s ++ [EPlus]) = true).
    { rewrite existsb_app. simpl. now rewrite orb_true_r. }
    rewrite H, no_plus_in_ints in E. discriminate.
  - split; auto. rewrite app_nil_r in H.
    apply tuple_eqb_ints. now apply tuple_eqb_eq.
Qed.

(** X4.  Asking for a version by the very string of a listed candidate
    never fails, provided no accepted candidate key carries the marker:
    the matcher returns a candidate whose key is not below the key of the
    one asked for. *)
Theorem X4_listed_version_is_found :
  forall (vendor : string) (cands : list string) (c : string) (k : key),
    plus_free_candidates (negb (is_graal vendor)) cands ->
    In c cands ->
    _normalize_version c (negb (is_graal vendor)) = Ok k ->
    exists m km,
      _match_version vendor cands c = Ok m
      /\ In m cands
      /\ _normalize_version m (negb (is_graal vendor)) = Ok km
      /\ tuple_lt km k = Ok false.
Proof.
  intros vendor cands c k Hfree Hin Hn.
  destruct (ints_of_key_plus_free k (Hfree c k Hin Hn)) as [vc ->].
  rewrite (match_version_full_scan _ _ _ _ Hn Hfree).
  pose proof (full_scan_best (negb (is_graal vendor)) (map EInt vc) cands)
    as HB.
  assert (Hok : compat_ok (map EInt vc) (map EInt vc) = true).
  { rewrite <- (spec_key_closed vc) at 2. rewrite compat_ok_rec.
    apply compat_rec_refl. }
  assert (Hk : cand_key (negb (is_graal vendor)) c = Some vc)
    by now apply cand_key_normalize.
  destruct (full_scan _ (map EInt vc) cands) as [[bv bc]|];
    unfold is_best in HB.
  - destruct HB as [H1 [H2 [_ [_ H5]]]].
    exists bc, (map EInt bv). repeat split; auto.
    + now apply cand_key_normalize.
    + rewrite tuple_lt_ints. f_equal. apply (H5 c vc Hin Hk). exact Hok.
  - rewrite (HB c vc Hin Hk) in Hok. discriminate.
Qed.

Lemma X4_listed_version_is_found_witness :
  exists m km,
    _match_version "temurin" ["11"; "11.0.9"; "17.0.2"] "11" = Ok m
    /\ In m ["11"; "11.0.9"; "17.0.2"]
    /\ _normalize_version m (negb (is_graal "temurin")) = Ok km
    /\ tuple_lt km [EInt 11] = Ok false.
Proof.
  apply (X4_listed_version_is_found "temurin" ["11"; "11.0.9"; "17.0.2"]
           "11" [EInt 11]).
  - intros c k [<-|[<-|[<-|[]]]] H; vm_compute in H; inversion H;
      reflexivity.
  - now left.
  - reflexivity.
Defined.

Lemma endswith_snoc (s : string) (c : ascii) :
  endswith_char (s ++ String c "") c = true.
Proof.
  induction s as [|a s IH]; simpl; [apply Ascii.eqb_refl|].
  destruct (s ++ String c "")%string eqn:E; auto.
  destruct s; discriminate.
Qed.

Lemma str_init_snoc (s : string) (c : ascii) :
  str_init (s ++ String c "") = s.
Proof.
  induction s as [|a s IH]; simpl; auto.
  destruct (s ++ String c "")%string eqn:E.
  - destruct s; discriminate.
  - now rewrite IH.
Qed.

Lemma normalize_with_plus (req : string) (f : bool) (s : list Z) :
  endswith_char req "+" = false ->
  _normalize_version req f = Ok (spec_key s false) ->
  _normalize_version (req ++ "+") f = Ok (spec_key s true).
Proof.
  intros He Hn.
  pose proof (normalize_by_parts req f) as H1.
  pose proof (normalize_by_parts (req ++ "+") f) as H2.
  rewrite Hn in H1. unfold version_body in H1, H2.
  rewrite He in H1. rewrite endswith_snoc, str_init_snoc in H2.
  unfold normalize_parts in H1, H2. simpl key_of in H1.
  destruct (if str_nonempty req then ints_of (re_split req) else Some [])
    as [norm|]; [|discriminate].
  destruct (_normalize_version (req ++ "+") f) as [k|e];
    simpl key_of in H2.
  - f_equal. unfold spec_key in *. rewrite app_nil_r in H1.
    destruct norm as [|n0 norm1].
    + inversion H1 as [E]. inversion H2. now rewrite E.
    + destruct (f && elem_eqb n0 (EInt 1)).
      * inversion H1 as [E]. inversion H2. rewrite app_nil_r in E.
        now rewrite E.
      * inversion H1 as [E]. inversion H2. rewrite app_nil_r in E.
        now rewrite E.
  - destruct norm as [|n0 norm1]; [discriminate|].
    destruct (f && elem_eqb n0 (EInt 1)); discriminate.
Qed.

(** X5.  Appending "+" to a request never loses a match: if the matcher
    finds a candidate for a request without the marker, it finds one for
    the open-ended request too, with a key that is not below (candidates
    whose accepted keys carry no marker). *)
Theorem X5_open_ended_request_keeps_matches :
  forall (vendor : string) (cands : list string) (req m : string),
    endswith_char req "+" = false ->
    plus_free_candidates (negb (is_graal vendor)) cands ->
    _match_version vendor cands req = Ok m ->
    exists m' k k',
      _match_version vendor cands (req ++ "+") = Ok m'
      /\ _normalize_version m (negb (is_graal vendor)) = Ok k
      /\ _normalize_version m' (negb (is_graal vendor)) = Ok k'
      /\ tuple_lt k' k = Ok false.
Proof.
  intros vendor cands req m He Hfree Hm.
  set (f := negb (is_graal vendor)) in *.
  destruct (_normalize_version req f) as [normreq|e] eqn:Hreq.
  2: { unfold _match_version in Hm. fold f in Hm. rewrite Hreq in Hm.
       discriminate. }
  destruct (normalize_shape _ _ _ Hreq) as [s [Hs _]].
  rewrite He in Hs. subst normreq.
  pose proof (normalize_with_plus _ _ _ He Hreq) as Hplus.
  rewrite (match_version_full_scan _ _ _ _ Hreq Hfree) in Hm.
  rewrite (match_version_full_scan _ _ _ _ Hplus Hfree).
  pose proof (full_scan_best f (spec_key s false) cands) as HB.
  pose proof (full_scan_best f (spec_key s true) cands) as HB'.
  fold f in Hm.
  destruct (full_scan f (spec_key s false) cands) as [[bv bc]|];
    [|discriminate].
  inversion Hm; subst bc. simpl in HB.
  destruct HB as [H1 [H2 [H3 _]]]. rewrite compat_ok_rec in H3.
  fold f.
  destruct (full_scan f (spec_key s true) cands) as [[bv' bc']|];
    simpl in HB'.
  - destruct HB' as [H1' [H2' [_ [_ H5']]]].
    exists bc', (map EInt bv), (map EInt bv'). repeat split.
    + now apply cand_key_normalize.
    + now apply cand_key_normalize.
    + rewrite tuple_lt_ints. f_equal. apply (H5' m bv H1 H2).
      rewrite compat_ok_rec. now apply compat_rec_open.
  - specialize (HB' m bv H1 H2). rewrite compat_ok_rec in HB'.
    rewrite (compat_rec_open _ _ H3) in HB'. discriminate.
Qed.

Lemma X5_open_ended_request_keeps_matches_witness :
  exists m' k k',
    _match_version "temurin" ["11.0.9"; "17.0.2"] ("11" ++ "+") = Ok m'
    /\ _normalize_version "11.0.9" (negb (is_graal "temurin")) = Ok k
    /\ _normalize_version m' (negb (is_graal "temurin")) = Ok k'
    /\ tuple_lt k' k = Ok false.
Proof.
  apply (X5_open_ended_request_keeps_matches "temurin" ["11.0.9"; "17.0.2"]
           "11" "11.0.9").
  - reflexivity.
  - intros c k [<-|[<-|[]]] H; vm_compute in H; inversion H; reflexivity.
  - reflexivity.
Defined.

(** X6.  A candidate key that is compatible with a spec stays compatible
    when further components are appended to it. *)
Theorem X6_longer_candidate_stays_compatible :
  forall (v w s : list Z) (open_ended : bool),
    _is_version_compatible_with_spec (map EInt v) (spec_key s open_ended)
    = Ok true ->
    _is_version_compatible_with_spec (map EInt (v ++ w))
      (spec_key s open_ended) = Ok true.
Proof.
  intros v w s oe. rewrite !compat_code_rec. intro H.
  f_equal. apply compat_rec_app. now inversion H.
Qed.

Lemma X6_longer_candidate_stays_compatible_witness :
  _is_version_compatible_with_spec (map EInt ([11; 2] ++ [0; 7]))
    (spec_key [11; 1] true) = Ok true.
Proof.
  apply X6_longer_candidate_stays_compatible. reflexivity.
Defined.

(** X7.  When no two candidates normalize to the same key, the order in
    which the candidates are listed has no effect on what the matcher
    returns or raises (candidates whose accepted keys carry no marker). *)
Theorem X7_order_of_candidates_irrelevant :
  forall (vendor : string) (cands cands' : list string) (req : string),
    plus_free_candidates (negb (is_graal vendor)) cands ->
    Permutation cands cands' ->
    (forall c1 c2 k,
        In c1 cands -> In c2 cands ->
        _normalize_version c1 (negb (is_graal vendor)) = Ok k ->
        _normalize_version c2 (negb (is_graal vendor)) = Ok k ->
        c1 = c2) ->
    _match_version vendor cands req = _match_version vendor cands' req.
Proof.
  intros vendor cands cands' req Hfree Hp Hinj.
  set (f := negb (is_graal vendor)) in *.
  destruct (_normalize_version req f) as [normreq|e] eqn:Hreq.
  2: { unfold _match_version. fold f. now rewrite Hreq. }
  assert (Hfree' : plus_free_candidates f cands').
  { intros c k Hin. apply Hfree.
    eapply Permutation_in; [symmetry; exact Hp|exact Hin]. }
  rewrite (match_version_full_scan _ _ _ _ Hreq Hfree).
  rewrite (match_version_full_scan _ _ _ _ Hreq Hfree').
  fold f.
  pose proof (full_scan_best f normreq cands) as HB.
  pose proof (full_scan_best f normreq cands') as HB'.
  assert (Hin' : forall c, In c cands' -> In c cands).
  { intros c Hc. eapply Permutation_in; [symmetry; exact Hp|exact Hc]. }
  assert (Hin : forall c, In c cands -> In c cands').
  { intros c Hc. eapply Permutation_in; [exact Hp|exact Hc]. }
  destruct (full_scan f normreq cands) as [[v c]|];
    destruct (full_scan f normreq cands') as [[v' c']|];
    unfold is_best in HB, HB'.
  - destruct HB as [H1 [H2 [H3 [_ H5]]]].
    destruct HB' as [H1' [H2' [H3' [_ H5']]]].
    pose proof (H5 c' v' (Hin' _ H1') H2' H3') as Ha.
    pose proof (H5' c v (Hin _ H1) H2 H3) as Hb.
    assert (v = v').
    { destruct (lex_lt_total v v') as [E|[E|E]]; auto; congruence. }
    subst v'. f_equal.
    apply (Hinj c c' (map EInt v)); auto; now apply cand_key_normalize.
  - destruct HB as [H1 [H2 [H3 _]]].
    rewrite (HB' c v (Hin _ H1) H2) in H3. discriminate.
  - destruct HB' as [H1' [H2' [H3' _]]].
    rewrite (HB c' v' (Hin' _ H1') H2') in H3'. discriminate.
  - reflexivity.
Qed.

Lemma X7_order_of_candidates_irrelevant_witness :
  _match_version "temurin" ["11.0.1"; "17.0.2"; "11.0.10"] "11"
  = _match_version "temurin" ["17.0.2"; "11.0.1"; "11.0.10"] "11".
Proof.
  apply X7_order_of_candidates_irrelevant.
  - intros c k [<-|[<-|[<-|[]]]] H; vm_compute in H; inversion H;
      reflexivity.
  - apply perm_swap.
  - intros c1 c2 k [<-|[<-|[<-|[]]]] [<-|[<-|[<-|[]]]] H1 H2;
      try reflexivity; vm_compute in H1, H2; rewrite <- H1 in H2;
      discriminate.
Defined.

(** ** Further properties of the catalog functions *)

Lemma dict_get_in {V : Type} (k : string) (v : V) (d : list (string * V)) :
  dict_get String.eqb k d = Some v -> In (k, v) d.
Proof.
  induction d as [|[k0 v0] d IH]; simpl; [discriminate|].
  destruct (String.eqb_spec k k0) as [->|Hne]; auto.
  intro H; inversion H; auto.
Qed.

Lemma in_dict_get {V : Type} (k : string) (v : V) (d : list (string * V)) :
  In (k, v) d -> exists v', dict_get String.eqb k d = Some v'.
Proof.
  induction d as [|[k0 v0] d IH]; simpl; [contradiction|].
  intros [E|Hin]; destruct (String.eqb_spec k k0) as [->|Hne]; eauto.
  inversion E. congruence.
Qed.

Lemma distinct_dict_get {V : Type} (k : string) (v : V)
  (d : list (string * V)) :
  distinct (map fst d) = true -> In (k, v) d ->
  dict_get String.eqb k d = Some v.
Proof.
  induction d as [|[k0 v0] d IH]; simpl; [contradiction|].
  intros Hd [E|Hin].
  - inversion E; subst. now rewrite String.eqb_refl.
  - apply andb_true_iff in Hd as [Hn Hd].
    destruct (String.eqb_spec k k0) as [->|Hne]; auto.
    apply negb_true_iff in Hn.
    assert (Hex : existsb (String.eqb k0) (map fst d) = true).
    { apply existsb_exists. exists k0. split; [|apply String.eqb_refl].
      apply in_map_iff. now exists (k0, v). }
    congruence.
Qed.

Lemma available_jdks_in (index : index_dict) (conf : Configuration)
  (pairs : list (string * string)) (v ver : string) :
  available_jdks index conf = Ok pairs -> In (v, ver) pairs ->
  exists arches jdks vendor_key versions url,
    dict_get String.eqb (os conf) index = Some arches
    /\ dict_get String.eqb (arch conf) arches = Some jdks
    /\ In (vendor_key, versions) jdks
    /\ In (ver, url) versions
    /\ removeprefix "jdk@" vendor_key = v.
Proof.
  unfold available_jdks.
  destruct (dict_get String.eqb (os conf) index) as [arches|] eqn:Hos;
    [|intro H; inversion H; subst; contradiction].
  destruct (dict_get String.eqb (arch conf) arches) as [jdks|] eqn:Harch;
    [|intro H; inversion H; subst; contradiction].
  unfold py_sorted.
  destruct (all_comparable pair_lt _); [|discriminate].
  intro H; inversion H; subst. intro Hin.
  assert (Hin' : In (v, ver) (vendor_version_pairs jdks)).
  { rewrite (stable_sort_ext pair_lt (fun x y => Ok (pair_ltb x y))) in Hin.
    - eapply Permutation_in; [apply stable_sort_perm|exact Hin].
    - intros x y. unfold is_lt, pair_lt, pair_ltb.
      now destruct (String.eqb (fst x) (fst y)). }
  apply vendor_version_pairs_in in Hin'
    as [vk [versions [url [H1 [H2 H3]]]]].
  exists arches, jdks, vk, versions, url. auto.
Qed.

Lemma resolve_listed (index : index_dict) (conf : Configuration)
  (m : string) :
  resolve_jdk_version index conf = Ok m ->
  m <> ""%string
  /\ In m (vendor_versions index conf)
  /\ (exists normreq k,
         _normalize_version (version conf) (request_flag conf) = Ok normreq
         /\ _normalize_version m (request_flag conf) = Ok k
         /\ _is_version_compatible_with_spec k normreq = Ok true).
Proof.
  rewrite resolve_unfold.
  destruct (vendor_versions index conf) as [|c0 cs] eqn:Hvs; [discriminate|].
  destruct (_match_version _ (c0 :: cs) _) as [matched|e] eqn:Hm;
    cbn [bind]; [|discriminate].
  destruct (str_nonempty matched) eqn:Hne; [|discriminate].
  intro H; inversion H; subst matched.
  apply match_version_sound in Hm as [Hin Hcompat].
  split; [intros ->; discriminate|]. split; auto.
Qed.

Lemma vendor_versions_in (index : index_dict) (conf : Configuration)
  (m : string) :
  In m (vendor_versions index conf) ->
  exists arches jdks vendor_key versions url,
    dict_get String.eqb (os conf) index = Some arches
    /\ dict_get String.eqb (arch conf) arches = Some jdks
    /\ In (vendor_key, versions) jdks
    /\ In (m, url) versions
    /\ removeprefix "jdk@" vendor_key = vendor conf.
Proof.
  unfold vendor_versions. intro Hin.
  destruct (available_jdks index conf) as [pairs|] eqn:Hav; [|contradiction].
  apply in_map_iff in Hin as [[v ver] [E Hin]]. simpl in E. subst ver.
  apply filter_In in Hin as [Hin Hv]. simpl in Hv.
  apply String.eqb_eq in Hv. subst v.
  eapply available_jdks_in; eauto.
Qed.

(** X8.  Whatever [resolve_jdk_version] returns is a non-empty version
    string that the catalog lists, for the requested os and arch, under a
    vendor key that is the requested vendor once a leading "jdk@" is
    removed; and its key is compatible with the normalized request. *)
Theorem X8_resolve_sound :
  forall (index : index_dict) (conf : Configuration) (m : string),
    resolve_jdk_version index conf = Ok m ->
    m <> ""%string
    /\ (exists arches jdks vendor_key versions url,
           dict_get String.eqb (os conf) index = Some arches
           /\ dict_get String.eqb (arch conf) arches = Some jdks
           /\ In (vendor_key, versions) jdks
           /\ In (m, url) versions
           /\ removeprefix "jdk@" vendor_key = vendor conf)
    /\ (exists normreq k,
           _normalize_version (version conf) (request_flag conf) = Ok normreq
           /\ _normalize_version m (request_flag conf) = Ok k
           /\ _is_version_compatible_with_spec k normreq = Ok true).
Proof.
  intros index conf m Hres.
  destruct (resolve_listed _ _ _ Hres) as [Hne [Hin Hcompat]].
  split; [exact Hne|]. split; [|exact Hcompat].
  now apply vendor_versions_in.
Qed.

Lemma X8_resolve_sound_witness :
  "17.0.2"%string <> ""%string
  /\ (exists arches jdks vendor_key versions url,
         dict_get String.eqb "linux" sample_index = Some arches
         /\ dict_get String.eqb "x64" arches = Some jdks
         /\ In (vendor_key, versions) jdks
         /\ In ("17.0.2"%string, url) versions
         /\ removeprefix "jdk@" vendor_key = "temurin"%string)
  /\ (exists normreq k,
         _normalize_version "17+" true = Ok normreq
         /\ _normalize_version "17.0.2" true = Ok k
         /\ _is_version_compatible_with_spec k normreq = Ok true).
Proof.
  apply (X8_resolve_sound sample_index (sample_conf "temurin" "17+")).
  reflexivity.
Defined.

(** X9.  In a catalog section whose vendor keys are distinct and all
    start with "jdk@", a version that resolves always has its URL:
    [jdk_url] returns the URL stored for the resolved version under
    "jdk@" followed by the vendor, and raises no [KeyError] of its own. *)
Theorem X9_jdk_url_of_resolved_version :
  forall (index : index_dict) (conf : Configuration)
         (arches : list (string * jdks_dict)) (jdks : jdks_dict) (m : string),
    dict_get String.eqb (os conf) index = Some arches ->
    dict_get String.eqb (arch conf) arches = Some jdks ->
    distinct (map fst jdks) = true ->
    (forall vendor_key versions,
        In (vendor_key, versions) jdks ->
        String.prefix "jdk@" vendor_key = true) ->
    resolve_jdk_version index conf = Ok m ->
    exists versions url,
      dict_get String.eqb ("jdk@" ++ vendor conf)%string jdks = Some versions
      /\ dict_get String.eqb m versions = Some url
      /\ jdk_url index conf = Ok url.
Proof.
  intros index conf arches jdks m Hos Harch Hd Hpre Hres.
  destruct (resolve_listed _ _ _ Hres) as [_ [Hin _]].
  destruct (vendor_versions_in _ _ _ Hin)
    as [arches' [jdks' [vk [versions [url [H1 [H2 [H3 [H4 H5]]]]]]]]].
  rewrite Hos in H1. inversion H1; subst arches'.
  rewrite Harch in H2. inversion H2; subst jdks'.
  pose proof (Hpre _ _ H3) as Hp. apply prefix_app in Hp as [b ->].
  rewrite removeprefix_present in H5. subst b.
  pose proof (distinct_dict_get _ _ _ Hd H3) as Hg.
  destruct (in_dict_get _ _ _ H4) as [url' Hu].
  exists versions, url'. repeat split; auto.
  unfold jdk_url, subscript. rewrite Hres. cbn [bind].
  rewrite Hos. cbn [bind]. rewrite Harch. cbn [bind].
  rewrite Hg. cbn [bind]. now rewrite Hu.
Qed.

Lemma X9_jdk_url_of_resolved_version_witness :
  exists versions url,
    dict_get String.eqb ("jdk@" ++ "temurin")%string
      [("jdk@temurin",
        [("17.0.2", "tgz+https://example.org/t17");
         ("11.0.1", "tgz+https://example.org/t11")])] = Some versions
    /\ dict_get String.eqb "11.0.1" versions = Some url
    /\ jdk_url sample_index (sample_conf "temurin" "11") = Ok url.
Proof.
  apply (X9_jdk_url_of_resolved_version sample_index
           (sample_conf "temurin" "11")
           [("x64",
             [("jdk@temurin",
               [("17.0.2", "tgz+https://example.org/t17");
                ("11.0.1", "tgz+https://example.org/t11")])])]).
  - reflexivity.
  - reflexivity.
  - reflexivity.
  - intros vk versions [E|[]]. inversion E. reflexivity.
  - reflexivity.
Defined.

(** X10.  [available_jdks] lists a vendor key that lacks the "jdk@"
    prefix under its own name, but [jdk_url] only looks under "jdk@"
    followed by the vendor: in a catalog section none of whose vendor keys
    starts with "jdk@", a version that resolves has no URL, [jdk_url]
    raises [KeyError]. *)
Theorem X10_jdk_url_needs_the_prefix :
  forall (index : index_dict) (conf : Configuration)
         (arches : list (string * jdks_dict)) (jdks : jdks_dict) (m : string),
    dict_get String.eqb (os conf) index = Some arches ->
    dict_get String.eqb (arch conf) arches = Some jdks ->
    (forall vendor_key versions,
        In (vendor_key, versions) jdks ->
        String.prefix "jdk@" vendor_key = false) ->
    resolve_jdk_version index conf = Ok m ->
    jdk_url index conf = Raise (KeyError ("jdk@" ++ vendor conf)).
Proof.
  intros index conf arches jdks m Hos Harch Hpre Hres.
  unfold jdk_url, subscript. rewrite Hres. cbn [bind].
  rewrite Hos. cbn [bind]. rewrite Harch. cbn [bind].
  destruct (dict_get String.eqb ("jdk@" ++ vendor conf)%string jdks)
    as [versions|] eqn:Hg; [|reflexivity].
  apply dict_get_in in Hg. apply Hpre in Hg.
  assert (Ht : String.prefix "jdk@" ("jdk@" ++ vendor conf)%string = true)
    by (apply prefix_app; eauto).
  congruence.
Qed.

Lemma X10_jdk_url_needs_the_prefix_witness :
  resolve_jdk_version
    [("linux", [("x64", [("temurin", [("17.0.2", "tgz+https://e/t17")])])])]
    (sample_conf "temurin" "17") = Ok "17.0.2"
  /\ jdk_url
       [("linux", [("x64", [("temurin", [("17.0.2", "tgz+https://e/t17")])])])]
       (sample_conf "temurin" "17") = Raise (KeyError "jdk@temurin").
Proof.
  split; [reflexivity|].
  apply (X10_jdk_url_needs_the_prefix _ (sample_conf "temurin" "17")
           [("x64", [("temurin", [("17.0.2", "tgz+https://e/t17")])])]
           [("temurin", [("17.0.2", "tgz+https://e/t17")])] "17.0.2").
  - reflexivity.
  - reflexivity.
  - intros vk versions [E|[]]. inversion E. reflexivity.
  - reflexivity.
Defined.

(** ** Further properties of [find_home] *)

Lemma single_subdir_child (fs : node) (p sub : path) :
  _contains_single_subdir fs p = Ok (Some sub) ->
  exists name, sub = p ++ [name].
Proof.
  unfold _contains_single_subdir, iterdir.
  destruct (resolve fs p) as [[x|entries]|]; cbn [bind]; try discriminate.
  destruct (filter (is_dir fs) (map (fun e => p ++ [fst e]) entries))
    as [|item [|item2 rest]] eqn:Hf; intro H; inversion H; subst.
  assert (Hin : In sub (filter (is_dir fs)
                          (map (fun e => p ++ [fst e]) entries)))
    by (rewrite Hf; now left).
  apply filter_In in Hin as [Hin _].
  apply in_map_iff in Hin as [e [<- _]]. eauto.
Qed.

Lemma find_home_depth_sound (fs : node) (depth : nat) (p h : path) :
  find_home_depth fs p depth = Ok h ->
  _looks_like_java_home fs h = true
  /\ exists q, h = p ++ q /\ (List.length q <= depth + 2)%nat.
Proof.
  revert p. induction depth as [|depth IH]; intro p; cbn [find_home_depth];
    destruct (_looks_like_java_home fs p) eqn:H1;
    try (intro H; inversion H; subst; split; auto; exists [];
         rewrite app_nil_r; split; auto; simpl; lia);
    destruct (_looks_like_java_home fs (p ++ macos_extra)) eqn:H2;
    try (intro H; inversion H; subst; split; auto; exists macos_extra;
         split; auto; simpl; lia).
  destruct (_contains_single_subdir fs p) as [[sub|]|] eqn:Hs;
    cbn [bind]; try discriminate.
  intro H. apply IH in H as [Hh [q [-> Hq]]].
  destruct (single_subdir_child _ _ _ Hs) as [name ->].
  split; auto. exists (name :: q). rewrite <- app_assoc.
  split; auto. simpl. lia.
Qed.

(** X11.  Whatever [find_home] returns looks like a Java home, lies at
    or below the path it was given, and at most four names below it: two
    levels of descent and "Contents/Home". *)
Theorem X11_find_home_sound :
  forall (fs : node) (p h : path),
    find_home fs p = Ok h ->
    _looks_like_java_home fs h = true
    /\ exists q, h = p ++ q /\ (List.length q <= 4)%nat.
Proof.
  intros fs p h H. unfold find_home, find_home_with in H.
  apply find_home_depth_sound in H. exact H.
Qed.

Lemma X11_find_home_sound_witness :
  _looks_like_java_home tree_wrapped ["only-child"] = true
  /\ exists q, ["only-child"] = [] ++ q /\ (List.length q <= 4)%nat.
Proof.
  apply (X11_find_home_sound tree_wrapped [] ["only-child"]). reflexivity.
Defined.

Lemma not_dir_resolve (fs : node) (p q : path) :
  is_dir fs p = false -> q <> [] -> is_dir fs (p ++ q) = false
                                   /\ is_file fs (p ++ q) = false.
Proof.
  unfold is_dir, is_file. rewrite resolve_app.
  destruct (resolve fs p) as [[x|entries]|]; try discriminate;
    destruct q; try contradiction; auto.
Qed.

Lemma not_dir_not_home (fs : node) (p q : path) :
  is_dir fs p = false -> _looks_like_java_home fs (p ++ q) = false.
Proof.
  intro H. unfold _looks_like_java_home. rewrite <- app_assoc.
  destruct (not_dir_resolve fs p (q ++ ["bin"]) H) as [Hd _].
  - destruct q; discriminate.
  - now rewrite Hd.
Qed.

(** X12.  Given a path that is not a directory of the tree, a missing
    entry or a file, [find_home] does not report "does not look like it
    contains a JDK": listing the path fails first, with an [OSError]. *)
Theorem X12_find_home_not_a_directory :
  forall (fs : node) (p : path),
    is_dir fs p = false -> find_home fs p = Raise (OSError p).
Proof.
  intros fs p H. unfold find_home, find_home_with.
  change (Z.to_nat 2) with 2%nat. cbn [find_home_depth].
  rewrite <- (app_nil_r p) at 1. rewrite (not_dir_not_home fs p [] H).
  rewrite (not_dir_not_home fs p macos_extra H).
  unfold _contains_single_subdir, iterdir. unfold is_dir in H.
  destruct (resolve fs p) as [[x|entries]|]; try discriminate; reflexivity.
Qed.

Lemma X12_find_home_not_a_directory_witness :
  find_home tree_wrapped ["README"] = Raise (OSError ["README"])
  /\ find_home tree_wrapped ["missing"; "jdk"]
     = Raise (OSError ["missing"; "jdk"]).
Proof.
  split; apply X12_find_home_not_a_directory; reflexivity.
Defined.

(** ** Candidates that share a key *)

Lemma find_last_split (f : bool) (v : list Z) (cands : list string)
  (c : string) :
  find_last f v cands None = Some c ->
  exists l1 l2,
    cands = l1 ++ c :: l2
    /\ cand_key f c = Some v
    /\ forall c', In c' l2 -> cand_key f c' <> Some v.
Proof.
  induction cands as [|x cands IH] using rev_ind; [discriminate|].
  rewrite find_last_snoc.
  destruct (cand_key f x) as [v'|] eqn:Hx.
  - destruct (zlist_eqb v' v) eqn:E.
    + apply zlist_eqb_eq in E. subst v'. intro H; inversion H; subst x.
      exists cands, []. repeat split; auto.
    + intro H. destruct (IH H) as [l1 [l2 [-> [Hc Hl2]]]].
      exists l1, (l2 ++ [x]). rewrite <- app_assoc. repeat split; auto.
      intros c' Hin. apply in_app_or in Hin as [Hin|[<-|[]]]; auto.
      rewrite Hx. intro H'. inversion H'; subst.
      now rewrite zlist_eqb_refl in E.
  - intro H. destruct (IH H) as [l1 [l2 [-> [Hc Hl2]]]].
    exists l1, (l2 ++ [x]). rewrite <- app_assoc. repeat split; auto.
    intros c' Hin. apply in_app_or in Hin as [Hin|[<-|[]]]; auto.
    rewrite Hx. discriminate.
Qed.

(** X13.  Among candidates that normalize to the same key the one listed
    last is the one returned: behind the returned candidate the list
    holds no candidate with its key (candidates whose accepted keys carry
    no marker). *)
Theorem X13_last_candidate_of_a_key_wins :
  forall (vendor : string) (cands : list string) (req m : string),
    plus_free_candidates (negb (is_graal vendor)) cands ->
    _match_version vendor cands req = Ok m ->
    exists l1 l2 k,
      cands = l1 ++ m :: l2
      /\ _normalize_version m (negb (is_graal vendor)) = Ok k
      /\ forall c, In c l2 ->
                   _normalize_version c (negb (is_graal vendor)) <> Ok k.
Proof.
  intros vendor cands req m Hfree Hm.
  set (f := negb (is_graal vendor)) in *.
  destruct (_normalize_version req f) as [normreq|e] eqn:Hreq.
  2: { unfold _match_version in Hm. fold f in Hm. rewrite Hreq in Hm.
       discriminate. }
  rewrite (match_version_full_scan _ _ _ _ Hreq Hfree) in Hm. fold f in Hm.
  pose proof (full_scan_best f normreq cands) as HB.
  destruct (full_scan f normreq cands) as [[bv bc]|]; [|discriminate].
  inversion Hm; subst bc. unfold is_best in HB.
  destruct HB as [_ [_ [_ [Hlast _]]]].
  destruct (find_last_split _ _ _ _ Hlast) as [l1 [l2 [-> [Hk Hl2]]]].
  exists l1, l2, (map EInt bv). repeat split.
  - now apply cand_key_normalize.
  - intros c Hin Hn. apply (Hl2 c Hin). now apply cand_key_normalize.
Qed.

Lemma X13_last_candidate_of_a_key_wins_witness :
  exists l1 l2 k,
    ["8.0"; "1.8.0"; "7.0"] = l1 ++ "1.8.0"%string :: l2
    /\ _normalize_version "1.8.0" (negb (is_graal "temurin")) = Ok k
    /\ forall c, In c l2 ->
                 _normalize_version c (negb (is_graal "temurin")) <> Ok k.
Proof.
  apply (X13_last_candidate_of_a_key_wins "temurin"
           ["8.0"; "1.8.0"; "7.0"] "8").
  - intros c k [<-|[<-|[<-|[]]]] H; vm_compute in H; inversion H;
      reflexivity.
  - reflexivity.
Defined.

(** ** Printing and reading back *)

Lemma long_digits_uint (d : Decimal.uint) (acc : Z) :
  long_digits (NilEmpty.string_of_uint d) false acc
  = Some (dec_val d acc, EmptyString).
Proof.
  revert acc. induction d; intro acc;
    cbn [NilEmpty.string_of_uint dec_val];
    try reflexivity;
    rewrite long_digits_digit by reflexivity; apply IHd.
Qed.

Lemma dec_val_pos (d : Decimal.uint) (p : positive) :
  dec_val d (Z.pos p) = Z.pos (Pos.of_uint_acc d p).
Proof.
  revert p. induction d; intro p; cbn [dec_val Pos.of_uint_acc];
    try reflexivity; rewrite <- IHd; f_equal; lia.
Qed.

Lemma dec_val_of_uint (d : Decimal.uint) : dec_val d 0 = Z.of_uint d.
Proof.
  unfold Z.of_uint.
  induction d; cbn [dec_val Pos.of_uint]; try reflexivity;
    try exact IHd;
    match goal with
    | |- dec_val _ ?a = _ =>
        change a with (Z.pos (Z.to_pos a)); rewrite dec_val_pos; reflexivity
    end.
Qed.

Lemma string_of_uint_plain (d : Decimal.uint) :
  str_forall is_digit (NilEmpty.string_of_uint d) = true.
Proof. induction d; simpl; auto. Qed.

(** On a run of digits [int] returns the value read, unless the run is
    longer than the limit. *)
Lemma py_int_digits (s : string) (v : Z) :
  str_forall is_digit s = true -> str_nonempty s = true ->
  long_digits s false 0 = Some (v, EmptyString) ->
  py_int s
  = if max_str_digits <? Z.of_nat (String.length s) then None else Some v.
Proof.
  intros Hd Hne Hv.
  destruct s as [|c s]; [discriminate|].
  pose proof Hd as Hd'. cbn [str_forall] in Hd'.
  apply andb_true_iff in Hd' as [Hc _].
  rewrite (py_int_first_digit _ _ Hc). unfold long_value.
  rewrite Hc, Hv, (digit_count_digits _ Hd).
  destruct (_ <? _); reflexivity.
Qed.

Lemma py_int_uint (d : Decimal.uint) :
  py_int (NilZero.string_of_uint d)
  = if max_str_digits
       <? Z.of_nat (String.length (NilZero.string_of_uint d))
    then None else Some (Z.of_uint d).
Proof.
  unfold NilZero.string_of_uint.
  assert (H : d <> Decimal.Nil ->
              py_int (NilEmpty.string_of_uint d)
              = if max_str_digits
                   <? Z.of_nat (String.length (NilEmpty.string_of_uint d))
                then None else Some (Z.of_uint d)).
  { intro Hd. rewrite <- dec_val_of_uint. apply py_int_digits.
    - apply string_of_uint_plain.
    - destruct d; try reflexivity. contradiction.
    - now rewrite long_digits_uint. }
  destruct d; try (apply H; discriminate). reflexivity.
Qed.

Lemma int_repr_nonneg (z : Z) :
  0 <= z -> int_repr z = NilZero.string_of_uint (N.to_uint (Z.to_N z))
            /\ Z.of_uint (N.to_uint (Z.to_N z)) = z.
Proof.
  intro Hz. unfold int_repr.
  pose proof (DecimalZ.of_to z) as E.
  destruct z as [|p|p]; try lia; simpl in *; auto.
Qed.

Lemma py_int_repr (z : Z) :
  0 <= z -> str_digits z <= max_str_digits -> py_int (int_repr z) = Some z.
Proof.
  intros Hz Hcap. unfold str_digits in Hcap.
  destruct (int_repr_nonneg z Hz) as [E1 E2]. rewrite E1 in *.
  rewrite py_int_uint, E2.
  destruct (_ <? _) eqn:Hlt; [|reflexivity].
  apply Z.ltb_lt in Hlt. lia.
Qed.

Lemma int_repr_plain (z : Z) :
  0 <= z -> str_forall is_digit (int_repr z) = true.
Proof.
  intro Hz. destruct (int_repr_nonneg z Hz) as [-> _].
  unfold NilZero.string_of_uint.
  destruct (N.to_uint (Z.to_N z)); try reflexivity; apply string_of_uint_plain.
Qed.

Lemma render_version_plain (x : Z) (rest : list Z) :
  Forall (fun z => 0 <= z) (x :: rest) ->
  str_forall plain_char (render_version x rest) = true.
Proof.
  unfold render_version. revert x.
  induction rest as [|y rest IH]; intros x Hall; inversion Hall; subst;
    simpl.
  - apply (str_forall_impl is_digit); [apply is_digit_plain|].
    now apply int_repr_plain.
  - rewrite str_forall_app. cbn [str_forall].
    rewrite (str_forall_impl is_digit plain_char _ is_digit_plain
               (int_repr_plain x H1)).
    now rewrite IH.
Qed.

Lemma render_version_split (x : Z) (rest : list Z) :
  Forall (fun z => 0 <= z) (x :: rest) ->
  re_split (render_version x rest) = map int_repr (x :: rest).
Proof.
  intro Hall. unfold render_version. rewrite re_split_join.
  - simpl. f_equal. rewrite map_map. reflexivity.
  - inversion Hall; subst.
    apply (str_forall_impl is_digit); [apply is_digit_not_sep|].
    now apply int_repr_plain.
  - inversion Hall; subst. apply Forall_map.
    eapply Forall_impl; [|eassumption].
    intros z Hz. split; [reflexivity|]. simpl.
    apply (str_forall_impl is_digit); [apply is_digit_not_sep|].
    now apply int_repr_plain.
Qed.

Lemma ints_of_reprs (l : list Z) :
  Forall (fun z => 0 <= z /\ str_digits z <= max_str_digits) l ->
  ints_of (map int_repr l) = Some (map EInt l).
Proof.
  induction 1 as [|z l [Hz Hcap] _ IH]; simpl; auto.
  now rewrite py_int_repr, IH.
Qed.

Lemma render_version_nonempty (x : Z) (rest : list Z) :
  0 <= x -> str_nonempty (render_version x rest) = true.
Proof.
  intro Hx. unfold render_version.
  assert (H : str_nonempty (int_repr x) = true).
  { destruct (int_repr_nonneg x Hx) as [-> _].
    unfold NilZero.string_of_uint.
    destruct (N.to_uint (Z.to_N x)) eqn:E; try reflexivity. }
  destruct rest as [|y rest]; simpl; auto.
  destruct (int_repr x); [discriminate|reflexivity].
Qed.

(** X14.  Writing a tuple of non-negative integers, each of at most
    [max_str_digits] = 4300 decimal digits, as decimal numbers joined by
    dots and normalizing the string gives the tuple back; with
    [remove_prefix_1] a leading 1 is taken off it. *)
Theorem X14_normalize_rendered_version :
  forall (x : Z) (rest : list Z),
    Forall (fun z => 0 <= z /\ str_digits z <= max_str_digits) (x :: rest) ->
    _normalize_version (render_version x rest) false
    = Ok (map EInt (x :: rest))
    /\ _normalize_version (render_version x rest) true
       = Ok (drop_prefix_1 (map EInt (x :: rest))).
Proof.
  intros x rest Hcap.
  assert (Hall : Forall (fun z => 0 <= z) (x :: rest)).
  { eapply Forall_impl; [|exact Hcap]. now intros z [Hz _]. }
  assert (Hplus : endswith_char (render_version x rest) "+" = false).
  { apply plain_not_plus. now apply render_version_plain. }
  assert (Hne : str_nonempty (render_version x rest) = true).
  { apply render_version_nonempty. now inversion Hall. }
  assert (H : key_of (_normalize_version (render_version x rest) false)
              = Some (map EInt (x :: rest))).
  { rewrite normalize_by_parts. unfold version_body. rewrite Hplus, Hne.
    rewrite (render_version_split _ _ Hall).
    unfold normalize_parts. rewrite (ints_of_reprs _ Hcap).
    cbn [map andb]. now rewrite app_nil_r. }
  pose proof (normalize_remove_prefix_1 (render_version x rest)) as H'.
  rewrite H in H'. simpl option_map in H'.
  destruct (_normalize_version (render_version x rest) false) as [k|e];
    [|discriminate].
  destruct (_normalize_version (render_version x rest) true) as [k'|e];
    [|discriminate].
  simpl in H, H'. inversion H. inversion H'. subst. auto.
Qed.

Lemma X14_normalize_rendered_version_witness :
  _normalize_version (render_version 1 [8; 0; 372]) false
  = Ok (map EInt [1; 8; 0; 372])
  /\ _normalize_version (render_version 1 [8; 0; 372]) true
     = Ok (drop_prefix_1 (map EInt [1; 8; 0; 372])).
Proof.
  apply X14_normalize_rendered_version.
  repeat constructor; try lia; vm_compute; discriminate.
Defined.
